(** * Interprète Universel: the message handlers of [App.tsx]

    A shallow embedding of the session callbacks of the React component
    [App] ([onmessage], [handleTranscription], [speakText], [onerror], the
    ['ended'] listener) and of the helper [mapLanguageCodeToLocale], with
    the properties of the playback scheduler, of the transcript
    accumulator and of the fallback speech routing; then the handlers
    behind the buttons ([replayLastOutput], [connectToGemini],
    [disconnect], the settings of [SettingsModal.tsx], [displayItems] and
    [handleSpeak] of [Transcript.tsx]) and the invariants of a session.

    Conventions.
    - A JS string is a [string]: a sequence of code units.  Only the ASCII
      range is interpreted: [toLowerCase] maps [A-Z] and leaves every other
      unit alone, and white space is TAB, LF, VT, FF, CR and SPACE.
    - Device time ([AudioContext.currentTime], [AudioBuffer.duration]) is a
      JS number of seconds.  It is modelled by an exact integer number of
      ticks of a common time base; rounding is not modelled.
    - A callback runs to completion before the next one starts (each
      message is handled atomically). *)

From Stdlib Require Import ZArith List String Ascii Bool Lia DecimalString.
Import ListNotations.

Open Scope string_scope.
Open Scope Z_scope.

(** ** JS string primitives *)

Module Js.

(** [c.toLowerCase()] on one code unit. *)
Definition lowerUnit (c : ascii) : ascii :=
  let n := nat_of_ascii c in
  if ((65 <=? n) && (n <=? 90))%nat then ascii_of_nat (n + 32) else c.

(** [s.toLowerCase()]. *)
Fixpoint toLowerCase (s : string) : string :=
  match s with
  | EmptyString => EmptyString
  | String c r => String (lowerUnit c) (toLowerCase r)
  end.

(** [s.startsWith(p)]. *)
Definition startsWith (p s : string) : bool := String.prefix p s.

(** [s.includes(needle)]. *)
Fixpoint includes (needle s : string) : bool :=
  String.prefix needle s ||
  match s with
  | EmptyString => false
  | String _ r => includes needle r
  end.

(** [s.split(sep)[0]] for a one-unit separator: the units before the first
    occurrence of [sep], the whole string when there is none. *)
Fixpoint splitHead (sep : ascii) (s : string) : string :=
  match s with
  | EmptyString => EmptyString
  | String c r => if Ascii.eqb c sep then EmptyString else String c (splitHead sep r)
  end.

Definition isWhiteSpace (c : ascii) : bool :=
  let n := nat_of_ascii c in
  ((9 <=? n) && (n <=? 13) || (n =? 32))%nat.

Fixpoint trimStart (s : string) : string :=
  match s with
  | EmptyString => EmptyString
  | String c r => if isWhiteSpace c then trimStart r else s
  end.

Fixpoint trimEnd (s : string) : string :=
  match s with
  | EmptyString => EmptyString
  | String c r =>
      match trimEnd r with
      | EmptyString => if isWhiteSpace c then EmptyString else String c EmptyString
      | r' => String c r'
      end
  end.

(** [s.trim()]. *)
Definition trim (s : string) : string := trimEnd (trimStart s).

(** Truthiness of a string: [if (s)]. *)
Definition truthy (s : string) : bool := negb (String.eqb s EmptyString).

(** [n + ''] for an integer [n]. *)
Definition numberToString (n : Z) : string := NilZero.string_of_int (Z.to_int n).

End Js.

(** ** Data model *)

(** [TranscriptItem] of [types.ts]. *)
Inductive Source := User | Model.

(** The [languageCode] property of an input transcription is read through
    [(trans as any).languageCode]: it is a string, or any other truthy JSON
    value (a number, [true], an array, an object), which has no
    [toLowerCase] method.  Falsy non-string values behave as an absent
    property and are [None] at the use site. *)
Inductive LangTag :=
| Tag (code : string)
| NotAString.

Module Item.
Record t := mk {
  id : string;
  source : Source;
  text : string;
  language : option LangTag;
  isFinal : bool;
  timestamp : Z
}.
End Item.

(** The parts of a [LiveServerMessage] the callbacks read. *)
Record Transcription := {
  text : option string;
  languageCode : option LangTag
}.

Record LiveServerMessage := {
  inputTranscription : option Transcription;
  outputTranscription : option Transcription;
  turnComplete : bool;
  interrupted : bool;
  (** [serverContent?.modelTurn?.parts?.[0]?.inlineData?.data] *)
  inlineData : option string
}.

(** What a callback reads from the outside while it runs:
    [ctx.currentTime] (device ticks) and [Date.now()] (one reading per
    callback). *)
Record Clock := {
  currentTime : Z;
  dateNow : Z
}.

(** The argument of [onerror]: an [Error] instance with its [message], or a
    value for which [err instanceof Error] is false. *)
Inductive ErrValue :=
| ErrorObject (message : string)
| NonError.

Inductive Exception :=
| TypeError (what : string)
| DecodeError.

(** Calls that leave the component, oldest first in the log. *)
Inductive Effect :=
| SourceStart (node : nat) (when duration : Z)
| SourceStop (node : nat)
| Speak (utterance lang : string)
| SpeechCancel
| ConsoleError (label : string)
| ConsoleWarn (label : string).

(** The React state and the refs of [App] that the callbacks touch, and the
    outside world: whether [window] has [speechSynthesis], the allocation
    counter of [AudioBufferSourceNode]s and the log of effects.
    [audioContextRef] and [outputAnalyserRef] record whether the ref is
    non-null. [sourcesRef] is a JS [Set], kept in insertion order. *)
Record AppState := {
  isConnected : bool;
  error : option string;
  transcripts : list Item.t;
  streamingUserText : string;
  streamingModelText : string;
  useBrowserTTSRef : bool;
  targetLanguageRef : string;
  audioContextRef : bool;
  outputAnalyserRef : bool;
  nextStartTimeRef : Z;
  sourcesRef : list nat;
  currentInputTransRef : string;
  currentOutputTransRef : string;
  currentInputLanguageRef : option LangTag;
  lastClientLanguageRef : string;
  speechSynthesisInWindow : bool;
  nextNode : nat;
  effects : list Effect
}.

(** Assignment to one field. *)

Definition set_isConnected v (s : AppState) : AppState :=
  {| isConnected := v; error := error s; transcripts := transcripts s;
     streamingUserText := streamingUserText s; streamingModelText := streamingModelText s;
     useBrowserTTSRef := useBrowserTTSRef s; targetLanguageRef := targetLanguageRef s;
     audioContextRef := audioContextRef s; outputAnalyserRef := outputAnalyserRef s;
     nextStartTimeRef := nextStartTimeRef s; sourcesRef := sourcesRef s;
     currentInputTransRef := currentInputTransRef s;
     currentOutputTransRef := currentOutputTransRef s;
     currentInputLanguageRef := currentInputLanguageRef s;
     lastClientLanguageRef := lastClientLanguageRef s;
     speechSynthesisInWindow := speechSynthesisInWindow s; nextNode := nextNode s;
     effects := effects s |}.

Definition set_error v (s : AppState) : AppState :=
  {| isConnected := isConnected s; error := v; transcripts := transcripts s;
     streamingUserText := streamingUserText s; streamingModelText := streamingModelText s;
     useBrowserTTSRef := useBrowserTTSRef s; targetLanguageRef := targetLanguageRef s;
     audioContextRef := audioContextRef s; outputAnalyserRef := outputAnalyserRef s;
     nextStartTimeRef := nextStartTimeRef s; sourcesRef := sourcesRef s;
     currentInputTransRef := currentInputTransRef s;
     currentOutputTransRef := currentOutputTransRef s;
     currentInputLanguageRef := currentInputLanguageRef s;
     lastClientLanguageRef := lastClientLanguageRef s;
     speechSynthesisInWindow := speechSynthesisInWindow s; nextNode := nextNode s;
     effects := effects s |}.

Definition set_transcripts v (s : AppState) : AppState :=
  {| isConnected := isConnected s; error := error s; transcripts := v;
     streamingUserText := streamingUserText s; streamingModelText := streamingModelText s;
     useBrowserTTSRef := useBrowserTTSRef s; targetLanguageRef := targetLanguageRef s;
     audioContextRef := audioContextRef s; outputAnalyserRef := outputAnalyserRef s;
     nextStartTimeRef := nextStartTimeRef s; sourcesRef := sourcesRef s;
     currentInputTransRef := currentInputTransRef s;
     currentOutputTransRef := currentOutputTransRef s;
     currentInputLanguageRef := currentInputLanguageRef s;
     lastClientLanguageRef := lastClientLanguageRef s;
     speechSynthesisInWindow := speechSynthesisInWindow s; nextNode := nextNode s;
     effects := effects s |}.

Definition set_streamingUserText v (s : AppState) : AppState :=
  {| isConnected := isConnected s; error := error s; transcripts := transcripts s;
     streamingUserText := v; streamingModelText := streamingModelText s;
     useBrowserTTSRef := useBrowserTTSRef s; targetLanguageRef := targetLanguageRef s;
     audioContextRef := audioContextRef s; outputAnalyserRef := outputAnalyserRef s;
     nextStartTimeRef := nextStartTimeRef s; sourcesRef := sourcesRef s;
     currentInputTransRef := currentInputTransRef s;
     currentOutputTransRef := currentOutputTransRef s;
     currentInputLanguageRef := currentInputLanguageRef s;
     lastClientLanguageRef := lastClientLanguageRef s;
     speechSynthesisInWindow := speechSynthesisInWindow s; nextNode := nextNode s;
     effects := effects s |}.

Definition set_streamingModelText v (s : AppState) : AppState :=
  {| isConnected := isConnected s; error := error s; transcripts := transcripts s;
     streamingUserText := streamingUserText s; streamingModelText := v;
     useBrowserTTSRef := useBrowserTTSRef s; targetLanguageRef := targetLanguageRef s;
     audioContextRef := audioContextRef s; outputAnalyserRef := outputAnalyserRef s;
     nextStartTimeRef := nextStartTimeRef s; sourcesRef := sourcesRef s;
     currentInputTransRef := currentInputTransRef s;
     currentOutputTransRef := currentOutputTransRef s;
     currentInputLanguageRef := currentInputLanguageRef s;
     lastClientLanguageRef := lastClientLanguageRef s;
     speechSynthesisInWindow := speechSynthesisInWindow s; nextNode := nextNode s;
     effects := effects s |}.

Definition set_useBrowserTTSRef v (s : AppState) : AppState :=
  {| isConnected := isConnected s; error := error s; transcripts := transcripts s;
     streamingUserText := streamingUserText s; streamingModelText := streamingModelText s;
     useBrowserTTSRef := v; targetLanguageRef := targetLanguageRef s;
     audioContextRef := audioContextRef s; outputAnalyserRef := outputAnalyserRef s;
     nextStartTimeRef := nextStartTimeRef s; sourcesRef := sourcesRef s;
     currentInputTransRef := currentInputTransRef s;
     currentOutputTransRef := currentOutputTransRef s;
     currentInputLanguageRef := currentInputLanguageRef s;
     lastClientLanguageRef := lastClientLanguageRef s;
     speechSynthesisInWindow := speechSynthesisInWindow s; nextNode := nextNode s;
     effects := effects s |}.

Definition set_targetLanguageRef v (s : AppState) : AppState :=
  {| isConnected := isConnected s; error := error s; transcripts := transcripts s;
     streamingUserText := streamingUserText s; streamingModelText := streamingModelText s;
     useBrowserTTSRef := useBrowserTTSRef s; targetLanguageRef := v;
     audioContextRef := audioContextRef s; outputAnalyserRef := outputAnalyserRef s;
     nextStartTimeRef := nextStartTimeRef s; sourcesRef := sourcesRef s;
     currentInputTransRef := currentInputTransRef s;
     currentOutputTransRef := currentOutputTransRef s;
     currentInputLanguageRef := currentInputLanguageRef s;
     lastClientLanguageRef := lastClientLanguageRef s;
     speechSynthesisInWindow := speechSynthesisInWindow s; nextNode := nextNode s;
     effects := effects s |}.

Definition set_audioContextRef v (s : AppState) : AppState :=
  {| isConnected := isConnected s; error := error s; transcripts := transcripts s;
     streamingUserText := streamingUserText s; streamingModelText := streamingModelText s;
     useBrowserTTSRef := useBrowserTTSRef s; targetLanguageRef := targetLanguageRef s;
     audioContextRef := v; outputAnalyserRef := outputAnalyserRef s;
     nextStartTimeRef := nextStartTimeRef s; sourcesRef := sourcesRef s;
     currentInputTransRef := currentInputTransRef s;
     currentOutputTransRef := currentOutputTransRef s;
     currentInputLanguageRef := currentInputLanguageRef s;
     lastClientLanguageRef := lastClientLanguageRef s;
     speechSynthesisInWindow := speechSynthesisInWindow s; nextNode := nextNode s;
     effects := effects s |}.

Definition set_outputAnalyserRef v (s : AppState) : AppState :=
  {| isConnected := isConnected s; error := error s; transcripts := transcripts s;
     streamingUserText := streamingUserText s; streamingModelText := streamingModelText s;
     useBrowserTTSRef := useBrowserTTSRef s; targetLanguageRef := targetLanguageRef s;
     audioContextRef := audioContextRef s; outputAnalyserRef := v;
     nextStartTimeRef := nextStartTimeRef s; sourcesRef := sourcesRef s;
     currentInputTransRef := currentInputTransRef s;
     currentOutputTransRef := currentOutputTransRef s;
     currentInputLanguageRef := currentInputLanguageRef s;
     lastClientLanguageRef := lastClientLanguageRef s;
     speechSynthesisInWindow := speechSynthesisInWindow s; nextNode := nextNode s;
     effects := effects s |}.

Definition set_nextStartTimeRef v (s : AppState) : AppState :=
  {| isConnected := isConnected s; error := error s; transcripts := transcripts s;
     streamingUserText := streamingUserText s; streamingModelText := streamingModelText s;
     useBrowserTTSRef := useBrowserTTSRef s; targetLanguageRef := targetLanguageRef s;
     audioContextRef := audioContextRef s; outputAnalyserRef := outputAnalyserRef s;
     nextStartTimeRef := v; sourcesRef := sourcesRef s;
     currentInputTransRef := currentInputTransRef s;
     currentOutputTransRef := currentOutputTransRef s;
     currentInputLanguageRef := currentInputLanguageRef s;
     lastClientLanguageRef := lastClientLanguageRef s;
     speechSynthesisInWindow := speechSynthesisInWindow s; nextNode := nextNode s;
     effects := effects s |}.

Definition set_sourcesRef v (s : AppState) : AppState :=
  {| isConnected := isConnected s; error := error s; transcripts := transcripts s;
     streamingUserText := streamingUserText s; streamingModelText := streamingModelText s;
     useBrowserTTSRef := useBrowserTTSRef s; targetLanguageRef := targetLanguageRef s;
     audioContextRef := audioContextRef s; outputAnalyserRef := outputAnalyserRef s;
     nextStartTimeRef := nextStartTimeRef s; sourcesRef := v;
     currentInputTransRef := currentInputTransRef s;
     currentOutputTransRef := currentOutputTransRef s;
     currentInputLanguageRef := currentInputLanguageRef s;
     lastClientLanguageRef := lastClientLanguageRef s;
     speechSynthesisInWindow := speechSynthesisInWindow s; nextNode := nextNode s;
     effects := effects s |}.

Definition set_currentInputTransRef v (s : AppState) : AppState :=
  {| isConnected := isConnected s; error := error s; transcripts := transcripts s;
     streamingUserText := streamingUserText s; streamingModelText := streamingModelText s;
     useBrowserTTSRef := useBrowserTTSRef s; targetLanguageRef := targetLanguageRef s;
     audioContextRef := audioContextRef s; outputAnalyserRef := outputAnalyserRef s;
     nextStartTimeRef := nextStartTimeRef s; sourcesRef := sourcesRef s; currentInputTransRef := v;
     currentOutputTransRef := currentOutputTransRef s;
     currentInputLanguageRef := currentInputLanguageRef s;
     lastClientLanguageRef := lastClientLanguageRef s;
     speechSynthesisInWindow := speechSynthesisInWindow s; nextNode := nextNode s;
     effects := effects s |}.

Definition set_currentOutputTransRef v (s : AppState) : AppState :=
  {| isConnected := isConnected s; error := error s; transcripts := transcripts s;
     streamingUserText := streamingUserText s; streamingModelText := streamingModelText s;
     useBrowserTTSRef := useBrowserTTSRef s; targetLanguageRef := targetLanguageRef s;
     audioContextRef := audioContextRef s; outputAnalyserRef := outputAnalyserRef s;
     nextStartTimeRef := nextStartTimeRef s; sourcesRef := sourcesRef s;
     currentInputTransRef := currentInputTransRef s; currentOutputTransRef := v;
     currentInputLanguageRef := currentInputLanguageRef s;
     lastClientLanguageRef := lastClientLanguageRef s;
     speechSynthesisInWindow := speechSynthesisInWindow s; nextNode := nextNode s;
     effects := effects s |}.

Definition set_currentInputLanguageRef v (s : AppState) : AppState :=
  {| isConnected := isConnected s; error := error s; transcripts := transcripts s;
     streamingUserText := streamingUserText s; streamingModelText := streamingModelText s;
     useBrowserTTSRef := useBrowserTTSRef s; targetLanguageRef := targetLanguageRef s;
     audioContextRef := audioContextRef s; outputAnalyserRef := outputAnalyserRef s;
     nextStartTimeRef := nextStartTimeRef s; sourcesRef := sourcesRef s;
     currentInputTransRef := currentInputTransRef s;
     currentOutputTransRef := currentOutputTransRef s; currentInputLanguageRef := v;
     lastClientLanguageRef := lastClientLanguageRef s;
     speechSynthesisInWindow := speechSynthesisInWindow s; nextNode := nextNode s;
     effects := effects s |}.

Definition set_lastClientLanguageRef v (s : AppState) : AppState :=
  {| isConnected := isConnected s; error := error s; transcripts := transcripts s;
     streamingUserText := streamingUserText s; streamingModelText := streamingModelText s;
     useBrowserTTSRef := useBrowserTTSRef s; targetLanguageRef := targetLanguageRef s;
     audioContextRef := audioContextRef s; outputAnalyserRef := outputAnalyserRef s;
     nextStartTimeRef := nextStartTimeRef s; sourcesRef := sourcesRef s;
     currentInputTransRef := currentInputTransRef s;
     currentOutputTransRef := currentOutputTransRef s;
     currentInputLanguageRef := currentInputLanguageRef s; lastClientLanguageRef := v;
     speechSynthesisInWindow := speechSynthesisInWindow s; nextNode := nextNode s;
     effects := effects s |}.

Definition set_nextNode v (s : AppState) : AppState :=
  {| isConnected := isConnected s; error := error s; transcripts := transcripts s;
     streamingUserText := streamingUserText s; streamingModelText := streamingModelText s;
     useBrowserTTSRef := useBrowserTTSRef s; targetLanguageRef := targetLanguageRef s;
     audioContextRef := audioContextRef s; outputAnalyserRef := outputAnalyserRef s;
     nextStartTimeRef := nextStartTimeRef s; sourcesRef := sourcesRef s;
     currentInputTransRef := currentInputTransRef s;
     currentOutputTransRef := currentOutputTransRef s;
     currentInputLanguageRef := currentInputLanguageRef s;
     lastClientLanguageRef := lastClientLanguageRef s;
     speechSynthesisInWindow := speechSynthesisInWindow s; nextNode := v; effects := effects s |}.

Definition set_effects v (s : AppState) : AppState :=
  {| isConnected := isConnected s; error := error s; transcripts := transcripts s;
     streamingUserText := streamingUserText s; streamingModelText := streamingModelText s;
     useBrowserTTSRef := useBrowserTTSRef s; targetLanguageRef := targetLanguageRef s;
     audioContextRef := audioContextRef s; outputAnalyserRef := outputAnalyserRef s;
     nextStartTimeRef := nextStartTimeRef s; sourcesRef := sourcesRef s;
     currentInputTransRef := currentInputTransRef s;
     currentOutputTransRef := currentOutputTransRef s;
     currentInputLanguageRef := currentInputLanguageRef s;
     lastClientLanguageRef := lastClientLanguageRef s;
     speechSynthesisInWindow := speechSynthesisInWindow s; nextNode := nextNode s; effects := v |}.

(** ** Callbacks as state transformers that may throw

    A callback body is a [Run A]: from the state before, a completion (a
    value or a thrown exception) and the state after.  As in JS, what was
    assigned before a [throw] stays assigned. *)

Inductive Completion (A : Type) :=
| Normal (a : A)
| Thrown (e : Exception).
Arguments Normal {A} a.
Arguments Thrown {A} e.

Definition Run (A : Type) : Type := AppState -> Completion A * AppState.

Definition ret {A} (a : A) : Run A := fun s => (Normal a, s).

Definition bind {A B} (c : Run A) (k : A -> Run B) : Run B :=
  fun s =>
    match c s with
    | (Normal a, s') => k a s'
    | (Thrown e, s') => (Thrown e, s')
    end.

Definition throw {A} (e : Exception) : Run A := fun s => (Thrown e, s).

(** [try { c } catch (e) { h e }] *)
Definition tryCatch (c : Run unit) (h : Exception -> Run unit) : Run unit :=
  fun s =>
    match c s with
    | (Normal a, s') => (Normal a, s')
    | (Thrown e, s') => h e s'
    end.

Definition read {A} (f : AppState -> A) : Run A := fun s => (Normal (f s), s).

Definition modify (f : AppState -> AppState) : Run unit := fun s => (Normal tt, f s).

Definition emit (e : Effect) : Run unit :=
  modify (fun s => set_effects (effects s ++ [e]) s).

(** [if (b) { c }] *)
Definition when (b : bool) (c : Run unit) : Run unit := if b then c else ret tt.

Declare Scope run_scope.
Delimit Scope run_scope with run.
Notation "x <- c ;; k" := (bind c (fun x => k))
  (at level 61, c at next level, right associativity) : run_scope.
Notation "c ;; k" := (bind c (fun _ => k))
  (at level 61, right associativity) : run_scope.
Open Scope run_scope.

(** [xs.forEach(f)] *)
Fixpoint forEach {A} (xs : list A) (f : A -> Run unit) : Run unit :=
  match xs with
  | [] => ret tt
  | x :: r => f x ;; forEach r f
  end.

(** [Set.prototype.add] and [Set.prototype.delete] on nodes. *)
Definition setAdd (x : nat) (l : list nat) : list nat :=
  if existsb (Nat.eqb x) l then l else l ++ [x].

Definition setDelete (x : nat) (l : list nat) : list nat :=
  filter (fun y => negb (Nat.eqb x y)) l.

(** ** Language tables *)

Fixpoint lookup (k : string) (table : list (string * string)) : option string :=
  match table with
  | [] => None
  | (k', v) :: r => if String.eqb k k' then Some v else lookup k r
  end.

Definition LANGUAGE_LOCALES : list (string * string) :=
  [ ("English", "en-US"); ("French", "fr-FR"); ("Spanish", "es-ES");
    ("German", "de-DE"); ("Italian", "it-IT"); ("Chinese", "zh-CN");
    ("Japanese", "ja-JP"); ("Arabic", "ar-SA"); ("Russian", "ru-RU");
    ("Portuguese", "pt-PT"); ("Dutch", "nl-NL") ].

(** The base code of a tag, as the first line of [mapLanguageCodeToLocale]
    computes it: [shortCode.split('-')[0].toLowerCase()]. *)
Definition baseCode (shortCode : string) : string :=
  Js.toLowerCase (Js.splitHead "-" shortCode).

(** [mapLanguageCodeToLocale]; [None] is [undefined].  The table is the
    object literal of the source; properties that a JS object inherits from
    [Object.prototype] are not part of it: at a base code that names one
    ([constructor], [__proto__]) the code returns a value that is not a
    string, the model [None].  A property that depends on the difference
    assumes [plainTag] below. *)
Definition mapLanguageCodeToLocale (shortCode : string) : option string :=
  if negb (Js.truthy shortCode) then None
  else
    lookup (baseCode shortCode)
      [ ("en", "en-US"); ("fr", "fr-FR"); ("es", "es-ES"); ("de", "de-DE");
        ("it", "it-IT"); ("zh", "zh-CN"); ("ja", "ja-JP"); ("ar", "ar-SA");
        ("ru", "ru-RU"); ("pt", "pt-PT"); ("nl", "nl-NL") ].

(** ** [speakText] *)

(** The [if]/[else] chain of [speakText] that sets [utterance.lang]. *)
Definition utteranceLang (isFrenchOutput : bool) (currentTarget lastClient : string)
  : string :=
  if isFrenchOutput then "fr-FR"
  else
    match (if negb (String.eqb currentTarget "Auto")
           then lookup currentTarget LANGUAGE_LOCALES else None) with
    | Some locale => locale
    | None =>
        match mapLanguageCodeToLocale lastClient with
        | Some detectedLocale => detectedLocale
        | None => "en-US"
        end
    end.

Definition speakText (utterance : string) (isFrenchOutput : bool) : Run unit :=
  available <- read speechSynthesisInWindow ;;
  if negb available then ret tt
  else
    currentTarget <- read targetLanguageRef ;;
    lastClient <- read lastClientLanguageRef ;;
    emit (Speak utterance (utteranceLang isFrenchOutput currentTarget lastClient)).

(** ** [handleTranscription] *)

Definition tagTruthy (t : LangTag) : bool :=
  match t with
  | Tag code => Js.truthy code
  | NotAString => true
  end.

(** [t.toLowerCase()]: a [TypeError] when [t] is not a string. *)
Definition tagToLowerCase (t : LangTag) : Run string :=
  match t with
  | Tag code => ret (Js.toLowerCase code)
  | NotAString => throw (TypeError "toLowerCase is not a function")
  end.

(** [o || ''] *)
Definition orEmpty (o : option LangTag) : LangTag :=
  match o with
  | Some t => if tagTruthy t then t else Tag EmptyString
  | None => Tag EmptyString
  end.

(** [if (message.serverContent?.inputTranscription) { ... }] *)
Definition inputTranscriptionBlock (inputTranscription : option Transcription) : Run unit :=
  match inputTranscription with
  | None => ret tt
  | Some trans =>
      match text trans with
      | Some txt =>
          when (Js.truthy txt)
            (modify (fun s => set_currentInputTransRef (currentInputTransRef s ++ txt) s) ;;
             cur <- read currentInputTransRef ;;
             modify (set_streamingUserText cur))
      | None => ret tt
      end ;;
      match languageCode trans with
      | Some code =>
          when (tagTruthy code)
            (modify (set_currentInputLanguageRef (Some code)) ;;
             match code with
             | Tag c =>
                 when (negb (Js.startsWith "fr" (Js.toLowerCase c)))
                   (modify (set_lastClientLanguageRef c))
             | NotAString => throw (TypeError "toLowerCase is not a function")
             end)
      | None => ret tt
      end
  end.

(** [if (message.serverContent?.outputTranscription) { ... }] *)
Definition outputTranscriptionBlock (outputTranscription : option Transcription)
  : Run unit :=
  match outputTranscription with
  | None => ret tt
  | Some trans =>
      match text trans with
      | Some txt =>
          when (Js.truthy txt)
            (modify (fun s => set_currentOutputTransRef (currentOutputTransRef s ++ txt) s) ;;
             cur <- read currentOutputTransRef ;;
             modify (set_streamingModelText cur))
      | None => ret tt
      end
  end.

(** The object literals given to [setTranscripts]. *)
Definition userItem (clk : Clock) (userInput : string) (lang : option LangTag) : Item.t :=
  Item.mk (Js.numberToString (dateNow clk) ++ "-user") User userInput lang true (dateNow clk).

Definition modelItem (clk : Clock) (modelOutput : string) : Item.t :=
  Item.mk (Js.numberToString (dateNow clk) ++ "-model") Model modelOutput None true
    (dateNow clk).

(** [if (message.serverContent?.turnComplete) { ... }].  The updater given
    to [setTranscripts] is applied at once, as React does when the component
    has no update pending: the user item gets the tag stored at that point.
    (When React defers the updater, it reads the ref after it was cleared
    and the item has no tag; nothing below depends on the tag of an item
    beyond its being a string or absent, which holds either way.) *)
Definition turnCompleteBlock (clk : Clock) : Run unit :=
  userInput <- read (fun s => Js.trim (currentInputTransRef s)) ;;
  modelOutput <- read (fun s => Js.trim (currentOutputTransRef s)) ;;
  detectedInputLang <- read (fun s => orEmpty (currentInputLanguageRef s)) ;;
  lowered <- tagToLowerCase detectedInputLang ;;
  let isFrenchInput := Js.startsWith "fr" lowered in
  let isFrenchOutput := negb isFrenchInput in
  when (Js.truthy userInput)
    (lang <- read currentInputLanguageRef ;;
     modify (fun s => set_transcripts (transcripts s ++ [userItem clk userInput lang]) s) ;;
     modify (set_currentInputTransRef EmptyString) ;;
     modify (set_currentInputLanguageRef None) ;;
     modify (set_streamingUserText EmptyString)) ;;
  when (Js.truthy modelOutput)
    (modify (fun s => set_transcripts (transcripts s ++ [modelItem clk modelOutput]) s) ;;
     useTTS <- read useBrowserTTSRef ;;
     when useTTS (speakText modelOutput isFrenchOutput) ;;
     modify (set_currentOutputTransRef EmptyString) ;;
     modify (set_streamingModelText EmptyString)).

Definition handleTranscription (clk : Clock) (message : LiveServerMessage) : Run unit :=
  inputTranscriptionBlock (inputTranscription message) ;;
  outputTranscriptionBlock (outputTranscription message) ;;
  when (turnComplete message) (turnCompleteBlock clk).

(** ** [onerror] *)

Definition configurationMessage : string :=
  "Configuration invalide (vérifiez les paramètres audio).".

Definition connectionMessage : string := "Erreur de connexion avec l'IA.".

Definition onerror (err : ErrValue) : Run unit :=
  emit (ConsoleError "Session Error") ;;
  match err with
  | ErrorObject message =>
      if Js.includes "Invalid argument" message then
        modify (set_error (Some configurationMessage))
      else if Js.includes "Internal error" message then
        emit (ConsoleWarn "Gemini Internal Warning (retrying usually fixes this):")
      else
        modify (set_error (Some connectionMessage))
  | NonError => ret tt
  end.

(** ** [onmessage] and the ['ended'] listener *)

(** [try { handleTranscription(message); } catch (e) { console.error(...) }] *)
Definition transcriptionBlock (clk : Clock) (message : LiveServerMessage) : Run unit :=
  tryCatch (handleTranscription clk message)
    (fun _ => emit (ConsoleError "Error processing transcription message:")).

Section Playback.

(** [decodeAudioData(decode(base64Audio), ctx, 24000, 1)] lives in
    [utils/audioUtils]: the duration, in device ticks, of the buffer decoded
    from a payload, or [None] when [decode] or [decodeAudioData] throws. *)
Variable decodeAudioData : string -> option Z.

Definition optTruthy (o : option string) : bool :=
  match o with
  | Some s => Js.truthy s
  | None => false
  end.

(** [window.speechSynthesis.cancel()]: nothing guards this call, so it
    throws where [window] has no [speechSynthesis]. *)
Definition speechSynthesisCancel : Run unit :=
  available <- read speechSynthesisInWindow ;;
  if available then emit SpeechCancel
  else throw (TypeError "window.speechSynthesis is undefined").

(** The body of the inner [try]: decode, create the source, start it at the
    cursor, advance the cursor, register the source. *)
Definition scheduleBuffer (base64Audio : string) : Run unit :=
  match decodeAudioData base64Audio with
  | None => throw DecodeError
  | Some duration =>
      source <- read nextNode ;;
      modify (set_nextNode (S source)) ;;
      startAt <- read nextStartTimeRef ;;
      emit (SourceStart source startAt duration) ;;
      modify (fun s => set_nextStartTimeRef (nextStartTimeRef s + duration) s) ;;
      modify (fun s => set_sourcesRef (setAdd source (sourcesRef s)) s)
  end.

(** The audio part of [onmessage]: clamp the cursor to the device time,
    then try to decode and schedule. *)
Definition audioBlock (clk : Clock) (message : LiveServerMessage) : Run unit :=
  let base64Audio := inlineData message in
  useTTS <- read useBrowserTTSRef ;;
  ctx <- read audioContextRef ;;
  analyser <- read outputAnalyserRef ;;
  when (negb useTTS && optTruthy base64Audio && ctx && analyser)
    (modify (fun s =>
       set_nextStartTimeRef (Z.max (nextStartTimeRef s) (currentTime clk)) s) ;;
     tryCatch
       (match base64Audio with
        | Some data => scheduleBuffer data
        | None => ret tt
        end)
       (fun _ => emit (ConsoleError "Audio decoding error:"))).

(** [if (message.serverContent?.interrupted) { ... }] *)
Definition interruptedBlock (message : LiveServerMessage) : Run unit :=
  when (interrupted message)
    (active <- read sourcesRef ;;
     forEach active (fun src => emit (SourceStop src)) ;;
     modify (set_sourcesRef []) ;;
     modify (set_nextStartTimeRef 0) ;;
     useTTS <- read useBrowserTTSRef ;;
     when useTTS speechSynthesisCancel).

Definition onmessage (clk : Clock) (message : LiveServerMessage) : Run unit :=
  transcriptionBlock clk message ;;
  audioBlock clk message ;;
  interruptedBlock message.

(** [source.addEventListener('ended', ...)] *)
Definition onended (source : nat) : Run unit :=
  modify (fun s => set_sourcesRef (setDelete source (sourcesRef s)) s).

(** ** The event loop *)

Inductive Event :=
| Message (clk : Clock) (message : LiveServerMessage)
| Ended (source : nat)
| ChannelError (err : ErrValue).

Definition dispatch (e : Event) : Run unit :=
  match e with
  | Message clk message => onmessage clk message
  | Ended source => onended source
  | ChannelError err => onerror err
  end.

(** The loop calls the callback and goes on with the state it leaves,
    whatever its completion: [onmessage] is an [async] function, so an
    exception that leaves it rejects the promise it returns and reaches no
    caller. *)
Definition step (s : AppState) (e : Event) : AppState := snd (dispatch e s).

Definition run (s : AppState) (events : list Event) : AppState :=
  fold_left step events s.

End Playback.

(** ** States *)

(** The state of a freshly mounted [App]. *)
Definition initialState (speech : bool) : AppState :=
  {| isConnected := false; error := None; transcripts := [];
     streamingUserText := EmptyString; streamingModelText := EmptyString;
     useBrowserTTSRef := false; targetLanguageRef := "Auto";
     audioContextRef := false; outputAnalyserRef := false;
     nextStartTimeRef := 0; sourcesRef := [];
     currentInputTransRef := EmptyString; currentOutputTransRef := EmptyString;
     currentInputLanguageRef := None; lastClientLanguageRef := "en-US";
     speechSynthesisInWindow := speech; nextNode := 0%nat; effects := [] |}.

(** What a successful [connectToGemini] followed by [onopen] leaves in the
    fields above. *)
Definition connected (s : AppState) : AppState :=
  set_isConnected true (set_outputAnalyserRef true (set_audioContextRef true
    (set_error None s))).

(** ** Vocabulary of the properties *)

(** The buffers handed to the device, in order: (start time, duration). *)
Definition scheduled (log : list Effect) : list (Z * Z) :=
  flat_map (fun e => match e with
                     | SourceStart _ startAt duration => [(startAt, duration)]
                     | _ => []
                     end) log.

(** The enqueue rule in the words of the specification:
    [t0 = max(cursor, deviceNow)], the buffer starts at [t0], and
    [cursor = t0 + duration].  A request is (device time, duration). *)
Fixpoint plan (cursor : Z) (requests : list (Z * Z)) : list (Z * Z) :=
  match requests with
  | [] => []
  | (deviceNow, duration) :: r =>
      let t0 := Z.max cursor deviceNow in
      (t0, duration) :: plan (t0 + duration) r
  end.

(** Playback of the model's audio is on: fallback speech is off and the
    audio context and the analyser exist. *)
Definition playbackOn (s : AppState) : Prop :=
  useBrowserTTSRef s = false /\ audioContextRef s = true /\ outputAnalyserRef s = true.

Section Requests.

Variable decodeAudioData : string -> option Z.

(** The buffer a message asks to enqueue, if its payload decodes. *)
Definition request (e : Event) : list (Z * Z) :=
  match e with
  | Message clk message =>
      match inlineData message with
      | Some data =>
          if Js.truthy data then
            match decodeAudioData data with
            | Some duration => [(currentTime clk, duration)]
            | None => []
            end
          else []
      | None => []
      end
  | _ => []
  end.

Definition requests (events : list Event) : list (Z * Z) := flat_map request events.

End Requests.

Definition isInterruption (e : Event) : bool :=
  match e with
  | Message _ message => interrupted message
  | _ => false
  end.

Definition noInterruption (events : list Event) : Prop :=
  Forall (fun e => isInterruption e = false) events.

(** The device clock never runs backwards: the messages' device times are
    at least [lo] and non-decreasing. *)
Fixpoint clockFrom (lo : Z) (events : list Event) : Prop :=
  match events with
  | [] => True
  | Message clk _ :: r => lo <= currentTime clk /\ clockFrom (currentTime clk) r
  | _ :: r => clockFrom lo r
  end.

(** The cursor the plan ends with. *)
Fixpoint planCursor (cursor : Z) (requests : list (Z * Z)) : Z :=
  match requests with
  | [] => cursor
  | (deviceNow, duration) :: r => planCursor (Z.max cursor deviceNow + duration) r
  end.

(** The device time of the last message, [lo] when there is none. *)
Fixpoint lastClock (lo : Z) (events : list Event) : Z :=
  match events with
  | [] => lo
  | Message clk _ :: r => lastClock (currentTime clk) r
  | _ :: r => lastClock lo r
  end.

(** Two cursors that every later enqueue clamps to the same start time. *)
Definition tracks (lo planned actual : Z) : Prop :=
  forall now, lo <= now -> Z.max actual now = Z.max planned now.

(** A tag is in the host language when its base code is [fr]. *)
Definition isHostTag (tag : string) : bool := String.eqb (baseCode tag) "fr".

(** The text a partial transcription appends ([if (text)] skips the empty
    string, which appends nothing) and the language tag it makes the handler
    store ([if (code)]). *)
Definition textOf (trans : option Transcription) : string :=
  match trans with
  | Some t => match text t with Some txt => txt | None => EmptyString end
  | None => EmptyString
  end.

Definition tagOf (trans : option Transcription) : option LangTag :=
  match trans with
  | Some t =>
      match languageCode t with
      | Some code => if tagTruthy code then Some code else None
      | None => None
      end
  | None => None
  end.

(** The language tag an event makes the handler observe. *)
Definition observedTag (e : Event) : option LangTag :=
  match e with
  | Message _ message => tagOf (inputTranscription message)
  | _ => None
  end.

(** The two buffers and the detected language as the turn-complete block
    of a message finds them, after the partial text and tag of the same
    message. *)
Definition userBuffer (message : LiveServerMessage) (s : AppState) : string :=
  currentInputTransRef s ++ textOf (inputTranscription message).

Definition modelBuffer (message : LiveServerMessage) (s : AppState) : string :=
  currentOutputTransRef s ++ textOf (outputTranscription message).

Definition detectedLanguage (message : LiveServerMessage) (s : AppState) : option LangTag :=
  match tagOf (inputTranscription message) with
  | Some t => Some t
  | None => currentInputLanguageRef s
  end.

(** [lastClientLanguageRef] after a tag was observed, as the input block
    leaves it. *)
Definition rememberClient (observed : option LangTag) (last : string) : string :=
  match observed with
  | Some (Tag c) => if Js.startsWith "fr" (Js.toLowerCase c) then last else c
  | _ => last
  end.

(** [keeps f c]: running [c] does not change the observation [f] of the
    state, whether [c] returns or throws. *)
Definition keeps {X A : Type} (f : AppState -> X) (c : Run A) : Prop :=
  forall s, f (snd (c s)) = f s.

(** An observation that none of the assignments and calls of
    [handleTranscription] and of its [catch] changes. *)
Record transcriptionFrame {X : Type} (f : AppState -> X) : Prop := {
  frame_inputTrans : forall v s, f (set_currentInputTransRef v s) = f s;
  frame_outputTrans : forall v s, f (set_currentOutputTransRef v s) = f s;
  frame_userText : forall v s, f (set_streamingUserText v s) = f s;
  frame_modelText : forall v s, f (set_streamingModelText v s) = f s;
  frame_inputLanguage : forall v s, f (set_currentInputLanguageRef v s) = f s;
  frame_lastClient : forall v s, f (set_lastClientLanguageRef v s) = f s;
  frame_transcripts : forall v s, f (set_transcripts v s) = f s;
  frame_speak : forall u l s, f (set_effects (effects s ++ [Speak u l]) s) = f s;
  frame_console : forall l s, f (set_effects (effects s ++ [ConsoleError l]) s) = f s
}.

(** What the playback scheduler reads and writes. *)
Record SchedulerView := {
  cursor : Z;
  active : list nat;
  fresh : nat;
  fallbackSpeech : bool;
  hasContext : bool;
  hasAnalyser : bool;
  hasSpeech : bool;
  buffers : list (Z * Z)
}.

Definition schedulerView (s : AppState) : SchedulerView :=
  {| cursor := nextStartTimeRef s; active := sourcesRef s; fresh := nextNode s;
     fallbackSpeech := useBrowserTTSRef s; hasContext := audioContextRef s;
     hasAnalyser := outputAnalyserRef s; hasSpeech := speechSynthesisInWindow s;
     buffers := scheduled (effects s) |}.

(** The speak-requests in a log, in order: (text, language). *)
Definition spoken (log : list Effect) : list (string * string) :=
  flat_map (fun e => match e with
                     | Speak utterance lang => [(utterance, lang)]
                     | _ => []
                     end) log.

(** What the transcript accumulator reads and writes, and the settings. *)
Record TranscriptView := {
  items : list Item.t;
  inputBuffer : string;
  outputBuffer : string;
  inputLanguage : option LangTag;
  lastClient : string;
  speakRequests : list (string * string);
  useTTS : bool;
  target : string;
  canSpeak : bool;
  connectedFlag : bool;
  shownError : option string
}.

Definition transcriptView (s : AppState) : TranscriptView :=
  {| items := transcripts s; inputBuffer := currentInputTransRef s;
     outputBuffer := currentOutputTransRef s;
     inputLanguage := currentInputLanguageRef s;
     lastClient := lastClientLanguageRef s; speakRequests := spoken (effects s);
     useTTS := useBrowserTTSRef s; target := targetLanguageRef s;
     canSpeak := speechSynthesisInWindow s;
     connectedFlag := isConnected s; shownError := error s |}.

(** ** Sample messages and a sample decoder *)

Definition emptyMessage : LiveServerMessage :=
  {| inputTranscription := None; outputTranscription := None;
     turnComplete := false; interrupted := false; inlineData := None |}.

Definition partialInput (txt : string) (code : option LangTag) : LiveServerMessage :=
  {| inputTranscription := Some {| text := Some txt; languageCode := code |};
     outputTranscription := None;
     turnComplete := false; interrupted := false; inlineData := None |}.

Definition partialOutput (txt : string) : LiveServerMessage :=
  {| inputTranscription := None;
     outputTranscription := Some {| text := Some txt; languageCode := None |};
     turnComplete := false; interrupted := false; inlineData := None |}.

Definition turnCompleteMessage : LiveServerMessage :=
  {| inputTranscription := None; outputTranscription := None;
     turnComplete := true; interrupted := false; inlineData := None |}.

Definition audioMessage (data : string) : LiveServerMessage :=
  {| inputTranscription := None; outputTranscription := None;
     turnComplete := false; interrupted := false; inlineData := Some data |}.

Definition interruptedMessage : LiveServerMessage :=
  {| inputTranscription := None; outputTranscription := None;
     turnComplete := false; interrupted := true; inlineData := None |}.

Definition at_ (now : Z) : Clock := {| currentTime := now; dateNow := 1700000000000 + now |}.

(** A message whose language tag is the number [42] and that carries
    audio. *)
Definition malformedTagMessage (data : string) : LiveServerMessage :=
  {| inputTranscription := Some {| text := Some "Moin"; languageCode := Some NotAString |};
     outputTranscription := None;
     turnComplete := false; interrupted := false; inlineData := Some data |}.

(** A connected session with fallback speech switched on in the settings. *)
Definition fallbackSession : AppState :=
  set_useBrowserTTSRef true (connected (initialState true)).

(** A decoder to run the model on: the payload is read as raw 16-bit PCM,
    one tick per sample; a payload of odd length does not decode. *)
Definition pcm16Duration (data : string) : option Z :=
  let n := String.length data in
  if (Nat.even n) then Some (Z.of_nat (Nat.div2 n)) else None.

(** ** The rest of [App]: settings, replay, connect and disconnect *)

(** The codes of [LANGUAGES] in [SettingsModal.tsx], in the order of the
    buttons. *)
Definition LANGUAGES : list string :=
  [ "Auto"; "English"; "French"; "Spanish"; "German"; "Italian"; "Chinese";
    "Japanese"; "Arabic"; "Russian"; "Portuguese"; "Dutch" ].

(** [setTargetLanguage(code)] and [setUseBrowserTTS(enabled)] with the
    effects that copy the new state into the refs. *)
Definition onLanguageChange (code : string) : Run unit :=
  modify (set_targetLanguageRef code).

Definition onTTSChange (enabled : bool) : Run unit :=
  modify (set_useBrowserTTSRef enabled).

Definition isModel (item : Item.t) : bool :=
  match Item.source item with
  | Model => true
  | User => false
  end.

(** [replayLastOutput].  An utterance whose [lang] is not assigned carries
    the empty string. *)
Definition replayLastOutput : Run unit :=
  items <- read transcripts ;;
  available <- read speechSynthesisInWindow ;;
  match find isModel (rev items) with
  | Some lastModelMessage =>
      when available
        (emit SpeechCancel ;;
         currentTarget <- read targetLanguageRef ;;
         emit (Speak (Item.text lastModelMessage)
                 match (if negb (String.eqb currentTarget "Auto")
                        then lookup currentTarget LANGUAGE_LOCALES else None) with
                 | Some locale => locale
                 | None => EmptyString
                 end))
  | None => ret tt
  end.

(** [handleSpeak] of [Transcript.tsx]. *)
Definition handleSpeak (utterance : string) : Run unit :=
  available <- read speechSynthesisInWindow ;;
  when available (emit SpeechCancel ;; emit (Speak utterance EmptyString)).

(** [displayItems] of [Transcript.tsx]: the history, then the streaming
    entries. *)
Definition displayItems (clk : Clock) (history : list Item.t)
    (streamingUser streamingModel : string) (streamingUserLanguage : option LangTag)
  : list Item.t :=
  (history
   ++ (if Js.truthy streamingUser
       then [Item.mk "streaming-user" User streamingUser streamingUserLanguage false
               (dateNow clk)]
       else [])
   ++ (if Js.truthy streamingModel
       then [Item.mk "streaming-model" Model streamingModel None false (dateNow clk)]
       else []))%list.

(** [item.language && item.language.split('-')[0]], the badge of an entry:
    a language that is truthy and not a string has no [split], and the
    render throws. *)
Definition badgeRenders (item : Item.t) : bool :=
  match Item.language item with
  | Some NotAString => false
  | _ => true
  end.

(** [Transcript]: the entries it shows, or [None] when rendering one of them
    throws.  [App] has no error boundary: React then unmounts it. *)
Definition Transcript (clk : Clock) (history : list Item.t)
    (streamingUser streamingModel : string) (streamingUserLanguage : option LangTag)
  : option (list Item.t) :=
  let shown := displayItems clk history streamingUser streamingModel streamingUserLanguage in
  if forallb badgeRenders shown then Some shown else None.

(** What [Transcript] shows when [App] renders in state [s]. *)
Definition rendered (clk : Clock) (s : AppState) : option (list Item.t) :=
  Transcript clk (transcripts s) (streamingUserText s) (streamingModelText s)
    (currentInputLanguageRef s).

(** [item.source === 'model' && item.isFinal]: the entry gets the
    read-aloud button. *)
Definition hasSpeakButton (item : Item.t) : bool := isModel item && Item.isFinal item.

(** [disconnect], on the fields of [AppState]: the audio context is closed
    and its ref nulled, the analyser ref is left as it is, the buffers, the
    cursor and the active set are reset, and pending fallback speech is
    cancelled. *)
Definition disconnect : Run unit :=
  modify (set_audioContextRef false) ;;
  modify (set_isConnected false) ;;
  modify (set_currentInputTransRef EmptyString) ;;
  modify (set_currentOutputTransRef EmptyString) ;;
  modify (set_currentInputLanguageRef None) ;;
  modify (set_streamingUserText EmptyString) ;;
  modify (set_streamingModelText EmptyString) ;;
  modify (set_nextStartTimeRef 0) ;;
  modify (set_sourcesRef []) ;;
  useTTS <- read useBrowserTTSRef ;;
  when useTTS speechSynthesisCancel.

(** How far [connectToGemini] gets: creating the audio contexts throws,
    resuming them throws, [getUserMedia] throws, the session is requested
    but [onopen] has not run, or [onopen] has run. *)
Inductive ConnectOutcome :=
| ContextFails
| ResumeFails
| MicrophoneFails
| Pending
| Opens.

Definition microphoneMessage : string :=
  "Impossible d'accéder au microphone ou de se connecter.".

(** The [catch] of [connectToGemini]. *)
Definition connectFailed : Run unit :=
  emit (ConsoleError "Connection failed") ;;
  modify (set_error (Some microphoneMessage)) ;;
  modify (set_isConnected false).

(** [connectToGemini] followed, for [Opens], by [onopen], on the fields of
    [AppState]. *)
Definition connectToGemini (outcome : ConnectOutcome) : Run unit :=
  modify (set_error None) ;;
  match outcome with
  | ContextFails => connectFailed
  | _ =>
      modify (set_audioContextRef true) ;;
      match outcome with
      | ResumeFails => connectFailed
      | _ =>
          modify (set_outputAnalyserRef true) ;;
          match outcome with
          | MicrophoneFails => connectFailed
          | Opens => modify (set_isConnected true)
          | _ => ret tt
          end
      end
  end.

(** ** Sessions: what the user and the remote side can do *)

Section Session.

Variable decodeAudioData : string -> option Z.

Inductive Action :=
| Remote (e : Event)
| SelectLanguage (button : nat)
| SwitchTTS
| Replay
| SpeakItem (index : nat)
| ClickConnect (outcome : ConnectOutcome)
| SessionClosed
| DismissError.

(** The handlers behind the actions: a callback of the session, the n-th
    language button, the speech toggle ([onTTSChange(!useBrowserTTS)]), the
    replay button, the read-aloud button of the n-th history entry, the
    main button ([isConnected ? disconnect : connectToGemini]), the
    [onclose] callback of the session and the button of the error toast.
    The settings button, the voice buttons and the mute button are left
    out: they write [isSettingsOpen], [selectedVoice], [isOutputMuted] and
    the gain only, none of which is a field of [AppState]. *)
Definition perform (a : Action) : Run unit :=
  match a with
  | Remote e => dispatch decodeAudioData e
  | SelectLanguage button =>
      match nth_error LANGUAGES button with
      | Some code => onLanguageChange code
      | None => ret tt
      end
  | SwitchTTS => (enabled <- read useBrowserTTSRef ;; onTTSChange (negb enabled))
  | Replay => replayLastOutput
  | SpeakItem index =>
      history <- read transcripts ;;
      match nth_error history index with
      | Some item => when (hasSpeakButton item) (handleSpeak (Item.text item))
      | None => ret tt
      end
  | ClickConnect outcome =>
      isOpen <- read isConnected ;;
      if isOpen then disconnect else connectToGemini outcome
  | SessionClosed => modify (set_isConnected false)
  | DismissError => modify (set_error None)
  end.

Definition act (s : AppState) (a : Action) : AppState := snd (perform a s).

Definition session (s : AppState) (actions : list Action) : AppState :=
  fold_left act actions s.

End Session.

(** ** Invariants of a session *)

(** [preserves P c]: if [P] holds before [c] it holds after, whether [c]
    returns or throws. *)
Definition preserves {A : Type} (P : AppState -> Prop) (c : Run A) : Prop :=
  forall s, P s -> P (snd (c s)).

(** An observation that none of the assignments and calls of the audio and
    interruption blocks of [onmessage] changes. *)
Record playbackFrame {X : Type} (f : AppState -> X) : Prop := {
  pframe_cursor : forall v s, f (set_nextStartTimeRef v s) = f s;
  pframe_node : forall v s, f (set_nextNode v s) = f s;
  pframe_sources : forall v s, f (set_sourcesRef v s) = f s;
  pframe_effect : forall e s,
    spoken [e] = [] -> f (set_effects (effects s ++ [e]) s) = f s
}.

(** The settings and the connection. *)
Definition settingsView (s : AppState)
  : bool * string * bool * bool * bool * bool :=
  (useBrowserTTSRef s, targetLanguageRef s, audioContextRef s, outputAnalyserRef s,
   speechSynthesisInWindow s, isConnected s).

(** The buffers with the streaming texts. *)
Definition bufferView (s : AppState) : string * string * string * string :=
  (streamingUserText s, currentInputTransRef s, streamingModelText s,
   currentOutputTransRef s).


(** The streaming texts shown are the accumulation buffers. *)
Definition mirrored (s : AppState) : Prop :=
  streamingUserText s = currentInputTransRef s /\
  streamingModelText s = currentOutputTransRef s.

(** A history entry is final and its text is non-empty and trimmed. *)
Definition finalized (item : Item.t) : Prop :=
  Item.isFinal item = true /\ Js.truthy (Item.text item) = true /\
  Js.trim (Item.text item) = Item.text item.

(** [c] only appends finalized entries to the history. *)
Definition extendsHistory {A : Type} (c : Run A) : Prop :=
  forall s, exists rest,
    transcripts (snd (c s)) = (transcripts s ++ rest)%list /\ Forall finalized rest.

(** The texts that the messages among [events] append on one side, in
    arrival order. *)
Fixpoint partialTexts (side : LiveServerMessage -> option Transcription)
    (events : list Event) : string :=
  match events with
  | [] => EmptyString
  | Message _ message :: r => textOf (side message) ++ partialTexts side r
  | _ :: r => partialTexts side r
  end.

(** A message that only carries partial text: no turn-complete, and a
    language tag that is a string when there is one. *)
Definition isPartial (e : Event) : Prop :=
  match e with
  | Message _ message =>
      turnComplete message = false /\
      tagOf (inputTranscription message) <> Some NotAString
  | _ => True
  end.

(** The audio commands of a log. *)
Definition started (log : list Effect) : list nat :=
  flat_map (fun e => match e with SourceStart node _ _ => [node] | _ => [] end) log.

Definition stopped (log : list Effect) : list nat :=
  flat_map (fun e => match e with SourceStop node => [node] | _ => [] end) log.

(** The active set holds each source once; each was started and not
    stopped; every source named in the log was allocated; no source was
    started or stopped twice. *)
Definition activeSetSound (s : AppState) : Prop :=
  NoDup (sourcesRef s) /\
  (forall node, In node (sourcesRef s) ->
     In node (started (effects s)) /\ ~ In node (stopped (effects s))) /\
  (forall node, In node (started (effects s)) -> (node < nextNode s)%nat) /\
  incl (stopped (effects s)) (started (effects s)) /\
  NoDup (started (effects s)) /\ NoDup (stopped (effects s)).

(** The locales a speak-request can carry. *)
Definition locales : list string := map snd LANGUAGE_LOCALES.

(** The property names that every object literal inherits from
    [Object.prototype]: reading one of them from [LANGUAGE_LOCALES] or from
    the table of [mapLanguageCodeToLocale] gives a value that is not a
    string, where [lookup] gives nothing. *)
Definition objectPrototypeKeys : list string :=
  [ "constructor"; "__defineGetter__"; "__defineSetter__"; "hasOwnProperty";
    "__lookupGetter__"; "__lookupSetter__"; "isPrototypeOf"; "propertyIsEnumerable";
    "toString"; "valueOf"; "__proto__"; "toLocaleString" ].

Definition inheritedKey (key : string) : bool :=
  existsb (String.eqb key) objectPrototypeKeys.

(** A tag whose base code is looked up among the entries of the table
    only. *)
Definition plainTag (tag : string) : Prop := inheritedKey (baseCode tag) = false.

(** The tag an event delivers, if it delivers a string, is plain. *)
Definition plainTagged (e : Event) : Prop :=
  forall c, observedTag e = Some (Tag c) -> plainTag c.

(** An event inside a turn that delivers no language tag: not a
    turn-complete, and no truthy [languageCode]. *)
Definition tagless (e : Event) : Prop :=
  match e with
  | Message _ message =>
      turnComplete message = false /\ tagOf (inputTranscription message) = None
  | _ => True
  end.

(** An event that delivers no string tag (no tag, or one that is not a
    string). *)
Definition noStringTag (e : Event) : Prop :=
  forall c, observedTag e <> Some (Tag c).

(** Every language tag the action delivers is a string. *)
Definition stringTagged (a : Action) : Prop :=
  match a with
  | Remote e => observedTag e <> Some NotAString
  | _ => True
  end.

(** ** Checks of the primitives on concrete inputs *)

Example trim_ex : Js.trim "  Bon jour
 " = "Bon jour".
Proof. reflexivity. Qed.

Example lower_ex : Js.toLowerCase "FR-fr" = "fr-fr".
Proof. reflexivity. Qed.

Example split_ex : Js.splitHead "-" "es-MX" = "es" /\ Js.splitHead "-" "frr" = "frr".
Proof. split; reflexivity. Qed.

Example includes_ex :
  Js.includes "Internal error" "ws: Internal error encountered" = true /\
  Js.includes "Invalid argument" "Internal error" = false.
Proof. split; reflexivity. Qed.

Example num_ex : Js.numberToString 1700 ++ "-user" = "1700-user".
Proof. reflexivity. Qed.

(** ** What a callback leaves alone *)

Section Keeps.

Context {X : Type} (f : AppState -> X).

#[local] Abbreviation keeps := (keeps f).

Lemma keeps_ret {A} (a : A) : keeps (ret a).
Proof. intros s. reflexivity. Qed.

Lemma keeps_throw {A} e : keeps (@throw A e).
Proof. intros s. reflexivity. Qed.

Lemma keeps_read {A} (g : AppState -> A) : keeps (read g).
Proof. intros s. reflexivity. Qed.

Lemma keeps_modify g : (forall s, f (g s) = f s) -> keeps (modify g).
Proof. intros H s. apply H. Qed.

Lemma keeps_bind {A B} (c : Run A) (k : A -> Run B) :
  keeps c -> (forall a, keeps (k a)) -> keeps (bind c k).
Proof.
  intros Hc Hk s. unfold bind.
  specialize (Hc s). destruct (c s) as [[a|e] s']; simpl in *.
  - rewrite (Hk a s'). exact Hc.
  - exact Hc.
Qed.

Lemma keeps_tryCatch c h :
  keeps c -> (forall e, keeps (h e)) -> keeps (tryCatch c h).
Proof.
  intros Hc Hh s. unfold tryCatch.
  specialize (Hc s). destruct (c s) as [[a|e] s']; simpl in *.
  - exact Hc.
  - rewrite (Hh e s'). exact Hc.
Qed.

Lemma keeps_when b c : keeps c -> keeps (when b c).
Proof. intros Hc. destruct b; [exact Hc | apply keeps_ret]. Qed.

Lemma keeps_forEach {A} (xs : list A) k :
  (forall x, keeps (k x)) -> keeps (forEach xs k).
Proof.
  intros Hk. induction xs as [|x r IH]; simpl.
  - apply keeps_ret.
  - apply keeps_bind; [apply Hk | intros _; exact IH].
Qed.

Hypothesis frame : transcriptionFrame f.

Lemma speakText_keeps u b : keeps (speakText u b).
Proof.
  unfold speakText. apply keeps_bind; [apply keeps_read | intros available].
  destruct (negb available); [apply keeps_ret |].
  apply keeps_bind; [apply keeps_read | intros currentTarget].
  apply keeps_bind; [apply keeps_read | intros lastClient].
  apply keeps_modify. intros s. apply (frame_speak f frame).
Qed.

Ltac keeps_step :=
  first
    [ apply speakText_keeps
    | apply keeps_ret | apply keeps_throw | apply keeps_read
    | apply keeps_when
    | apply keeps_bind; [| intros ?]
    | apply keeps_modify; intros ?;
      first [ apply (frame_inputTrans f frame) | apply (frame_outputTrans f frame)
            | apply (frame_userText f frame) | apply (frame_modelText f frame)
            | apply (frame_inputLanguage f frame) | apply (frame_lastClient f frame)
            | apply (frame_transcripts f frame) | apply (frame_console f frame) ] ].

Lemma inputTranscriptionBlock_keeps o : keeps (inputTranscriptionBlock o).
Proof.
  unfold inputTranscriptionBlock. destruct o as [trans|]; [| apply keeps_ret].
  apply keeps_bind; [| intros _].
  - destruct (text trans); repeat keeps_step.
  - destruct (languageCode trans) as [[c|]|]; repeat keeps_step.
Qed.

Lemma outputTranscriptionBlock_keeps o : keeps (outputTranscriptionBlock o).
Proof.
  unfold outputTranscriptionBlock. destruct o as [trans|]; [| apply keeps_ret].
  destruct (text trans); repeat keeps_step.
Qed.

Lemma turnCompleteBlock_keeps clk : keeps (turnCompleteBlock clk).
Proof.
  unfold turnCompleteBlock.
  do 3 (apply keeps_bind; [apply keeps_read | intros ?]).
  apply keeps_bind; [unfold tagToLowerCase; destruct a1; keeps_step | intros lowered].
  repeat keeps_step.
Qed.

Lemma handleTranscription_keeps clk message : keeps (handleTranscription clk message).
Proof.
  unfold handleTranscription.
  apply keeps_bind; [| intros _; apply keeps_bind; [| intros _]].
  - apply inputTranscriptionBlock_keeps.
  - apply outputTranscriptionBlock_keeps.
  - apply keeps_when, turnCompleteBlock_keeps.
Qed.

Lemma transcriptionBlock_keeps clk message : keeps (transcriptionBlock clk message).
Proof.
  unfold transcriptionBlock. apply keeps_tryCatch; [apply handleTranscription_keeps |].
  intros _. apply keeps_modify. intros s. apply (frame_console f frame).
Qed.

End Keeps.

(** ** The plan *)

Lemma plan_app c l1 l2 : plan c (l1 ++ l2) = (plan c l1 ++ plan (planCursor c l1) l2)%list.
Proof.
  revert c. induction l1 as [|[now d] r IH]; intros c; simpl; [reflexivity |].
  rewrite IH. reflexivity.
Qed.

Lemma planCursor_app c l1 l2 : planCursor c (l1 ++ l2) = planCursor (planCursor c l1) l2.
Proof.
  revert c. induction l1 as [|[now d] r IH]; intros c; simpl; [reflexivity | apply IH].
Qed.

(** Each buffer of a plan starts at the end of the one before it or at the
    device time of its own request, whichever is later. *)
Lemma plan_consecutive reqs : forall c k t d t' d' now d'',
  nth_error (plan c reqs) k = Some (t, d) ->
  nth_error (plan c reqs) (S k) = Some (t', d') ->
  nth_error reqs (S k) = Some (now, d'') ->
  t' = Z.max (t + d) now /\ d' = d''.
Proof.
  induction reqs as [|[n0 d0] r IH]; intros c k t d t' d' now d'' H1 H2 H3.
  - destruct k; discriminate.
  - destruct k as [|k].
    + simpl in H1. injection H1 as <- <-.
      destruct r as [|[n1 d1] r']; [discriminate |].
      simpl in H2, H3. injection H2 as <- <-. injection H3 as <- <-.
      split; reflexivity.
    + simpl in H1, H2, H3. eapply IH; eassumption.
Qed.

(** No buffer of a plan starts before the cursor the plan starts from. *)
Lemma plan_after_cursor reqs : forall c k t d,
  Forall (fun r => 0 <= snd r) reqs ->
  nth_error (plan c reqs) k = Some (t, d) -> c <= t.
Proof.
  induction reqs as [|[n0 d0] r IH]; intros c k t d Hpos H.
  - destruct k; discriminate.
  - inversion Hpos as [|? ? Hd Hr]; subst. simpl in Hd. destruct k as [|k].
    + simpl in H. injection H as <- <-. lia.
    + simpl in H. specialize (IH _ _ _ _ Hr H). lia.
Qed.

(** The buffers of a plan do not overlap. *)
Lemma plan_no_overlap reqs : forall c i j ti di tj dj,
  Forall (fun r => 0 <= snd r) reqs ->
  (i < j)%nat ->
  nth_error (plan c reqs) i = Some (ti, di) ->
  nth_error (plan c reqs) j = Some (tj, dj) ->
  ti + di <= tj.
Proof.
  induction reqs as [|[n0 d0] r IH]; intros c i j ti di tj dj Hpos Hij Hi Hj.
  - destruct i; discriminate.
  - inversion Hpos as [|? ? Hd Hr]; subst. destruct j as [|j]; [lia |].
    destruct i as [|i].
    + simpl in Hi, Hj. injection Hi as <- <-.
      apply (plan_after_cursor _ _ _ _ _ Hr Hj).
    + simpl in Hi, Hj. eapply (IH _ i j); [exact Hr | lia | eassumption | eassumption].
Qed.

(** ** The playback scheduler *)

Lemma scheduled_app l1 l2 : scheduled (l1 ++ l2) = (scheduled l1 ++ scheduled l2)%list.
Proof. unfold scheduled. apply flat_map_app. Qed.

Lemma schedulerView_frame : transcriptionFrame schedulerView.
Proof.
  split; intros; unfold schedulerView; cbn; try reflexivity;
    rewrite scheduled_app, app_nil_r; reflexivity.
Qed.

Lemma forEach_emit {A} (g : A -> Effect) (xs : list A) (s : AppState) :
  forEach xs (fun x => emit (g x)) s = (Normal tt, set_effects (effects s ++ map g xs) s).
Proof.
  revert s. induction xs as [|x r IH]; intros s; simpl.
  - rewrite app_nil_r. destruct s; reflexivity.
  - unfold bind, emit, modify at 1. rewrite IH. cbn.
    rewrite <- app_assoc. reflexivity.
Qed.

Section Scheduler.

Variable decodeAudioData : string -> option Z.


(** The audio block does nothing when playback is off or the message has no
    audio payload. *)
Lemma audioBlock_skip clk message s :
  negb (useBrowserTTSRef s) && optTruthy (inlineData message)
    && audioContextRef s && outputAnalyserRef s = false ->
  audioBlock decodeAudioData clk message s = (Normal tt, s).
Proof.
  intros H. unfold audioBlock, bind, read. cbn. rewrite H. reflexivity.
Qed.

(** A payload that decodes is started at [max(cursor, now)] and the cursor
    moves to the end of the buffer. *)
Lemma audioBlock_enqueue clk message s data duration :
  playbackOn s ->
  inlineData message = Some data -> Js.truthy data = true ->
  decodeAudioData data = Some duration ->
  let t0 := Z.max (nextStartTimeRef s) (currentTime clk) in
  let s' := snd (audioBlock decodeAudioData clk message s) in
  fst (audioBlock decodeAudioData clk message s) = Normal tt /\
  nextStartTimeRef s' = t0 + duration /\
  effects s' = (effects s ++ [SourceStart (nextNode s) t0 duration])%list /\
  sourcesRef s' = setAdd (nextNode s) (sourcesRef s) /\
  nextNode s' = S (nextNode s) /\
  useBrowserTTSRef s' = useBrowserTTSRef s /\
  audioContextRef s' = audioContextRef s /\
  outputAnalyserRef s' = outputAnalyserRef s /\
  speechSynthesisInWindow s' = speechSynthesisInWindow s.
Proof.
  intros (Htts & Hctx & Han) Hdata Htruthy Hdec.
  unfold audioBlock, bind, read. cbn.
  rewrite Htts, Hctx, Han, Hdata. cbn. rewrite Htruthy. cbn.
  unfold tryCatch, scheduleBuffer. rewrite Hdec. cbn.
  repeat split; first [reflexivity | assumption].
Qed.

(** A payload that does not decode leaves the cursor clamped to the device
    time and schedules nothing. *)
Lemma audioBlock_decode_fails clk message s data :
  playbackOn s ->
  inlineData message = Some data -> Js.truthy data = true ->
  decodeAudioData data = None ->
  let s' := snd (audioBlock decodeAudioData clk message s) in
  fst (audioBlock decodeAudioData clk message s) = Normal tt /\
  nextStartTimeRef s' = Z.max (nextStartTimeRef s) (currentTime clk) /\
  effects s' = (effects s ++ [ConsoleError "Audio decoding error:"])%list /\
  sourcesRef s' = sourcesRef s /\
  nextNode s' = nextNode s /\
  useBrowserTTSRef s' = useBrowserTTSRef s /\
  audioContextRef s' = audioContextRef s /\
  outputAnalyserRef s' = outputAnalyserRef s /\
  speechSynthesisInWindow s' = speechSynthesisInWindow s.
Proof.
  intros (Htts & Hctx & Han) Hdata Htruthy Hdec.
  unfold audioBlock, bind, read. cbn.
  rewrite Htts, Hctx, Han, Hdata. cbn. rewrite Htruthy. cbn.
  unfold tryCatch, scheduleBuffer. rewrite Hdec. cbn.
  repeat split; first [reflexivity | assumption].
Qed.

Lemma interruptedBlock_skip message s :
  interrupted message = false -> interruptedBlock message s = (Normal tt, s).
Proof. intros H. unfold interruptedBlock. rewrite H. reflexivity. Qed.

Lemma interruptedBlock_eq message s :
  interrupted message = true ->
  interruptedBlock message s =
  when (useBrowserTTSRef s) speechSynthesisCancel
    (set_nextStartTimeRef 0
       (set_sourcesRef [] (set_effects (effects s ++ map SourceStop (sourcesRef s)) s))).
Proof.
  intros H. unfold interruptedBlock. rewrite H. cbn [when].
  unfold bind, read. rewrite forEach_emit. reflexivity.
Qed.

Lemma cancel_when b s :
  exists tail, scheduled tail = [] /\
    snd (when b speechSynthesisCancel s) = set_effects (effects s ++ tail) s.
Proof.
  destruct b; cbn [when].
  - unfold speechSynthesisCancel, bind, read.
    destruct (speechSynthesisInWindow s) eqn:Hsp.
    + exists [SpeechCancel]. split; reflexivity.
    + exists []. split; [reflexivity |]. rewrite app_nil_r. destruct s; reflexivity.
  - exists []. split; [reflexivity |]. rewrite app_nil_r. destruct s; reflexivity.
Qed.

(** The flush: every active source is stopped, the set is cleared and the
    cursor goes back to 0. *)
Lemma interruptedBlock_flush message s :
  interrupted message = true ->
  let s' := snd (interruptedBlock message s) in
  nextStartTimeRef s' = 0 /\
  sourcesRef s' = [] /\
  (exists tail, effects s' = (effects s ++ map SourceStop (sourcesRef s) ++ tail)%list /\
                scheduled tail = []) /\
  nextNode s' = nextNode s /\
  useBrowserTTSRef s' = useBrowserTTSRef s /\
  audioContextRef s' = audioContextRef s /\
  outputAnalyserRef s' = outputAnalyserRef s /\
  speechSynthesisInWindow s' = speechSynthesisInWindow s.
Proof.
  intros H. cbv zeta. rewrite (interruptedBlock_eq _ _ H).
  match goal with
  | |- context [snd (when ?b speechSynthesisCancel ?s1)] =>
      destruct (cancel_when b s1) as (tail & Htail & ->)
  end.
  cbn. split; [reflexivity|]. split; [reflexivity|].
  split; [exists tail; rewrite <- app_assoc; split; [reflexivity | exact Htail]|].
  repeat split.
Qed.

(** Neither guarded block lets an exception out. *)
Lemma transcriptionBlock_normal clk message s :
  fst (transcriptionBlock clk message s) = Normal tt.
Proof.
  unfold transcriptionBlock, tryCatch.
  destruct (handleTranscription clk message s) as [[[]|e] s']; reflexivity.
Qed.

Lemma audioBlock_normal clk message s :
  fst (audioBlock decodeAudioData clk message s) = Normal tt.
Proof.
  unfold audioBlock, bind, read. cbn.
  destruct (negb (useBrowserTTSRef s) && optTruthy (inlineData message)
            && audioContextRef s && outputAnalyserRef s); cbn; [| reflexivity].
  unfold tryCatch. destruct (inlineData message) as [data|]; [| reflexivity].
  unfold scheduleBuffer. destruct (decodeAudioData data); reflexivity.
Qed.

Lemma onmessage_blocks clk message s :
  onmessage decodeAudioData clk message s =
  interruptedBlock message
    (snd (audioBlock decodeAudioData clk message (snd (transcriptionBlock clk message s)))).
Proof.
  unfold onmessage, bind.
  pose proof (transcriptionBlock_normal clk message s) as H1.
  destruct (transcriptionBlock clk message s) as [c1 s1]. cbn in H1. subst c1.
  cbn [snd].
  pose proof (audioBlock_normal clk message s1) as H2.
  destruct (audioBlock decodeAudioData clk message s1) as [c2 s2]. cbn in H2. subst c2.
  reflexivity.
Qed.

(** The audio block, by cases on the guard. *)
Lemma audioBlock_guard message s :
  negb (useBrowserTTSRef s) && optTruthy (inlineData message)
    && audioContextRef s && outputAnalyserRef s = true ->
  playbackOn s /\ exists data, inlineData message = Some data /\ Js.truthy data = true.
Proof.
  intros H. apply andb_prop in H as [H Han]. apply andb_prop in H as [H Hctx].
  apply andb_prop in H as [Htts Hdata]. apply negb_true_iff in Htts.
  split; [repeat split; assumption |].
  destruct (inlineData message) as [data|]; [| discriminate].
  exists data. split; [reflexivity | exact Hdata].
Qed.

Lemma playbackOn_view s s' : schedulerView s' = schedulerView s -> playbackOn s -> playbackOn s'.
Proof.
  intros Hv (H1 & H2 & H3). unfold schedulerView in Hv. injection Hv as _ _ _ E1 E2 E3 _ _.
  repeat split; congruence.
Qed.

(** The transcription and audio blocks of one message against the plan. *)
Lemma audio_step clk message s lo c :
  playbackOn s -> tracks lo c (nextStartTimeRef s) -> lo <= currentTime clk ->
  let e := Message clk message in
  let s2 := snd (audioBlock decodeAudioData clk message (snd (transcriptionBlock clk message s))) in
  tracks (currentTime clk) (planCursor c (request decodeAudioData e)) (nextStartTimeRef s2) /\
  scheduled (effects s2) = (scheduled (effects s) ++ plan c (request decodeAudioData e))%list /\
  playbackOn s2.
Proof.
  intros Hon Htr Hlo e s2. subst e s2.
  pose proof (transcriptionBlock_keeps schedulerView schedulerView_frame clk message s) as Hv.
  set (s1 := snd (transcriptionBlock clk message s)) in *.
  assert (Hon1 : playbackOn s1) by (eapply playbackOn_view; eassumption).
  assert (Hc : nextStartTimeRef s1 = nextStartTimeRef s)
    by (unfold schedulerView in Hv; congruence).
  assert (Hb : scheduled (effects s1) = scheduled (effects s))
    by (unfold schedulerView in Hv; congruence).
  pose proof (Htr _ Hlo) as Hnow.
  unfold request.
  destruct (negb (useBrowserTTSRef s1) && optTruthy (inlineData message)
            && audioContextRef s1 && outputAnalyserRef s1) eqn:Hg.
  - destruct (audioBlock_guard _ _ Hg) as (_ & data & Hdata & Htruthy).
    rewrite Hdata, Htruthy.
    destruct (decodeAudioData data) as [d|] eqn:Hdec.
    + destruct (audioBlock_enqueue clk message s1 data d Hon1 Hdata Htruthy Hdec)
        as (_ & Hcur & Heff & _ & _ & H1 & H2 & H3 & _).
      cbv zeta in *.
      set (s2 := snd (audioBlock decodeAudioData clk message s1)) in *. clearbody s2.
      rewrite Heff, scheduled_app, Hb, Hcur, Hc. cbn.
      rewrite Hnow. split; [intros now _; reflexivity |].
      split; [reflexivity |]. unfold playbackOn in *. destruct Hon1 as (? & ? & ?).
      repeat split; congruence.
    + destruct (audioBlock_decode_fails clk message s1 data Hon1 Hdata Htruthy Hdec)
        as (_ & Hcur & Heff & _ & _ & H1 & H2 & H3 & _).
      cbv zeta in *.
      set (s2 := snd (audioBlock decodeAudioData clk message s1)) in *. clearbody s2.
      rewrite Heff, scheduled_app, Hb, Hcur, Hc. cbn.
      split; [| split; [rewrite app_nil_r; reflexivity |]].
      * intros now Hle. specialize (Htr now). lia.
      * unfold playbackOn in *. destruct Hon1 as (? & ? & ?). repeat split; congruence.
  - rewrite (audioBlock_skip clk _ _ Hg). cbn [snd]. rewrite Hb, Hc.
    assert (Hreq : match inlineData message with
                   | Some data => if Js.truthy data
                                  then match decodeAudioData data with
                                       | Some duration => [(currentTime clk, duration)]
                                       | None => []
                                       end
                                  else []
                   | None => []
                   end = []).
    { destruct Hon1 as (Ht & Hx & Ha). rewrite Ht, Hx, Ha in Hg. cbn in Hg.
      rewrite !andb_true_r in Hg.
      destruct (inlineData message) as [data|]; [| reflexivity].
      cbn in Hg. rewrite Hg. reflexivity. }
    rewrite Hreq. cbn. rewrite app_nil_r.
    split; [| split; [reflexivity | exact Hon1]].
    intros now Hle. apply Htr. lia.
Qed.

Lemma onended_view source s :
  let s' := step decodeAudioData s (Ended source) in
  nextStartTimeRef s' = nextStartTimeRef s /\ effects s' = effects s /\
  (playbackOn s -> playbackOn s').
Proof. unfold playbackOn. cbn. repeat split; try reflexivity; tauto. Qed.

Lemma onerror_view err s :
  let s' := step decodeAudioData s (ChannelError err) in
  nextStartTimeRef s' = nextStartTimeRef s /\
  scheduled (effects s') = scheduled (effects s) /\
  (playbackOn s -> playbackOn s').
Proof.
  unfold playbackOn, step, dispatch, onerror, bind, emit, modify. cbn.
  destruct err as [message|]; cbn.
  - destruct (Js.includes "Invalid argument" message); cbn;
      [| destruct (Js.includes "Internal error" message); cbn];
      rewrite ?scheduled_app; cbn; rewrite ?app_nil_r;
      repeat split; try reflexivity; tauto.
  - rewrite scheduled_app; cbn; rewrite app_nil_r.
    repeat split; try reflexivity; tauto.
Qed.

Lemma step_message_quiet clk message s :
  interrupted message = false ->
  step decodeAudioData s (Message clk message) =
  snd (audioBlock decodeAudioData clk message (snd (transcriptionBlock clk message s))).
Proof.
  intros H. unfold step, dispatch. rewrite onmessage_blocks.
  rewrite (interruptedBlock_skip _ _ H). reflexivity.
Qed.

(** One event without interruption against the plan. *)
Lemma step_plan e s lo c :
  isInterruption e = false -> playbackOn s ->
  tracks lo c (nextStartTimeRef s) -> clockFrom lo [e] ->
  let s' := step decodeAudioData s e in
  tracks (lastClock lo [e]) (planCursor c (request decodeAudioData e)) (nextStartTimeRef s') /\
  scheduled (effects s') = (scheduled (effects s) ++ plan c (request decodeAudioData e))%list /\
  playbackOn s'.
Proof.
  intros Hint Hon Htr Hclk. destruct e as [clk message | source | err].
  - cbn in Hint, Hclk. destruct Hclk as [Hlo _].
    cbv zeta. rewrite (step_message_quiet _ _ _ Hint).
    cbn [lastClock]. exact (audio_step clk message s lo c Hon Htr Hlo).
  - destruct (onended_view source s) as (Hc & He & Hp). cbv zeta in *.
    rewrite Hc, He. cbn. rewrite app_nil_r. auto.
  - destruct (onerror_view err s) as (Hc & He & Hp). cbv zeta in *.
    rewrite Hc, He. cbn. rewrite app_nil_r. auto.
Qed.

Lemma clockFrom_cons lo e r :
  clockFrom lo (e :: r) <-> clockFrom lo [e] /\ clockFrom (lastClock lo [e]) r.
Proof. destruct e; cbn; tauto. Qed.

Lemma lastClock_cons lo e r : lastClock lo (e :: r) = lastClock (lastClock lo [e]) r.
Proof. destruct e; reflexivity. Qed.

(** A run without interruption against the plan. *)
Lemma run_plan events : forall s lo c,
  noInterruption events -> playbackOn s ->
  tracks lo c (nextStartTimeRef s) -> clockFrom lo events ->
  let s' := run decodeAudioData s events in
  tracks (lastClock lo events) (planCursor c (requests decodeAudioData events))
    (nextStartTimeRef s') /\
  scheduled (effects s') =
    (scheduled (effects s) ++ plan c (requests decodeAudioData events))%list /\
  playbackOn s'.
Proof.
  induction events as [|e r IH]; intros s lo c Hint Hon Htr Hclk.
  - cbn. rewrite app_nil_r. auto.
  - inversion Hint as [|? ? He Hr]; subst.
    apply clockFrom_cons in Hclk as [Hclk1 Hclk2].
    destruct (step_plan e s lo c He Hon Htr Hclk1) as (Htr1 & Hs1 & Hon1).
    cbv zeta in *.
    destruct (IH _ _ _ Hr Hon1 Htr1 Hclk2) as (Htr2 & Hs2 & Hon2).
    change (run decodeAudioData s (e :: r))
      with (run decodeAudioData (step decodeAudioData s e) r).
    change (requests decodeAudioData (e :: r))
      with (request decodeAudioData e ++ requests decodeAudioData r)%list.
    rewrite lastClock_cons, planCursor_app, plan_app, Hs2, Hs1, <- app_assoc.
    auto.
Qed.

Lemma requests_nonneg events :
  (forall data d, decodeAudioData data = Some d -> 0 <= d) ->
  Forall (fun r => 0 <= snd r) (requests decodeAudioData events).
Proof.
  intros Hpos. induction events as [|e r IH]; [constructor |].
  change (requests decodeAudioData (e :: r))
    with (request decodeAudioData e ++ requests decodeAudioData r)%list.
  apply Forall_app. split; [| exact IH].
  destruct e as [clk message| |]; cbn; try constructor.
  destruct (inlineData message) as [data|]; [| constructor].
  destruct (Js.truthy data); [| constructor].
  destruct (decodeAudioData data) as [d|] eqn:Hd; constructor; [| constructor].
  cbn. eapply Hpos; eassumption.
Qed.

Lemma clockFrom_app l1 : forall lo l2,
  clockFrom lo (l1 ++ l2) <-> clockFrom lo l1 /\ clockFrom (lastClock lo l1) l2.
Proof.
  induction l1 as [|e r IH]; intros lo l2; [cbn; tauto |].
  destruct e; cbn; rewrite IH; tauto.
Qed.

Lemma clockFrom_lastClock l : forall lo, clockFrom lo l -> lo <= lastClock lo l.
Proof.
  induction l as [|e r IH]; intros lo H; [cbn; lia |].
  destruct e; cbn in *; [| apply IH; assumption | apply IH; assumption].
  destruct H as [H1 H2]. specialize (IH _ H2). lia.
Qed.

Lemma setAdd_incl x l y : In y l -> In y (setAdd x l).
Proof.
  intros H. unfold setAdd. destruct (existsb (Nat.eqb x) l); [exact H |].
  apply in_or_app. left. exact H.
Qed.

(** The audio block never drops a source and, as durations are not
    negative, never lowers the cursor. *)
Lemma audioBlock_sources clk message s src :
  In src (sourcesRef s) ->
  In src (sourcesRef (snd (audioBlock decodeAudioData clk message s))).
Proof.
  intros Hin.
  destruct (negb (useBrowserTTSRef s) && optTruthy (inlineData message)
            && audioContextRef s && outputAnalyserRef s) eqn:Hg.
  - destruct (audioBlock_guard _ _ Hg) as (Hon & data & Hdata & Htruthy).
    destruct (decodeAudioData data) as [d|] eqn:Hdec.
    + destruct (audioBlock_enqueue clk message s data d Hon Hdata Htruthy Hdec)
        as (_ & _ & _ & Hsrc & _).
      cbv zeta in *. rewrite Hsrc. apply setAdd_incl, Hin.
    + destruct (audioBlock_decode_fails clk message s data Hon Hdata Htruthy Hdec)
        as (_ & _ & _ & Hsrc & _).
      cbv zeta in *. rewrite Hsrc. exact Hin.
  - rewrite (audioBlock_skip clk _ _ Hg). exact Hin.
Qed.

Lemma audioBlock_cursor_le clk message s :
  (forall data d, decodeAudioData data = Some d -> 0 <= d) ->
  nextStartTimeRef s <= nextStartTimeRef (snd (audioBlock decodeAudioData clk message s)).
Proof.
  intros Hpos.
  destruct (negb (useBrowserTTSRef s) && optTruthy (inlineData message)
            && audioContextRef s && outputAnalyserRef s) eqn:Hg.
  - destruct (audioBlock_guard _ _ Hg) as (Hon & data & Hdata & Htruthy).
    destruct (decodeAudioData data) as [d|] eqn:Hdec.
    + destruct (audioBlock_enqueue clk message s data d Hon Hdata Htruthy Hdec)
        as (_ & Hcur & _).
      cbv zeta in *. rewrite Hcur. specialize (Hpos _ _ Hdec). lia.
    + destruct (audioBlock_decode_fails clk message s data Hon Hdata Htruthy Hdec)
        as (_ & Hcur & _).
      cbv zeta in *. rewrite Hcur. lia.
  - rewrite (audioBlock_skip clk _ _ Hg). cbn. lia.
Qed.

Lemma scheduled_stops l : scheduled (map SourceStop l) = [].
Proof. induction l as [|x r IH]; [reflexivity | exact IH]. Qed.

Lemma interruptedBlock_scheduled message s :
  scheduled (effects (snd (interruptedBlock message s))) = scheduled (effects s).
Proof.
  destruct (interrupted message) eqn:H.
  - destruct (interruptedBlock_flush message s H) as (_ & _ & (tail & Heff & Htail) & _).
    cbv zeta in *. rewrite Heff, !scheduled_app, scheduled_stops, Htail, app_nil_r.
    reflexivity.
  - rewrite (interruptedBlock_skip _ _ H). reflexivity.
Qed.

(** C1 (amended).  For every sequence of events without interruption while
    playback is on, the buffers handed to the device are exactly those of
    the enqueue rule [t0 = max(cursor, deviceNow)], [cursor = t0 + duration]
    applied to the payloads that decode, in arrival order.  Hence buffer
    [k+1] starts at [max (start k + duration k) now], that is at
    [start k + duration k] when its message arrives no later than the end
    of buffer [k] and at its own arrival time otherwise, and no two buffers
    overlap. *)
Theorem scheduler_follows_enqueue_rule s events lo :
  (forall data d, decodeAudioData data = Some d -> 0 <= d) ->
  playbackOn s -> noInterruption events -> clockFrom lo events ->
  let reqs := requests decodeAudioData events in
  let bufs := plan (nextStartTimeRef s) reqs in
  scheduled (effects (run decodeAudioData s events)) = (scheduled (effects s) ++ bufs)%list /\
  (forall k t d t' d' now,
     nth_error bufs k = Some (t, d) ->
     nth_error bufs (S k) = Some (t', d') ->
     nth_error reqs (S k) = Some (now, d') ->
     t' = Z.max (t + d) now /\ (now <= t + d -> t' = t + d) /\ t + d <= t') /\
  (forall i j ti di tj dj,
     (i < j)%nat ->
     nth_error bufs i = Some (ti, di) ->
     nth_error bufs j = Some (tj, dj) ->
     ti + di <= tj).
Proof.
  intros Hpos Hon Hint Hclk reqs bufs. subst reqs bufs.
  assert (Htr : tracks lo (nextStartTimeRef s) (nextStartTimeRef s))
    by (intros now _; reflexivity).
  destruct (run_plan events s lo _ Hint Hon Htr Hclk) as (_ & Hsched & _).
  split; [exact Hsched |]. split.
  - intros k t d t' d' now H1 H2 H3.
    destruct (plan_consecutive _ _ _ _ _ _ _ _ _ H1 H2 H3) as [Ht _].
    subst t'. repeat split; lia.
  - intros i j ti di tj dj Hij Hi Hj.
    eapply plan_no_overlap; [apply requests_nonneg; exact Hpos | exact Hij | exact Hi | exact Hj].
Qed.

(** C3.  The handler of a message with [interrupted] leaves the active set
    empty and the cursor at 0, and has stopped every source that was
    active; with playback on, the next buffer to be enqueued, whatever
    arrives in between that enqueues nothing, starts at the device time of
    its own message. *)
Theorem interruption_flushes_scheduler s clk message :
  interrupted message = true ->
  let s' := step decodeAudioData s (Message clk message) in
  sourcesRef s' = [] /\
  nextStartTimeRef s' = 0 /\
  (forall src, In src (sourcesRef s) -> In (SourceStop src) (effects s')) /\
  (forall quiet clk2 message2 data d,
     playbackOn s' -> noInterruption quiet -> requests decodeAudioData quiet = [] ->
     clockFrom 0 (quiet ++ [Message clk2 message2]) ->
     inlineData message2 = Some data -> Js.truthy data = true ->
     decodeAudioData data = Some d ->
     scheduled (effects (step decodeAudioData (run decodeAudioData s' quiet)
                           (Message clk2 message2))) =
     (scheduled (effects s') ++ [(currentTime clk2, d)])%list).
Proof.
  intros Hint. cbv zeta.
  set (s1 := snd (transcriptionBlock clk message s)).
  set (s2 := snd (audioBlock decodeAudioData clk message s1)).
  assert (Hstep : step decodeAudioData s (Message clk message)
                  = snd (interruptedBlock message s2))
    by (unfold step, dispatch; rewrite onmessage_blocks; reflexivity).
  rewrite Hstep.
  destruct (interruptedBlock_flush message s2 Hint) as (Hcur & Hsrc & (tail & Heff & _) & _).
  cbv zeta in Hcur, Hsrc, Heff.
  set (s' := snd (interruptedBlock message s2)) in *. clearbody s'.
  split; [exact Hsrc |]. split; [exact Hcur |]. split.
  - intros src Hin. rewrite Heff.
    apply in_or_app. right. apply in_or_app. left. apply in_map.
    assert (Hv : schedulerView s1 = schedulerView s)
      by apply (transcriptionBlock_keeps schedulerView schedulerView_frame).
    assert (H1 : sourcesRef s1 = sourcesRef s) by (unfold schedulerView in Hv; congruence).
    rewrite <- H1 in Hin. apply audioBlock_sources, Hin.
  - intros quiet clk2 message2 data d Hon Hq Hreq Hclk Hdata Htruthy Hdec.
    apply clockFrom_app in Hclk as [Hclk1 Hclk2]. cbn in Hclk2. destruct Hclk2 as [Hle _].
    pose proof (clockFrom_lastClock _ _ Hclk1) as Hlast.
    assert (Htr : tracks 0 0 (nextStartTimeRef s'))
      by (rewrite Hcur; intros now _; reflexivity).
    destruct (run_plan quiet s' 0 0 Hq Hon Htr Hclk1) as (Htr' & Hs & Hon').
    cbv zeta in Htr', Hs, Hon'. rewrite Hreq in Htr', Hs. cbn in Htr', Hs.
    rewrite app_nil_r in Hs.
    unfold step at 1. unfold dispatch. rewrite onmessage_blocks, interruptedBlock_scheduled.
    destruct (audio_step clk2 message2 _ _ _ Hon' Htr' Hle) as (_ & Hs2 & _).
    cbv zeta in Hs2. rewrite Hs2, Hs. unfold request. rewrite Hdata, Htruthy, Hdec. cbn.
    rewrite Z.max_r by lia. reflexivity.
Qed.

Lemma step_cursor_le s e :
  (forall data d, decodeAudioData data = Some d -> 0 <= d) ->
  isInterruption e = false ->
  nextStartTimeRef s <= nextStartTimeRef (step decodeAudioData s e).
Proof.
  intros Hpos Hint. destruct e as [clk message | source | err].
  - cbn in Hint. rewrite (step_message_quiet _ _ _ Hint).
    pose proof (transcriptionBlock_keeps schedulerView schedulerView_frame clk message s) as Hv.
    assert (Hc : nextStartTimeRef (snd (transcriptionBlock clk message s)) = nextStartTimeRef s)
      by (unfold schedulerView in Hv; congruence).
    rewrite <- Hc. apply audioBlock_cursor_le, Hpos.
  - destruct (onended_view source s) as (Hc & _). cbv zeta in Hc. lia.
  - destruct (onerror_view err s) as (Hc & _). cbv zeta in Hc. lia.
Qed.

(** C8.  An enqueue, a buffer completion, or any other event that is not an
    interruption never lowers the cursor, so the cursor is non-decreasing
    along every run without interruption; a step that lowers it is an
    interruption, and an interruption sets it to 0. *)
Theorem cursor_monotone_except_flush :
  (forall data d, decodeAudioData data = Some d -> 0 <= d) ->
  (forall s e, isInterruption e = false ->
     nextStartTimeRef s <= nextStartTimeRef (step decodeAudioData s e)) /\
  (forall events s, noInterruption events ->
     nextStartTimeRef s <= nextStartTimeRef (run decodeAudioData s events)) /\
  (forall s e, nextStartTimeRef (step decodeAudioData s e) < nextStartTimeRef s ->
     isInterruption e = true) /\
  (forall s e, isInterruption e = true ->
     nextStartTimeRef (step decodeAudioData s e) = 0).
Proof.
  intros Hpos. split; [| split; [| split]].
  - intros s e. apply step_cursor_le, Hpos.
  - induction events as [|e r IH]; intros s Hint; [cbn; lia |].
    inversion Hint as [|? ? He Hr]; subst.
    change (run decodeAudioData s (e :: r))
      with (run decodeAudioData (step decodeAudioData s e) r).
    specialize (IH (step decodeAudioData s e) Hr).
    pose proof (step_cursor_le s e Hpos He). lia.
  - intros s e Hlt. destruct (isInterruption e) eqn:He; [reflexivity |].
    pose proof (step_cursor_le s e Hpos He). lia.
  - intros s e He. destruct e as [clk message | |]; try discriminate.
    cbn in He. unfold step, dispatch. rewrite onmessage_blocks.
    apply (interruptedBlock_flush message _ He).
Qed.

End Scheduler.

(** ** The playback blocks leave the transcript side alone *)

Lemma spoken_app l1 l2 : spoken (l1 ++ l2) = (spoken l1 ++ spoken l2)%list.
Proof. unfold spoken. apply flat_map_app. Qed.

Lemma transcriptView_emit e s :
  spoken [e] = [] ->
  transcriptView (set_effects (effects s ++ [e]) s) = transcriptView s.
Proof.
  intros H. unfold transcriptView. cbn. rewrite spoken_app, H, app_nil_r. reflexivity.
Qed.

Section PlaybackFrame.

Variable decodeAudioData : string -> option Z.

Lemma audioBlock_transcriptView clk message :
  keeps transcriptView (audioBlock decodeAudioData clk message).
Proof.
  unfold audioBlock.
  do 3 (apply keeps_bind; [apply keeps_read | intros ?]).
  apply keeps_when. apply keeps_bind; [apply keeps_modify; reflexivity | intros _].
  apply keeps_tryCatch.
  - destruct (inlineData message) as [data|]; [| apply keeps_ret].
    unfold scheduleBuffer. destruct (decodeAudioData data); [| apply keeps_throw].
    apply keeps_bind; [apply keeps_read | intros source].
    apply keeps_bind; [apply keeps_modify; reflexivity | intros _].
    apply keeps_bind; [apply keeps_read | intros startAt].
    apply keeps_bind;
      [apply keeps_modify; intros s; apply transcriptView_emit; reflexivity | intros _].
    apply keeps_bind; apply keeps_modify || intros _; try reflexivity.
    apply keeps_modify; reflexivity.
  - intros _. apply keeps_modify. intros s. apply transcriptView_emit. reflexivity.
Qed.

Lemma interruptedBlock_transcriptView message :
  keeps transcriptView (interruptedBlock message).
Proof.
  unfold interruptedBlock. apply keeps_when.
  apply keeps_bind; [apply keeps_read | intros active].
  apply keeps_bind;
    [apply keeps_forEach; intros src; apply keeps_modify; intros s;
     apply transcriptView_emit; reflexivity | intros _].
  apply keeps_bind; [apply keeps_modify; reflexivity | intros _].
  apply keeps_bind; [apply keeps_modify; reflexivity | intros _].
  apply keeps_bind; [apply keeps_read | intros useTTS].
  apply keeps_when. unfold speechSynthesisCancel.
  apply keeps_bind; [apply keeps_read | intros available].
  destruct available; [| apply keeps_throw].
  apply keeps_modify. intros s. apply transcriptView_emit. reflexivity.
Qed.

(** On the transcript side a message does what its transcription block
    does. *)
Lemma step_transcriptView clk message s :
  transcriptView (step decodeAudioData s (Message clk message)) =
  transcriptView (snd (transcriptionBlock clk message s)).
Proof.
  unfold step, dispatch. rewrite onmessage_blocks.
  rewrite interruptedBlock_transcriptView, audioBlock_transcriptView. reflexivity.
Qed.

End PlaybackFrame.

(** ** The transcript accumulator *)

Lemma append_empty_r (s : string) : s ++ EmptyString = s.
Proof. induction s as [|c r IH]; [reflexivity | simpl; rewrite IH; reflexivity]. Qed.

Lemma truthy_false s : Js.truthy s = false -> s = EmptyString.
Proof.
  unfold Js.truthy. intros H. apply negb_false_iff in H. apply String.eqb_eq in H. exact H.
Qed.

(** The input block: the text is appended, a truthy tag is stored, and the
    tag replaces [lastClientLanguageRef] unless it starts with [fr]. *)
Lemma inputTranscriptionBlock_state o s :
  let s' := snd (inputTranscriptionBlock o s) in
  currentInputTransRef s' = currentInputTransRef s ++ textOf o /\
  currentInputLanguageRef s' =
    match tagOf o with
    | Some t => Some t
    | None => currentInputLanguageRef s
    end /\
  lastClientLanguageRef s' =
    match tagOf o with
    | Some (Tag c) =>
        if Js.startsWith "fr" (Js.toLowerCase c) then lastClientLanguageRef s else c
    | _ => lastClientLanguageRef s
    end /\
  currentOutputTransRef s' = currentOutputTransRef s /\
  transcripts s' = transcripts s /\
  effects s' = effects s.
Proof.
  destruct o as [[t l]|];
    [| unfold textOf; cbn; rewrite append_empty_r; repeat split].
  unfold inputTranscriptionBlock, textOf, tagOf, bind. cbn.
  destruct t as [txt|]; [destruct (Js.truthy txt) eqn:Ht |]; cbn;
    try rewrite (truthy_false _ Ht); rewrite ?append_empty_r;
    (destruct l as [[c|]|]; cbn;
     [ destruct (Js.truthy c); cbn; [| repeat split];
       destruct (Js.startsWith "fr" (Js.toLowerCase c)); cbn; repeat split
     | repeat split
     | repeat split ]).
Qed.

(** The input block throws exactly when the tag is not a string. *)
Lemma inputTranscriptionBlock_completion o s :
  fst (inputTranscriptionBlock o s) =
  match tagOf o with
  | Some NotAString => Thrown (TypeError "toLowerCase is not a function")
  | _ => Normal tt
  end.
Proof.
  destruct o as [[t l]|]; [| reflexivity].
  unfold inputTranscriptionBlock, tagOf, bind. cbn.
  destruct t as [txt|]; [destruct (Js.truthy txt) |]; cbn;
    (destruct l as [[c|]|]; cbn; try reflexivity;
     destruct (Js.truthy c); cbn; [| reflexivity];
     destruct (Js.startsWith "fr" (Js.toLowerCase c)); reflexivity).
Qed.

(** The output block: the text is appended, nothing else of the
    accumulator changes, and it does not throw. *)
Lemma outputTranscriptionBlock_state o s :
  let s' := snd (outputTranscriptionBlock o s) in
  fst (outputTranscriptionBlock o s) = Normal tt /\
  currentOutputTransRef s' = currentOutputTransRef s ++ textOf o /\
  currentInputTransRef s' = currentInputTransRef s /\
  currentInputLanguageRef s' = currentInputLanguageRef s /\
  lastClientLanguageRef s' = lastClientLanguageRef s /\
  transcripts s' = transcripts s /\
  effects s' = effects s.
Proof.
  destruct o as [[t l]|];
    [| unfold textOf; cbn; rewrite append_empty_r; repeat split].
  unfold outputTranscriptionBlock, textOf. cbn.
  destruct t as [txt|]; cbn.
  - destruct (Js.truthy txt) eqn:Ht; cbn.
    + repeat split.
    + rewrite (truthy_false _ Ht), append_empty_r. repeat split.
  - rewrite append_empty_r. repeat split.
Qed.

(** The turn-complete block when the stored tag is a string or absent. *)
Lemma turnCompleteBlock_state clk s c :
  orEmpty (currentInputLanguageRef s) = Tag c ->
  let userInput := Js.trim (currentInputTransRef s) in
  let modelOutput := Js.trim (currentOutputTransRef s) in
  let isFrenchOutput := negb (Js.startsWith "fr" (Js.toLowerCase c)) in
  let s' := snd (turnCompleteBlock clk s) in
  fst (turnCompleteBlock clk s) = Normal tt /\
  transcripts s' =
    (transcripts s
     ++ (if Js.truthy userInput
         then [userItem clk userInput (currentInputLanguageRef s)] else [])
     ++ (if Js.truthy modelOutput then [modelItem clk modelOutput] else []))%list /\
  currentInputTransRef s' =
    (if Js.truthy userInput then EmptyString else currentInputTransRef s) /\
  currentOutputTransRef s' =
    (if Js.truthy modelOutput then EmptyString else currentOutputTransRef s) /\
  currentInputLanguageRef s' =
    (if Js.truthy userInput then None else currentInputLanguageRef s) /\
  lastClientLanguageRef s' = lastClientLanguageRef s /\
  effects s' =
    (effects s
     ++ (if Js.truthy modelOutput && useBrowserTTSRef s && speechSynthesisInWindow s
         then [Speak modelOutput
                 (utteranceLang isFrenchOutput (targetLanguageRef s)
                    (lastClientLanguageRef s))]
         else []))%list.
Proof.
  intros Hor. unfold turnCompleteBlock, bind, read. cbn. rewrite Hor. cbn.
  destruct (Js.truthy (Js.trim (currentInputTransRef s)));
    destruct (Js.truthy (Js.trim (currentOutputTransRef s))); cbn;
    try (destruct (useBrowserTTSRef s); cbn;
         [unfold speakText, bind, read; cbn;
          destruct (speechSynthesisInWindow s); cbn |]);
    rewrite ?app_nil_r; repeat split; rewrite <- ?app_assoc; reflexivity.
Qed.

(** The turn-complete block when the stored tag is not a string: it throws
    before anything is finalized. *)
Lemma turnCompleteBlock_throws clk s :
  orEmpty (currentInputLanguageRef s) = NotAString ->
  turnCompleteBlock clk s = (Thrown (TypeError "toLowerCase is not a function"), s).
Proof.
  intros Hor. unfold turnCompleteBlock, bind, read. cbn. rewrite Hor. reflexivity.
Qed.

Lemma orEmpty_string o : o <> Some NotAString -> exists c, orEmpty o = Tag c.
Proof.
  intros H. destruct o as [[c|]|]; cbn.
  - destruct (Js.truthy c); eexists; reflexivity.
  - contradiction H; reflexivity.
  - eexists; reflexivity.
Qed.

Lemma turnCompleteBlock_lastClient clk s :
  lastClientLanguageRef (snd (turnCompleteBlock clk s)) = lastClientLanguageRef s.
Proof.
  destruct (orEmpty (currentInputLanguageRef s)) as [c|] eqn:Hor.
  - apply (turnCompleteBlock_state clk s c Hor).
  - rewrite (turnCompleteBlock_throws clk s Hor). reflexivity.
Qed.

(** Whatever happens, a message leaves in [lastClientLanguageRef] what its
    input block put there. *)
Lemma handleTranscription_lastClient clk message s :
  lastClientLanguageRef (snd (handleTranscription clk message s)) =
  rememberClient (tagOf (inputTranscription message)) (lastClientLanguageRef s).
Proof.
  unfold handleTranscription, bind.
  destruct (inputTranscriptionBlock_state (inputTranscription message) s)
    as (_ & _ & Hlast & _). cbv zeta in Hlast.
  destruct (inputTranscriptionBlock (inputTranscription message) s) as [[[]|e1] s1];
    cbn [snd] in *; [| exact Hlast].
  fold (rememberClient (tagOf (inputTranscription message)) (lastClientLanguageRef s)) in Hlast.
  destruct (outputTranscriptionBlock_state (outputTranscription message) s1)
    as (Hn & _ & _ & _ & Hlast2 & _). cbv zeta in Hlast2.
  destruct (outputTranscriptionBlock (outputTranscription message) s1) as [c2 s2].
  cbn in Hn, Hlast2. subst c2.
  destruct (turnComplete message); cbn [when].
  - rewrite turnCompleteBlock_lastClient. congruence.
  - cbn. congruence.
Qed.

(** A message whose tags are strings: what [handleTranscription] does at a
    turn-complete, in terms of the state before the message. *)
Lemma handleTranscription_turnComplete clk message s :
  turnComplete message = true ->
  detectedLanguage message s <> Some NotAString ->
  exists c, orEmpty (detectedLanguage message s) = Tag c /\
  let userInput := Js.trim (userBuffer message s) in
  let modelOutput := Js.trim (modelBuffer message s) in
  let last := rememberClient (tagOf (inputTranscription message)) (lastClientLanguageRef s) in
  let s' := snd (handleTranscription clk message s) in
  fst (handleTranscription clk message s) = Normal tt /\
  transcripts s' =
    (transcripts s
     ++ (if Js.truthy userInput
         then [userItem clk userInput (detectedLanguage message s)] else [])
     ++ (if Js.truthy modelOutput then [modelItem clk modelOutput] else []))%list /\
  currentInputTransRef s' =
    (if Js.truthy userInput then EmptyString else userBuffer message s) /\
  currentOutputTransRef s' =
    (if Js.truthy modelOutput then EmptyString else modelBuffer message s) /\
  currentInputLanguageRef s' =
    (if Js.truthy userInput then None else detectedLanguage message s) /\
  effects s' =
    (effects s
     ++ (if Js.truthy modelOutput && useBrowserTTSRef s && speechSynthesisInWindow s
         then [Speak modelOutput
                 (utteranceLang (negb (Js.startsWith "fr" (Js.toLowerCase c)))
                    (targetLanguageRef s) last)]
         else []))%list.
Proof.
  intros Htc Hlang. destruct (orEmpty_string _ Hlang) as [c Hc]. exists c.
  split; [exact Hc |]. cbv zeta.
  unfold handleTranscription, bind, userBuffer, modelBuffer, detectedLanguage in *.
  pose proof (inputTranscriptionBlock_keeps
                (fun s => (useBrowserTTSRef s, targetLanguageRef s, speechSynthesisInWindow s))
                ltac:(split; reflexivity) (inputTranscription message) s) as Hk1.
  destruct (inputTranscriptionBlock_state (inputTranscription message) s)
    as (Hin & Hlg & Hlast & Hout & Htr & Heff). cbv zeta in *.
  pose proof (inputTranscriptionBlock_completion (inputTranscription message) s) as Hc1.
  destruct (inputTranscriptionBlock (inputTranscription message) s) as [c1 s1].
  cbn [fst snd] in *.
  assert (c1 = Normal tt) as ->.
  { rewrite Hc1. destruct (tagOf (inputTranscription message)) as [[?|]|]; try reflexivity.
    contradiction Hlang; reflexivity. }
  pose proof (outputTranscriptionBlock_keeps
                (fun s => (useBrowserTTSRef s, targetLanguageRef s, speechSynthesisInWindow s))
                ltac:(split; reflexivity) (outputTranscription message) s1) as Hk2.
  destruct (outputTranscriptionBlock_state (outputTranscription message) s1)
    as (Hn & Hout2 & Hin2 & Hlg2 & Hlast2 & Htr2 & Heff2). cbv zeta in *.
  destruct (outputTranscriptionBlock (outputTranscription message) s1) as [c2 s2].
  cbn [fst snd] in *. subst c2. rewrite Htc. cbn [when].
  assert (Hor : orEmpty (currentInputLanguageRef s2) = Tag c) by congruence.
  destruct (turnCompleteBlock_state clk s2 c Hor) as (G1 & G2 & G3 & G4 & G5 & G6 & G7).
  cbv zeta in *.
  injection Hk1 as K1 K2 K3. injection Hk2 as K4 K5 K6.
  rewrite G2, G3, G4, G5, G7.
  rewrite Hin2, Hin, Hout2, Hout, Hlg2, Hlg, Htr2, Htr, Heff2, Heff, Hlast2, Hlast.
  rewrite K4, K1, K5, K2, K6, K3.
  unfold rememberClient. repeat split. exact G1.
Qed.

Lemma transcriptionBlock_returns clk message s :
  fst (handleTranscription clk message s) = Normal tt ->
  snd (transcriptionBlock clk message s) = snd (handleTranscription clk message s).
Proof.
  unfold transcriptionBlock, tryCatch.
  destruct (handleTranscription clk message s) as [[[]|e] s']; [reflexivity | discriminate].
Qed.

Section TurnComplete.

Variable decodeAudioData : string -> option Z.

(** The transcript side of a turn-complete message whose tags are strings,
    after the whole of [onmessage]. *)
Lemma step_turnComplete clk message s :
  turnComplete message = true ->
  detectedLanguage message s <> Some NotAString ->
  exists c, orEmpty (detectedLanguage message s) = Tag c /\
  let userInput := Js.trim (userBuffer message s) in
  let modelOutput := Js.trim (modelBuffer message s) in
  let last := rememberClient (tagOf (inputTranscription message)) (lastClientLanguageRef s) in
  let s' := step decodeAudioData s (Message clk message) in
  transcripts s' =
    (transcripts s
     ++ (if Js.truthy userInput
         then [userItem clk userInput (detectedLanguage message s)] else [])
     ++ (if Js.truthy modelOutput then [modelItem clk modelOutput] else []))%list /\
  currentInputTransRef s' =
    (if Js.truthy userInput then EmptyString else userBuffer message s) /\
  currentOutputTransRef s' =
    (if Js.truthy modelOutput then EmptyString else modelBuffer message s) /\
  currentInputLanguageRef s' =
    (if Js.truthy userInput then None else detectedLanguage message s) /\
  spoken (effects s') =
    (spoken (effects s)
     ++ (if Js.truthy modelOutput && useBrowserTTSRef s && speechSynthesisInWindow s
         then [(modelOutput,
                utteranceLang (negb (Js.startsWith "fr" (Js.toLowerCase c)))
                  (targetLanguageRef s) last)]
         else []))%list.
Proof.
  intros Htc Hlang.
  destruct (handleTranscription_turnComplete clk message s Htc Hlang)
    as (c & Hc & Hn & H1 & H2 & H3 & H4 & H5).
  exists c. split; [exact Hc |]. cbv zeta in *.
  pose proof (step_transcriptView decodeAudioData clk message s) as Hv.
  rewrite (transcriptionBlock_returns _ _ _ Hn) in Hv.
  unfold transcriptView in Hv.
  injection Hv as V1 V2 V3 V4 _ V6 _ _ _ _ _.
  rewrite V1, V2, V3, V4, V6, H1, H2, H3, H4, H5, spoken_app.
  repeat split.
  destruct (Js.truthy (Js.trim (modelBuffer message s)) && useBrowserTTSRef s
            && speechSynthesisInWindow s); reflexivity.
Qed.

(** C2 (amended).  For every turn-complete message whose detected language
    tag is absent or a string, each accumulation buffer whose trimmed
    content is non-empty yields exactly one new item, the user item before
    the model item, and is empty afterwards; a buffer whose trimmed content
    is empty yields no item and is left as it is, so a turn-complete with
    both buffers empty emits nothing. *)
Theorem turn_complete_finalizes clk message s :
  turnComplete message = true ->
  detectedLanguage message s <> Some NotAString ->
  let userInput := Js.trim (userBuffer message s) in
  let modelOutput := Js.trim (modelBuffer message s) in
  let s' := step decodeAudioData s (Message clk message) in
  (exists lang,
     transcripts s' =
       (transcripts s
        ++ (if Js.truthy userInput then [userItem clk userInput lang] else [])
        ++ (if Js.truthy modelOutput then [modelItem clk modelOutput] else []))%list) /\
  currentInputTransRef s' =
    (if Js.truthy userInput then EmptyString else userBuffer message s) /\
  currentOutputTransRef s' =
    (if Js.truthy modelOutput then EmptyString else modelBuffer message s) /\
  (userBuffer message s = EmptyString -> modelBuffer message s = EmptyString ->
   transcripts s' = transcripts s /\
   currentInputTransRef s' = EmptyString /\ currentOutputTransRef s' = EmptyString).
Proof.
  intros Htc Hlang.
  destruct (step_turnComplete clk message s Htc Hlang) as (c & _ & H1 & H2 & H3 & _).
  cbv zeta in *.
  split; [exists (detectedLanguage message s); exact H1 |].
  split; [exact H2 |]. split; [exact H3 |].
  intros Hu Hm. rewrite H1, H2, H3, Hu, Hm. cbn. rewrite app_nil_r. repeat split.
Qed.

(** ** Fallback speech and [lastClientLanguageRef] *)

Lemma orEmpty_tag c : orEmpty (Some (Tag c)) = Tag c.
Proof.
  cbn. destruct (Js.truthy c) eqn:H; [reflexivity |].
  rewrite (truthy_false _ H). reflexivity.
Qed.

(** The fallback speech of a turn whose detected language is the string
    [c]: the client or target language when [c] starts with [fr], French
    otherwise. *)
Lemma fallback_speech_by_prefix clk message s c :
  turnComplete message = true ->
  detectedLanguage message s = Some (Tag c) ->
  useBrowserTTSRef s = true -> speechSynthesisInWindow s = true ->
  Js.truthy (Js.trim (modelBuffer message s)) = true ->
  spoken (effects (step decodeAudioData s (Message clk message))) =
  (spoken (effects s)
   ++ [(Js.trim (modelBuffer message s),
        if Js.startsWith "fr" (Js.toLowerCase c)
        then utteranceLang false (targetLanguageRef s)
               (rememberClient (tagOf (inputTranscription message))
                  (lastClientLanguageRef s))
        else "fr-FR")])%list.
Proof.
  intros Htc Hlang Htts Hsp Hout.
  assert (Hns : detectedLanguage message s <> Some NotAString) by (rewrite Hlang; discriminate).
  destruct (step_turnComplete clk message s Htc Hns) as (c' & Hc & _ & _ & _ & _ & H5).
  cbv zeta in H5. rewrite Hlang, orEmpty_tag in Hc. injection Hc as <-.
  rewrite H5, Hout, Htts, Hsp. cbn [andb].
  destruct (Js.startsWith "fr" (Js.toLowerCase c)); reflexivity.
Qed.

(** When no language tag is stored at the turn-complete, the input is
    taken as non-French: with fallback speech on and a non-empty model
    text, the speak-request (issued where [window] has [speechSynthesis])
    carries [fr-FR]. *)
Lemma turnComplete_without_language clk message s :
  turnComplete message = true ->
  detectedLanguage message s = None ->
  useBrowserTTSRef s = true ->
  Js.truthy (Js.trim (modelBuffer message s)) = true ->
  spoken (effects (step decodeAudioData s (Message clk message))) =
  (spoken (effects s)
   ++ (if speechSynthesisInWindow s
       then [(Js.trim (modelBuffer message s), "fr-FR")] else []))%list.
Proof.
  intros Htc Hlang Htts Hout.
  assert (Hns : detectedLanguage message s <> Some NotAString) by (rewrite Hlang; discriminate).
  destruct (step_turnComplete clk message s Htc Hns) as (c & Hc & _ & _ & _ & _ & H5).
  cbv zeta in H5. rewrite Hlang in Hc. cbn in Hc. injection Hc as <-.
  rewrite H5, Hout, Htts. cbn [andb].
  destruct (speechSynthesisInWindow s); reflexivity.
Qed.

Lemma transcriptionBlock_lastClient clk message s :
  lastClientLanguageRef (snd (transcriptionBlock clk message s)) =
  rememberClient (tagOf (inputTranscription message)) (lastClientLanguageRef s).
Proof.
  rewrite <- handleTranscription_lastClient with (clk := clk).
  unfold transcriptionBlock, tryCatch.
  destruct (handleTranscription clk message s) as [[[]|e] s']; reflexivity.
Qed.

(** The update rule of [lastClientLanguageRef], event by event. *)
Lemma step_lastClient s e :
  lastClientLanguageRef (step decodeAudioData s e) =
  rememberClient (observedTag e) (lastClientLanguageRef s).
Proof.
  destruct e as [clk message | source | err].
  - pose proof (step_transcriptView decodeAudioData clk message s) as Hv.
    apply (f_equal lastClient) in Hv. cbn in Hv. rewrite Hv.
    apply transcriptionBlock_lastClient.
  - reflexivity.
  - unfold step, dispatch, onerror, bind, emit, modify. cbn.
    destruct err as [message|]; [| reflexivity].
    destruct (Js.includes "Invalid argument" message); [reflexivity |].
    destruct (Js.includes "Internal error" message); reflexivity.
Qed.

(** The lower-cased base code is a prefix of the lower-cased tag, so a tag
    whose base code is [fr] passes the test [startsWith('fr')]. *)
Lemma baseCode_prefix tag : String.prefix (baseCode tag) (Js.toLowerCase tag) = true.
Proof.
  unfold baseCode. induction tag as [|c r IH]; [reflexivity |].
  cbn. destruct (Ascii.eqb c "-"); [reflexivity |].
  cbn. destruct (ascii_dec (Js.lowerUnit c) (Js.lowerUnit c)); [exact IH | congruence].
Qed.

Lemma host_tag_starts_with_fr tag :
  isHostTag tag = true -> Js.startsWith "fr" (Js.toLowerCase tag) = true.
Proof.
  unfold isHostTag. intros H. apply String.eqb_eq in H.
  pose proof (baseCode_prefix tag) as Hp. rewrite H in Hp. exact Hp.
Qed.

(** A tag in the host language never replaces [lastClientLanguageRef]. *)
Lemma host_tag_keeps_lastClient s e tag :
  observedTag e = Some (Tag tag) -> isHostTag tag = true ->
  lastClientLanguageRef (step decodeAudioData s e) = lastClientLanguageRef s.
Proof.
  intros Hobs Hhost. rewrite step_lastClient, Hobs. cbn.
  rewrite (host_tag_starts_with_fr _ Hhost). reflexivity.
Qed.

Lemma run_keeps_en_US events : forall s,
  lastClientLanguageRef s = "en-US" ->
  (forall e tag, In e events -> observedTag e = Some (Tag tag) -> isHostTag tag = true) ->
  lastClientLanguageRef (run decodeAudioData s events) = "en-US".
Proof.
  induction events as [|e r IH]; intros s Hs Hhost; [exact Hs |].
  change (run decodeAudioData s (e :: r))
    with (run decodeAudioData (step decodeAudioData s e) r).
  apply IH; [| intros e' tag Hin; apply Hhost; right; exact Hin].
  rewrite step_lastClient.
  destruct (observedTag e) as [[tag|]|] eqn:Hobs; cbn; try exact Hs.
  rewrite (host_tag_starts_with_fr tag); [exact Hs |].
  apply (Hhost e tag); [left; reflexivity | exact Hobs].
Qed.

(** C10.  [lastClientLanguageRef] starts as [en-US].  While every tag
    observed so far is in the host language it stays [en-US], and in Auto
    mode the speak-request of a turn routed to the client language then
    carries [en-US].  In Auto mode [speakText] also falls back to [en-US]
    whenever [mapLanguageCodeToLocale] has no locale for the stored tag. *)
Theorem auto_mode_falls_back_to_en_US :
  (forall speech, lastClientLanguageRef (initialState speech) = "en-US") /\
  (forall s0 events clk message c,
     lastClientLanguageRef s0 = "en-US" ->
     (forall e tag, In e events -> observedTag e = Some (Tag tag) -> isHostTag tag = true) ->
     let s := run decodeAudioData s0 events in
     targetLanguageRef s = "Auto" ->
     useBrowserTTSRef s = true -> speechSynthesisInWindow s = true ->
     turnComplete message = true ->
     detectedLanguage message s = Some (Tag c) -> isHostTag c = true ->
     Js.truthy (Js.trim (modelBuffer message s)) = true ->
     lastClientLanguageRef s = "en-US" /\
     spoken (effects (step decodeAudioData s (Message clk message))) =
     (spoken (effects s) ++ [(Js.trim (modelBuffer message s), "en-US")])%list) /\
  (forall s utterance,
     targetLanguageRef s = "Auto" -> speechSynthesisInWindow s = true ->
     mapLanguageCodeToLocale (lastClientLanguageRef s) = None ->
     effects (snd (speakText utterance false s)) =
     (effects s ++ [Speak utterance "en-US"])%list).
Proof.
  split; [reflexivity |]. split.
  - intros s0 events clk message c Hs0 Hhost s Hauto Htts Hsp Htc Hlang Hc Hout.
    assert (Hs : lastClientLanguageRef s = "en-US")
      by (apply run_keeps_en_US; assumption).
    split; [exact Hs |].
    rewrite (fallback_speech_by_prefix clk message s c Htc Hlang Htts Hsp Hout).
    rewrite (host_tag_starts_with_fr _ Hc), Hauto, Hs.
    assert (Hlast : rememberClient (tagOf (inputTranscription message)) "en-US" = "en-US").
    { unfold detectedLanguage in Hlang.
      destruct (tagOf (inputTranscription message)) as [[c'|]|]; try reflexivity.
      injection Hlang as ->. cbn. rewrite (host_tag_starts_with_fr _ Hc). reflexivity. }
    rewrite Hlast. reflexivity.
  - intros s utterance Hauto Hsp Hmap.
    unfold speakText, bind, read. cbn. rewrite Hsp. cbn.
    unfold utteranceLang. rewrite Hauto, Hmap. reflexivity.
Qed.

End TurnComplete.

(** ** Faults and channel errors *)

Section Isolation.

Variable decodeAudioData : string -> option Z.

Lemma transcriptionBlock_catches clk message s e :
  fst (handleTranscription clk message s) = Thrown e ->
  snd (transcriptionBlock clk message s) =
  let s1 := snd (handleTranscription clk message s) in
  set_effects (effects s1 ++ [ConsoleError "Error processing transcription message:"]) s1.
Proof.
  unfold transcriptionBlock, tryCatch.
  destruct (handleTranscription clk message s) as [[[]|e'] s']; [discriminate |].
  reflexivity.
Qed.

Lemma interruptedBlock_normal message s :
  interrupted message = false \/ useBrowserTTSRef s = false
    \/ speechSynthesisInWindow s = true ->
  fst (interruptedBlock message s) = Normal tt.
Proof.
  intros H. destruct (interrupted message) eqn:Hint;
    [| rewrite (interruptedBlock_skip _ _ Hint); reflexivity].
  rewrite (interruptedBlock_eq _ _ Hint).
  destruct H as [H | [H | H]]; [discriminate | rewrite H; reflexivity |].
  destruct (useBrowserTTSRef s); [| reflexivity].
  cbn [when]. unfold speechSynthesisCancel, bind, read. cbn. rewrite H. reflexivity.
Qed.

(** What the two [try] blocks of [onmessage] achieve: an exception
    thrown by [handleTranscription] and a decode error
    are each caught inside [onmessage]: the guarded block returns normally
    and logs the error, the blocks that follow still run on the state it
    leaves, the callback returns normally (the unguarded
    [speechSynthesis.cancel()] of an interruption apart), and the
    connection state and the displayed error are untouched, so the next
    message is handled from the state this one leaves. *)
Lemma message_faults_are_isolated clk message s :
  fst (transcriptionBlock clk message s) = Normal tt /\
  (forall e, fst (handleTranscription clk message s) = Thrown e ->
     snd (transcriptionBlock clk message s) =
     let s1 := snd (handleTranscription clk message s) in
     set_effects
       (effects s1 ++ [ConsoleError "Error processing transcription message:"]) s1) /\
  (forall s1, fst (audioBlock decodeAudioData clk message s1) = Normal tt) /\
  (forall s1 data,
     playbackOn s1 -> inlineData message = Some data -> Js.truthy data = true ->
     decodeAudioData data = None ->
     let s2 := snd (audioBlock decodeAudioData clk message s1) in
     effects s2 = (effects s1 ++ [ConsoleError "Audio decoding error:"])%list /\
     sourcesRef s2 = sourcesRef s1) /\
  onmessage decodeAudioData clk message s =
    interruptedBlock message
      (snd (audioBlock decodeAudioData clk message
              (snd (transcriptionBlock clk message s)))) /\
  (interrupted message = false \/ useBrowserTTSRef s = false
     \/ speechSynthesisInWindow s = true ->
   fst (onmessage decodeAudioData clk message s) = Normal tt) /\
  isConnected (step decodeAudioData s (Message clk message)) = isConnected s /\
  error (step decodeAudioData s (Message clk message)) = error s /\
  (forall rest,
     run decodeAudioData s (Message clk message :: rest) =
     run decodeAudioData (step decodeAudioData s (Message clk message)) rest).
Proof.
  split; [apply transcriptionBlock_normal |].
  split; [apply transcriptionBlock_catches |].
  split; [intros s1; apply audioBlock_normal |].
  split.
  { intros s1 data Hon Hdata Htruthy Hdec.
    destruct (audioBlock_decode_fails decodeAudioData clk message s1 data
                Hon Hdata Htruthy Hdec) as (_ & _ & Heff & Hsrc & _).
    split; assumption. }
  split; [apply onmessage_blocks |].
  set (s1 := snd (transcriptionBlock clk message s)).
  set (s2 := snd (audioBlock decodeAudioData clk message s1)).
  assert (H1 : (isConnected s1, error s1, useBrowserTTSRef s1, speechSynthesisInWindow s1)
               = (isConnected s, error s, useBrowserTTSRef s, speechSynthesisInWindow s)).
  { apply (transcriptionBlock_keeps
             (fun s => (isConnected s, error s, useBrowserTTSRef s, speechSynthesisInWindow s))).
    split; reflexivity. }
  pose proof (audioBlock_transcriptView decodeAudioData clk message s1) as H2.
  fold s2 in H2. unfold transcriptView in H2.
  injection H2 as _ _ _ _ _ _ Htts _ Hsp Hcon Herr. injection H1 as K1 K2 K3 K4.
  split.
  { intros H. rewrite onmessage_blocks. fold s1 s2. apply interruptedBlock_normal.
    rewrite Htts, Hsp, K3, K4. exact H. }
  pose proof (step_transcriptView decodeAudioData clk message s) as Hv.
  fold s1 in Hv. unfold transcriptView in Hv.
  injection Hv as _ _ _ _ _ _ _ _ _ Vcon Verr.
  split; [congruence |]. split; [congruence |].
  reflexivity.
Qed.

End Isolation.

(** C7 (amended).  The error callback always logs the error and never
    changes the connection state.  For an [Error] instance: a message
    containing [Invalid argument] shows the configuration message; else a
    message containing [Internal error] is only logged (a warning) and the
    displayed error is unchanged; else the generic connection message is
    shown, which differs from the configuration message.  A value that is
    not an [Error] instance is only logged. *)
Theorem channel_error_classification err s :
  let s' := snd (onerror err s) in
  fst (onerror err s) = Normal tt /\
  isConnected s' = isConnected s /\
  configurationMessage <> connectionMessage /\
  match err with
  | ErrorObject message =>
      if Js.includes "Invalid argument" message then
        error s' = Some configurationMessage /\
        effects s' = (effects s ++ [ConsoleError "Session Error"])%list
      else if Js.includes "Internal error" message then
        error s' = error s /\
        effects s' =
          (effects s ++ [ConsoleError "Session Error";
                         ConsoleWarn "Gemini Internal Warning (retrying usually fixes this):"])%list
      else
        error s' = Some connectionMessage /\
        effects s' = (effects s ++ [ConsoleError "Session Error"])%list
  | NonError =>
      error s' = error s /\
      effects s' = (effects s ++ [ConsoleError "Session Error"])%list
  end.
Proof.
  unfold onerror, bind, emit, modify. cbn.
  destruct err as [message|]; cbn.
  - destruct (Js.includes "Invalid argument" message); cbn;
      [| destruct (Js.includes "Internal error" message); cbn];
      rewrite <- ?app_assoc; repeat split; discriminate.
  - repeat split; discriminate.
Qed.

(** ** The scheduler on concrete runs *)

Lemma pcm16Duration_nonneg data d : pcm16Duration data = Some d -> 0 <= d.
Proof.
  unfold pcm16Duration. destruct (Nat.even (String.length data)); [| discriminate].
  intros H. injection H as <-. apply Nat2Z.is_nonneg.
Qed.

(** Two payloads, the second arriving while the first still plays: back to
    back. *)
Lemma scheduler_follows_enqueue_rule_witness :
  scheduled (effects (run pcm16Duration (connected (initialState true))
                        [Message (at_ 0) (audioMessage "AAAA");
                         Message (at_ 1) (audioMessage "BB")]))
  = [(0, 2); (2, 1)].
Proof.
  refine (proj1 (scheduler_follows_enqueue_rule pcm16Duration
                   (connected (initialState true))
                   [Message (at_ 0) (audioMessage "AAAA");
                    Message (at_ 1) (audioMessage "BB")] 0
                   pcm16Duration_nonneg _ _ _)).
  - repeat split.
  - repeat constructor.
  - cbn. lia.
Defined.

(** C1, as stated, fails: the second payload arrives at device time 25,
    after the first buffer (0 to 2) has finished; it starts at 25, not at
    0 + 2. *)
Lemma gap_after_starvation :
  scheduled (effects (run pcm16Duration (connected (initialState true))
                        [Message (at_ 0) (audioMessage "AAAA");
                         Message (at_ 25) (audioMessage "BB")]))
  = [(0, 2); (25, 1)] /\ 25 <> 0 + 2.
Proof. split; [reflexivity | lia]. Qed.

(** An interruption while two buffers are queued, then a payload at device
    time 40: it starts at 40, not at the old cursor. *)
Lemma interruption_flushes_scheduler_witness :
  let s := run pcm16Duration (connected (initialState true))
             [Message (at_ 0) (audioMessage "AAAAAAAAAAAAAAAAAAAA");
              Message (at_ 1) (audioMessage "AAAAAAAAAAAAAAAAAAAA")] in
  let s' := step pcm16Duration s (Message (at_ 3) interruptedMessage) in
  sourcesRef s = [0%nat; 1%nat] /\ nextStartTimeRef s = 20 /\
  sourcesRef s' = [] /\ nextStartTimeRef s' = 0 /\
  (forall src, In src (sourcesRef s) -> In (SourceStop src) (effects s')) /\
  scheduled (effects (step pcm16Duration (run pcm16Duration s' [Ended 0%nat])
                        (Message (at_ 40) (audioMessage "BB"))))
  = (scheduled (effects s') ++ [(40, 1)])%list.
Proof.
  intros s s'.
  destruct (interruption_flushes_scheduler pcm16Duration s (at_ 3) interruptedMessage eq_refl)
    as (H1 & H2 & H3 & H4).
  split; [reflexivity |]. split; [reflexivity |].
  split; [exact H1 |]. split; [exact H2 |]. split; [exact H3 |].
  apply (H4 [Ended 0%nat] (at_ 40) (audioMessage "BB") "BB" 1).
  - repeat split.
  - repeat constructor.
  - reflexivity.
  - cbn. split; [discriminate | exact I].
  - reflexivity.
  - reflexivity.
  - reflexivity.
Defined.

Lemma cursor_monotone_except_flush_witness :
  let s := run pcm16Duration (connected (initialState true))
             [Message (at_ 0) (audioMessage "AAAA")] in
  nextStartTimeRef s <= nextStartTimeRef (step pcm16Duration s (Ended 0%nat)) /\
  nextStartTimeRef s <=
    nextStartTimeRef (run pcm16Duration s [Message (at_ 1) (audioMessage "BBB");
                                           Message (at_ 9) (audioMessage "BB")]) /\
  nextStartTimeRef (step pcm16Duration s (Message (at_ 1) interruptedMessage)) = 0.
Proof.
  intros s.
  destruct (cursor_monotone_except_flush pcm16Duration pcm16Duration_nonneg)
    as (H1 & H2 & _ & H4).
  split; [apply H1; reflexivity |].
  split; [apply H2; repeat constructor | apply H4; reflexivity].
Defined.

(** ** The accumulator on concrete runs *)

(** The partial inputs [Bon] and [jour], then a turn-complete: one user
    item [Bonjour], and both buffers empty. *)
Lemma turn_complete_finalizes_witness :
  let s := run pcm16Duration (connected (initialState true))
             [Message (at_ 0) (partialInput "Bon" None);
              Message (at_ 1) (partialInput "jour" None)] in
  let s' := step pcm16Duration s (Message (at_ 2) turnCompleteMessage) in
  currentInputTransRef s = "Bonjour" /\
  (exists lang, transcripts s' = [userItem (at_ 2) "Bonjour" lang]) /\
  currentInputTransRef s' = EmptyString /\
  currentOutputTransRef s' = EmptyString.
Proof.
  intros s s'.
  assert (Hlang : detectedLanguage turnCompleteMessage s <> Some NotAString)
    by discriminate.
  destruct (turn_complete_finalizes pcm16Duration (at_ 2) turnCompleteMessage s
              eq_refl Hlang) as (H1 & H2 & H3 & _).
  split; [reflexivity |]. split; [exact H1 |]. split; [exact H2 | exact H3].
Defined.

(** C2, as stated, fails: a buffer that holds only white space yields no
    item and is not emptied by the turn-complete. *)
Lemma blank_buffer_survives_turn_complete :
  let s' := run pcm16Duration (connected (initialState true))
              [Message (at_ 0) (partialInput " " None);
               Message (at_ 1) turnCompleteMessage] in
  transcripts s' = [] /\ currentInputTransRef s' = " " /\
  currentInputTransRef s' <> EmptyString.
Proof. repeat split. discriminate. Qed.

(** ** Languages and fallback speech on concrete runs *)

(** The tags [es-ES], [fr-FR], [es-MX] leave [es-MX]. *)
Example language_fallback_example :
  lastClientLanguageRef
    (run pcm16Duration (connected (initialState true))
       [Message (at_ 0) (partialInput "Hola" (Some (Tag "es-ES")));
        Message (at_ 1) (partialInput "Bonjour" (Some (Tag "fr-FR")));
        Message (at_ 2) (partialInput "Buenas" (Some (Tag "es-MX")))]) = "es-MX".
Proof. reflexivity. Qed.

(** C4.  The code at the tag [frr-DE] (North Frisian): its base code [frr]
    is not [fr], yet the tag passes [startsWith('fr')] and is not
    remembered. *)
Theorem frisian_tag_is_not_remembered :
  isHostTag "frr-DE" = false /\
  Js.startsWith "fr" (Js.toLowerCase "frr-DE") = true /\
  lastClientLanguageRef
    (run pcm16Duration (connected (initialState true))
       [Message (at_ 0) (partialInput "Moin" (Some (Tag "frr-DE")))]) = "en-US".
Proof. repeat split. Qed.

(** A Spanish turn is spoken in French; a French turn after it is spoken
    in Spanish. *)
Example directionality_example :
  spoken (effects
    (run pcm16Duration fallbackSession
       [Message (at_ 0) (partialInput "Hola" (Some (Tag "es-ES")));
        Message (at_ 1) (partialOutput "Bonjour");
        Message (at_ 2) turnCompleteMessage;
        Message (at_ 3) (partialInput "Merci" (Some (Tag "fr-FR")));
        Message (at_ 4) (partialOutput "Gracias");
        Message (at_ 5) turnCompleteMessage]))
  = [("Bonjour", "fr-FR"); ("Gracias", "es-ES")].
Proof. reflexivity. Qed.

(** C5.  The code at a turn detected as [frr-DE]: the input is not in the
    host language, yet the speak-request is routed to the client language
    ([en-US] here) instead of [fr-FR]. *)
Theorem frisian_turn_is_not_spoken_in_french :
  isHostTag "frr-DE" = false /\
  spoken (effects
    (run pcm16Duration fallbackSession
       [Message (at_ 0) (partialInput "Moin" (Some (Tag "frr-DE")));
        Message (at_ 1) (partialOutput "Bonjour");
        Message (at_ 2) turnCompleteMessage]))
  = [("Bonjour", "en-US")].
Proof. split; reflexivity. Qed.

Lemma auto_mode_falls_back_to_en_US_witness :
  spoken (effects
    (step pcm16Duration
       (run pcm16Duration fallbackSession
          [Message (at_ 0) (partialInput "Bonjour" (Some (Tag "fr-FR")));
           Message (at_ 1) (partialOutput "Hello")])
       (Message (at_ 2) turnCompleteMessage)))
  = [("Hello", "en-US")] /\
  effects (snd (speakText "Namaste" false
                  (set_lastClientLanguageRef "hi-IN" fallbackSession)))
  = [Speak "Namaste" "en-US"].
Proof.
  destruct (auto_mode_falls_back_to_en_US pcm16Duration) as (_ & H2 & H3).
  split.
  - refine (proj2 (H2 fallbackSession
                     [Message (at_ 0) (partialInput "Bonjour" (Some (Tag "fr-FR")));
                      Message (at_ 1) (partialOutput "Hello")]
                     (at_ 2) turnCompleteMessage "fr-FR"
                     eq_refl _ eq_refl eq_refl eq_refl eq_refl eq_refl eq_refl eq_refl)).
    intros e tag [<- | [<- | []]] Hobs; cbn in Hobs; [| discriminate].
    injection Hobs as <-. reflexivity.
  - exact (H3 (set_lastClientLanguageRef "hi-IN" fallbackSession) "Namaste"
             eq_refl eq_refl eq_refl).
Defined.

(** ** Faults on concrete messages *)

(** A message whose language tag is not a string makes [handleTranscription]
    throw; the error is logged, the audio of the same message is still
    scheduled and the callback returns normally.  A payload that does not
    decode is logged and schedules nothing. *)
Lemma message_faults_are_isolated_witness :
  let s := connected (initialState true) in
  let message := malformedTagMessage "AAAA" in
  fst (handleTranscription (at_ 0) message s)
    = Thrown (TypeError "toLowerCase is not a function") /\
  effects (step pcm16Duration s (Message (at_ 0) message))
    = [ConsoleError "Error processing transcription message:"; SourceStart 0 0 2] /\
  fst (onmessage pcm16Duration (at_ 0) message s) = Normal tt /\
  effects (snd (audioBlock pcm16Duration (at_ 0) (audioMessage "AAA") s))
    = [ConsoleError "Audio decoding error:"].
Proof.
  intros s message.
  destruct (message_faults_are_isolated pcm16Duration (at_ 0) message s)
    as (_ & Hcatch & _ & _ & Hblocks & Hnormal & _).
  destruct (message_faults_are_isolated pcm16Duration (at_ 0) (audioMessage "AAA") s)
    as (_ & _ & _ & Hdecode & _).
  split; [reflexivity |].
  split.
  - unfold step, dispatch. rewrite Hblocks.
    rewrite (Hcatch (TypeError "toLowerCase is not a function") eq_refl). reflexivity.
  - split; [apply Hnormal; left; reflexivity |].
    apply (Hdecode s "AAA"); [repeat split | reflexivity | reflexivity | reflexivity].
Defined.

(** ** Channel errors on concrete inputs *)

(** C7, as stated, fails: after a configuration error the session is still
    connected, and an error value that is not an [Error] instance shows no
    message at all. *)
Lemma channel_error_neither_terminal_nor_always_shown :
  let s := connected (initialState true) in
  isConnected (step pcm16Duration s (ChannelError (ErrorObject "Invalid argument"))) = true /\
  error (step pcm16Duration s (ChannelError NonError)) = None /\
  error (step pcm16Duration s (ChannelError NonError)) <> Some connectionMessage.
Proof. repeat split. discriminate. Qed.

(** ** [toLowerCase], [trim] and [mapLanguageCodeToLocale] *)

Lemma lowerUnit_idempotent c : Js.lowerUnit (Js.lowerUnit c) = Js.lowerUnit c.
Proof. destruct c as [[] [] [] [] [] [] [] []]; reflexivity. Qed.

Lemma lowerUnit_hyphen c : Ascii.eqb (Js.lowerUnit c) "-" = Ascii.eqb c "-".
Proof. destruct c as [[] [] [] [] [] [] [] []]; reflexivity. Qed.

Lemma toLowerCase_idempotent s : Js.toLowerCase (Js.toLowerCase s) = Js.toLowerCase s.
Proof.
  induction s as [|c r IH]; [reflexivity |].
  simpl. rewrite lowerUnit_idempotent, IH. reflexivity.
Qed.

Lemma splitHead_toLowerCase s :
  Js.splitHead "-" (Js.toLowerCase s) = Js.toLowerCase (Js.splitHead "-" s).
Proof.
  induction s as [|c r IH]; [reflexivity |].
  simpl. rewrite lowerUnit_hyphen. destruct (Ascii.eqb c "-"); [reflexivity |].
  simpl. rewrite IH. reflexivity.
Qed.

Lemma splitHead_idempotent s : Js.splitHead "-" (Js.splitHead "-" s) = Js.splitHead "-" s.
Proof.
  induction s as [|c r IH]; [reflexivity |].
  simpl. destruct (Ascii.eqb c "-") eqn:E; [reflexivity |].
  simpl. rewrite E, IH. reflexivity.
Qed.

Lemma baseCode_idempotent tag : baseCode (baseCode tag) = baseCode tag.
Proof.
  unfold baseCode.
  rewrite splitHead_toLowerCase, splitHead_idempotent. apply toLowerCase_idempotent.
Qed.

Lemma baseCode_toLowerCase tag : baseCode (Js.toLowerCase tag) = baseCode tag.
Proof.
  unfold baseCode. rewrite splitHead_toLowerCase. apply toLowerCase_idempotent.
Qed.

Lemma truthy_true s : Js.truthy s = true <-> s <> EmptyString.
Proof.
  unfold Js.truthy. rewrite negb_true_iff. apply String.eqb_neq.
Qed.

Lemma toLowerCase_truthy s : Js.truthy (Js.toLowerCase s) = Js.truthy s.
Proof. destruct s; reflexivity. Qed.

(** The locale table of [mapLanguageCodeToLocale], read backwards: each
    locale it can return, with the base code that gives it. *)
Lemma mapLanguageCodeToLocale_cases tag locale :
  mapLanguageCodeToLocale tag = Some locale ->
  In (baseCode tag, locale)
    [ ("en", "en-US"); ("fr", "fr-FR"); ("es", "es-ES"); ("de", "de-DE");
      ("it", "it-IT"); ("zh", "zh-CN"); ("ja", "ja-JP"); ("ar", "ar-SA");
      ("ru", "ru-RU"); ("pt", "pt-PT"); ("nl", "nl-NL") ].
Proof.
  unfold mapLanguageCodeToLocale. destruct (negb (Js.truthy tag)); [discriminate |].
  generalize (baseCode tag). intros k. cbn [lookup].
  repeat match goal with
  | |- context [String.eqb k ?x] =>
      destruct (String.eqb_spec k x) as [-> | _];
        [intros H; injection H as <-; cbn; tauto |]
  end.
  discriminate.
Qed.

(** X1: [mapLanguageCodeToLocale] looks only at the base code of the tag,
    whatever its case and its region; a locale it returns is one of the
    eleven locales of [LANGUAGE_LOCALES], has the base code of the tag, and
    is mapped to itself. *)
Theorem mapLanguageCodeToLocale_by_base_code tag :
  mapLanguageCodeToLocale tag = mapLanguageCodeToLocale (baseCode tag) /\
  mapLanguageCodeToLocale (Js.toLowerCase tag) = mapLanguageCodeToLocale tag /\
  (forall locale,
     mapLanguageCodeToLocale tag = Some locale ->
     In locale locales /\ baseCode locale = baseCode tag /\
     mapLanguageCodeToLocale locale = Some locale).
Proof.
  split; [| split].
  - unfold mapLanguageCodeToLocale. rewrite baseCode_idempotent.
    destruct (Js.truthy tag) eqn:Ht; cbn [negb].
    + destruct (Js.truthy (baseCode tag)) eqn:Hb; cbn [negb]; [reflexivity |].
      rewrite (truthy_false _ Hb). reflexivity.
    + rewrite (truthy_false _ Ht). reflexivity.
  - unfold mapLanguageCodeToLocale.
    rewrite baseCode_toLowerCase, toLowerCase_truthy. reflexivity.
  - intros locale H. apply mapLanguageCodeToLocale_cases in H. cbn in H.
    repeat match goal with
    | H : _ \/ _ |- _ => destruct H as [H | H]
    | H : (_, _) = (_, _) |- _ => injection H as <- <-
    | H : False |- _ => contradiction
    end; (split; [cbn; tauto | split; reflexivity]).
Qed.

(** ** Frames of the blocks of [onmessage] and of the other handlers *)

Section Preserves.

Variable P : AppState -> Prop.

Lemma preserves_ret {A} (a : A) : preserves P (ret a).
Proof. intros s H. exact H. Qed.

Lemma preserves_throw {A} e : preserves P (@throw A e).
Proof. intros s H. exact H. Qed.

Lemma preserves_read {A} (g : AppState -> A) : preserves P (read g).
Proof. intros s H. exact H. Qed.

Lemma preserves_modify g : (forall s, P s -> P (g s)) -> preserves P (modify g).
Proof. intros Hg s H. apply Hg, H. Qed.

Lemma preserves_bind {A B} (c : Run A) (k : A -> Run B) :
  preserves P c -> (forall a, preserves P (k a)) -> preserves P (bind c k).
Proof.
  intros Hc Hk s H. unfold bind. specialize (Hc s H).
  destruct (c s) as [[a|e] s']; simpl in *; [apply Hk, Hc | exact Hc].
Qed.

Lemma preserves_tryCatch c h :
  preserves P c -> (forall e, preserves P (h e)) -> preserves P (tryCatch c h).
Proof.
  intros Hc Hh s H. unfold tryCatch. specialize (Hc s H).
  destruct (c s) as [[a|e] s']; simpl in *; [exact Hc | apply Hh, Hc].
Qed.

Lemma preserves_when b c : preserves P c -> preserves P (when b c).
Proof. intros Hc. destruct b; [exact Hc | apply preserves_ret]. Qed.

Lemma preserves_if {A} (b : bool) (c1 c2 : Run A) :
  preserves P c1 -> preserves P c2 -> preserves P (if b then c1 else c2).
Proof. destruct b; auto. Qed.

(** A property of an observation is preserved by what keeps the
    observation. *)
Lemma preserves_keeps {X A} (f : AppState -> X) (c : Run A) :
  (forall s s', f s' = f s -> P s -> P s') -> keeps f c -> preserves P c.
Proof. intros Hf Hk s H. exact (Hf _ _ (Hk s) H). Qed.

End Preserves.

Section PlaybackKeeps.

Context {X : Type} (f : AppState -> X).
Hypothesis pframe : playbackFrame f.
Variable decodeAudioData : string -> option Z.

Lemma emit_keeps e : spoken [e] = [] -> keeps f (emit e).
Proof. intros H. apply keeps_modify. intros s. apply (pframe_effect f pframe), H. Qed.

Lemma speechSynthesisCancel_keeps : keeps f speechSynthesisCancel.
Proof.
  unfold speechSynthesisCancel. apply keeps_bind; [apply keeps_read | intros available].
  destruct available; [apply emit_keeps; reflexivity | apply keeps_throw].
Qed.

Lemma audioBlock_keeps clk message : keeps f (audioBlock decodeAudioData clk message).
Proof.
  unfold audioBlock.
  do 3 (apply keeps_bind; [apply keeps_read | intros ?]).
  apply keeps_when.
  apply keeps_bind;
    [apply keeps_modify; intros s; apply (pframe_cursor f pframe) | intros _].
  apply keeps_tryCatch; [| intros _; apply emit_keeps; reflexivity].
  destruct (inlineData message) as [data|]; [| apply keeps_ret].
  unfold scheduleBuffer. destruct (decodeAudioData data); [| apply keeps_throw].
  apply keeps_bind; [apply keeps_read | intros source].
  apply keeps_bind;
    [apply keeps_modify; intros s; apply (pframe_node f pframe) | intros _].
  apply keeps_bind; [apply keeps_read | intros startAt].
  apply keeps_bind; [apply emit_keeps; reflexivity | intros _].
  apply keeps_bind;
    [apply keeps_modify; intros s; apply (pframe_cursor f pframe) | intros _].
  apply keeps_modify; intros s; apply (pframe_sources f pframe).
Qed.

Lemma interruptedBlock_keeps message : keeps f (interruptedBlock message).
Proof.
  unfold interruptedBlock. apply keeps_when.
  apply keeps_bind; [apply keeps_read | intros active].
  apply keeps_bind;
    [apply keeps_forEach; intros src; apply emit_keeps; reflexivity | intros _].
  apply keeps_bind;
    [apply keeps_modify; intros s; apply (pframe_sources f pframe) | intros _].
  apply keeps_bind;
    [apply keeps_modify; intros s; apply (pframe_cursor f pframe) | intros _].
  apply keeps_bind; [apply keeps_read | intros useTTS].
  apply keeps_when, speechSynthesisCancel_keeps.
Qed.

(** On such an observation a message does what its transcription block
    does. *)
Lemma step_message_keeps clk message s :
  f (step decodeAudioData s (Message clk message)) =
  f (snd (transcriptionBlock clk message s)).
Proof.
  unfold step, dispatch. rewrite onmessage_blocks.
  rewrite interruptedBlock_keeps, audioBlock_keeps. reflexivity.
Qed.

Lemma onended_keeps source : keeps f (onended source).
Proof. apply keeps_modify. intros s. apply (pframe_sources f pframe). Qed.

End PlaybackKeeps.

Lemma settingsView_transcriptionFrame : transcriptionFrame settingsView.
Proof. split; reflexivity. Qed.

Lemma settingsView_playbackFrame : playbackFrame settingsView.
Proof. split; reflexivity. Qed.

Lemma bufferView_playbackFrame : playbackFrame bufferView.
Proof. split; reflexivity. Qed.

Lemma onerror_settings err s : settingsView (snd (onerror err s)) = settingsView s.
Proof.
  unfold onerror, bind, emit, modify. cbn.
  destruct err as [message|]; [| reflexivity].
  destruct (Js.includes "Invalid argument" message); [reflexivity |].
  destruct (Js.includes "Internal error" message); reflexivity.
Qed.

(** No callback of the session changes a setting or the connection flag. *)
Lemma step_settings decodeAudioData s e :
  settingsView (step decodeAudioData s e) = settingsView s.
Proof.
  destruct e as [clk message | source | err].
  - rewrite (step_message_keeps settingsView settingsView_playbackFrame).
    apply (transcriptionBlock_keeps settingsView settingsView_transcriptionFrame).
  - reflexivity.
  - apply onerror_settings.
Qed.

Lemma run_settings decodeAudioData events : forall s,
  settingsView (run decodeAudioData s events) = settingsView s.
Proof.
  induction events as [|e r IH]; intros s; [reflexivity |].
  change (run decodeAudioData s (e :: r))
    with (run decodeAudioData (step decodeAudioData s e) r).
  rewrite IH. apply step_settings.
Qed.

(** ** The user's handlers *)

Ltac keeps_auto :=
  repeat first
    [ apply keeps_ret | apply keeps_throw | apply keeps_read
    | apply keeps_when
    | apply keeps_modify; intros ?; reflexivity
    | apply keeps_bind; [| intros ?]
    | match goal with
      | |- keeps _ (match ?x with _ => _ end) => destruct x
      end ].

(** [disconnect], field by field. *)
Lemma disconnect_state s :
  let s' := snd (disconnect s) in
  audioContextRef s' = false /\ isConnected s' = false /\
  bufferView s' = (EmptyString, EmptyString, EmptyString, EmptyString) /\
  currentInputLanguageRef s' = None /\
  nextStartTimeRef s' = 0 /\ sourcesRef s' = [] /\
  transcripts s' = transcripts s /\
  lastClientLanguageRef s' = lastClientLanguageRef s /\
  useBrowserTTSRef s' = useBrowserTTSRef s /\
  targetLanguageRef s' = targetLanguageRef s /\
  outputAnalyserRef s' = outputAnalyserRef s /\
  speechSynthesisInWindow s' = speechSynthesisInWindow s /\
  error s' = error s /\ nextNode s' = nextNode s /\
  effects s' =
    (effects s ++ (if useBrowserTTSRef s && speechSynthesisInWindow s
                   then [SpeechCancel] else []))%list.
Proof.
  unfold disconnect, bind, modify, read, speechSynthesisCancel. cbn.
  destruct (useBrowserTTSRef s) eqn:Htts; cbn.
  - unfold bind, read. cbn. destruct (speechSynthesisInWindow s) eqn:Hsp; cbn;
      rewrite ?app_nil_r; repeat split; assumption.
  - rewrite app_nil_r. repeat split; assumption.
Qed.

(** [connectToGemini], field by field: it changes the connection flag, the
    displayed error, the two audio refs and the console only. *)
Lemma connectToGemini_frame outcome :
  keeps (fun s => (transcripts s, bufferView s, currentInputLanguageRef s,
                   lastClientLanguageRef s, useBrowserTTSRef s, targetLanguageRef s,
                   speechSynthesisInWindow s, nextStartTimeRef s, sourcesRef s,
                   nextNode s, started (effects s), stopped (effects s),
                   scheduled (effects s), spoken (effects s)))
    (connectToGemini outcome).
Proof.
  assert (Hfail : keeps (fun s => (transcripts s, bufferView s, currentInputLanguageRef s,
                   lastClientLanguageRef s, useBrowserTTSRef s, targetLanguageRef s,
                   speechSynthesisInWindow s, nextStartTimeRef s, sourcesRef s,
                   nextNode s, started (effects s), stopped (effects s),
                   scheduled (effects s), spoken (effects s))) connectFailed).
  { unfold connectFailed. apply keeps_bind; [| intros _; keeps_auto].
    apply keeps_modify. intros s. cbn.
    unfold started, stopped, scheduled, spoken. rewrite !flat_map_app. cbn.
    rewrite !app_nil_r. reflexivity. }
  unfold connectToGemini. apply keeps_bind; [keeps_auto | intros _].
  destruct outcome; try exact Hfail;
    (apply keeps_bind; [keeps_auto | intros _]); try exact Hfail;
    (apply keeps_bind; [keeps_auto | intros _]); try exact Hfail; keeps_auto.
Qed.

(** ** The streaming texts mirror the buffers *)

Lemma inputTranscriptionBlock_mirrored o : preserves mirrored (inputTranscriptionBlock o).
Proof.
  intros s [H1 H2]. destruct o as [[t l]|]; [| split; assumption].
  unfold inputTranscriptionBlock, bind, mirrored. cbn.
  destruct t as [txt|]; [destruct (Js.truthy txt) |]; cbn;
    (destruct l as [[c|]|]; cbn;
     [ destruct (Js.truthy c); cbn; [| split; assumption || reflexivity];
       destruct (Js.startsWith "fr" (Js.toLowerCase c)); cbn;
       split; assumption || reflexivity
     | split; assumption || reflexivity
     | split; assumption || reflexivity ]).
Qed.

Lemma outputTranscriptionBlock_mirrored o : preserves mirrored (outputTranscriptionBlock o).
Proof.
  intros s [H1 H2]. destruct o as [[t l]|]; [| split; assumption].
  unfold outputTranscriptionBlock, mirrored. cbn.
  destruct t as [txt|]; [destruct (Js.truthy txt) |]; cbn;
    split; assumption || reflexivity.
Qed.

Lemma turnCompleteBlock_mirrored clk : preserves mirrored (turnCompleteBlock clk).
Proof.
  intros s [H1 H2]. unfold turnCompleteBlock, bind, read, mirrored. cbn.
  destruct (orEmpty (currentInputLanguageRef s)) as [c|]; cbn; [| split; assumption].
  destruct (Js.truthy (Js.trim (currentInputTransRef s)));
    destruct (Js.truthy (Js.trim (currentOutputTransRef s))); cbn;
    try (destruct (useBrowserTTSRef s); cbn;
         [unfold speakText, bind, read; cbn;
          destruct (speechSynthesisInWindow s); cbn |]);
    split; assumption || reflexivity.
Qed.

Lemma transcriptionBlock_mirrored clk message :
  preserves mirrored (transcriptionBlock clk message).
Proof.
  unfold transcriptionBlock. apply preserves_tryCatch.
  - unfold handleTranscription.
    apply preserves_bind; [apply inputTranscriptionBlock_mirrored | intros _].
    apply preserves_bind; [apply outputTranscriptionBlock_mirrored | intros _].
    apply preserves_when, turnCompleteBlock_mirrored.
  - intros _. apply preserves_modify. intros s H. exact H.
Qed.

Lemma mirrored_bufferView s s' : bufferView s' = bufferView s -> mirrored s -> mirrored s'.
Proof.
  unfold bufferView, mirrored. intros H [H1 H2]. injection H as -> -> -> ->.
  split; assumption.
Qed.

Section Mirrored.

Variable decodeAudioData : string -> option Z.

Lemma step_mirrored s e : mirrored s -> mirrored (step decodeAudioData s e).
Proof.
  intros H. destruct e as [clk message | source | err].
  - eapply mirrored_bufferView;
      [apply (step_message_keeps bufferView bufferView_playbackFrame) |].
    apply transcriptionBlock_mirrored, H.
  - exact H.
  - unfold step, dispatch, onerror, bind, emit, modify. cbn.
    destruct err as [message|]; [| exact H].
    destruct (Js.includes "Invalid argument" message); [exact H |].
    destruct (Js.includes "Internal error" message); exact H.
Qed.

Lemma act_mirrored s a : mirrored s -> mirrored (act decodeAudioData s a).
Proof.
  intros H. destruct a as [e | button | | | index | outcome | |]; unfold act, perform.
  - apply step_mirrored, H.
  - destruct (nth_error LANGUAGES button); exact H.
  - exact H.
  - unfold replayLastOutput, bind, read. cbn.
    destruct (find isModel (rev (transcripts s))); [| exact H].
    destruct (speechSynthesisInWindow s); exact H.
  - unfold bind, read. cbn. destruct (nth_error (transcripts s) index) as [item|]; [| exact H].
    destruct (hasSpeakButton item); [| exact H].
    unfold handleSpeak, bind, read. cbn. destruct (speechSynthesisInWindow s); exact H.
  - unfold bind, read. cbn. destruct (isConnected s).
    + destruct (disconnect_state s) as (_ & _ & Hb & _). cbv zeta in Hb.
      unfold bufferView in Hb. injection Hb as B1 B2 B3 B4.
      split; congruence.
    + eapply mirrored_bufferView; [| exact H].
      pose proof (connectToGemini_frame outcome s) as Hk. cbv beta in Hk.
      congruence.
  - exact H.
  - exact H.
Qed.

(** X2: in every state a session reaches from the initial state, the two
    streaming texts shown are exactly the two accumulation buffers. *)
Theorem streaming_texts_mirror_buffers speech actions :
  let s := session decodeAudioData (initialState speech) actions in
  streamingUserText s = currentInputTransRef s /\
  streamingModelText s = currentOutputTransRef s.
Proof.
  cbv zeta. change (mirrored (session decodeAudioData (initialState speech) actions)).
  assert (H0 : mirrored (initialState speech)) by (split; reflexivity).
  revert H0. generalize (initialState speech).
  induction actions as [|a r IH]; intros s H; [exact H |].
  apply IH, act_mirrored, H.
Qed.

End Mirrored.

(** ** The history *)

Lemma trimStart_length s : (String.length (Js.trimStart s) <= String.length s)%nat.
Proof.
  induction s as [|c r IH]; [apply le_n |].
  simpl. destruct (Js.isWhiteSpace c); [apply le_S, IH | apply le_n].
Qed.

Lemma trimStart_idempotent s : Js.trimStart (Js.trimStart s) = Js.trimStart s.
Proof.
  induction s as [|c r IH]; [reflexivity |].
  simpl. destruct (Js.isWhiteSpace c) eqn:E; [exact IH |].
  simpl. rewrite E. reflexivity.
Qed.

Lemma trimEnd_idempotent s : Js.trimEnd (Js.trimEnd s) = Js.trimEnd s.
Proof.
  induction s as [|c r IH]; [reflexivity |].
  simpl. destruct (Js.trimEnd r) as [|c' r'] eqn:E.
  - destruct (Js.isWhiteSpace c) eqn:W; [reflexivity |]. simpl. rewrite W. reflexivity.
  - simpl in IH |- *. rewrite IH. reflexivity.
Qed.

(** [trimEnd] leaves a first unit that is not white space where it is. *)
Lemma trimStart_trimEnd s :
  Js.trimStart s = s -> Js.trimStart (Js.trimEnd s) = Js.trimEnd s.
Proof.
  destruct s as [|c r]; [reflexivity |]. intros H.
  assert (W : Js.isWhiteSpace c = false).
  { simpl in H. destruct (Js.isWhiteSpace c); [| reflexivity].
    pose proof (trimStart_length r) as L. rewrite H in L. simpl in L. lia. }
  simpl. destruct (Js.trimEnd r); rewrite ?W; simpl; rewrite ?W; reflexivity.
Qed.

Lemma trim_idempotent s : Js.trim (Js.trim s) = Js.trim s.
Proof.
  unfold Js.trim.
  rewrite (trimStart_trimEnd (Js.trimStart s) (trimStart_idempotent s)).
  apply trimEnd_idempotent.
Qed.

Lemma extendsHistory_keeps {A} (c : Run A) : keeps transcripts c -> extendsHistory c.
Proof. intros H s. exists []. rewrite app_nil_r. split; [apply H | constructor]. Qed.

Lemma extendsHistory_bind {A B} (c : Run A) (k : A -> Run B) :
  extendsHistory c -> (forall a, extendsHistory (k a)) -> extendsHistory (bind c k).
Proof.
  intros Hc Hk s. unfold bind. destruct (Hc s) as (r1 & E1 & F1).
  destruct (c s) as [[a|e] s']; simpl in *.
  - destruct (Hk a s') as (r2 & E2 & F2). exists (r1 ++ r2)%list.
    rewrite E2, E1, app_assoc. split; [reflexivity | apply Forall_app; split; assumption].
  - exists r1. split; assumption.
Qed.

Lemma extendsHistory_tryCatch c h :
  extendsHistory c -> (forall e, extendsHistory (h e)) -> extendsHistory (tryCatch c h).
Proof.
  intros Hc Hh s. unfold tryCatch. destruct (Hc s) as (r1 & E1 & F1).
  destruct (c s) as [[a|e] s']; simpl in *.
  - exists r1. split; assumption.
  - destruct (Hh e s') as (r2 & E2 & F2). exists (r1 ++ r2)%list.
    rewrite E2, E1, app_assoc. split; [reflexivity | apply Forall_app; split; assumption].
Qed.

Lemma turnCompleteBlock_extendsHistory clk : extendsHistory (turnCompleteBlock clk).
Proof.
  intros s. destruct (orEmpty (currentInputLanguageRef s)) as [c|] eqn:Hor.
  - destruct (turnCompleteBlock_state clk s c Hor) as (_ & Ht & _). cbv zeta in Ht.
    eexists. split; [exact Ht |].
    apply Forall_app. split.
    + destruct (Js.truthy (Js.trim (currentInputTransRef s))) eqn:E; constructor;
        [| constructor].
      repeat split; [exact E | apply trim_idempotent].
    + destruct (Js.truthy (Js.trim (currentOutputTransRef s))) eqn:E; constructor;
        [| constructor].
      repeat split; [exact E | apply trim_idempotent].
  - rewrite (turnCompleteBlock_throws clk s Hor). exists []. rewrite app_nil_r.
    split; [reflexivity | constructor].
Qed.

Lemma transcriptionBlock_extendsHistory clk message :
  extendsHistory (transcriptionBlock clk message).
Proof.
  unfold transcriptionBlock. apply extendsHistory_tryCatch.
  - unfold handleTranscription.
    apply extendsHistory_bind; [| intros _; apply extendsHistory_bind; [| intros _]].
    + apply extendsHistory_keeps. intros s.
      apply (inputTranscriptionBlock_state (inputTranscription message) s).
    + apply extendsHistory_keeps. intros s.
      apply (outputTranscriptionBlock_state (outputTranscription message) s).
    + destruct (turnComplete message); cbn [when];
        [apply turnCompleteBlock_extendsHistory | apply extendsHistory_keeps, keeps_ret].
  - intros _. apply extendsHistory_keeps. apply keeps_modify. reflexivity.
Qed.

Lemma transcripts_playbackFrame : playbackFrame transcripts.
Proof. split; reflexivity. Qed.

Lemma session_invariant decodeAudioData (P : AppState -> Prop) :
  (forall s a, P s -> P (act decodeAudioData s a)) ->
  forall actions s, P s -> P (session decodeAudioData s actions).
Proof.
  intros Hact. induction actions as [|a r IH]; intros s H; [exact H |].
  apply IH, Hact, H.
Qed.

Section History.

Variable decodeAudioData : string -> option Z.

Lemma act_extendsHistory a : extendsHistory (perform decodeAudioData a).
Proof.
  destruct a as [e | button | | | index | outcome | |]; unfold perform.
  - destruct e as [clk message | source | err]; unfold dispatch.
    + intros s.
      destruct (transcriptionBlock_extendsHistory clk message s) as (rest & E & F).
      exists rest. split; [| exact F]. rewrite <- E.
      apply (step_message_keeps transcripts transcripts_playbackFrame).
    + apply extendsHistory_keeps. apply keeps_modify. reflexivity.
    + apply extendsHistory_keeps. unfold onerror. keeps_auto.
  - apply extendsHistory_keeps. unfold onLanguageChange. keeps_auto.
  - apply extendsHistory_keeps. unfold onTTSChange. keeps_auto.
  - apply extendsHistory_keeps. unfold replayLastOutput. keeps_auto.
  - apply extendsHistory_keeps. unfold handleSpeak. keeps_auto.
  - apply extendsHistory_keeps. apply keeps_bind; [apply keeps_read | intros isOpen].
    destruct isOpen.
    + intros s. apply (disconnect_state s).
    + intros s. pose proof (connectToGemini_frame outcome s) as H. cbv beta in H.
      congruence.
  - apply extendsHistory_keeps. apply keeps_modify. reflexivity.
  - apply extendsHistory_keeps. apply keeps_modify. reflexivity.
Qed.

(** X3: the history is append-only: whatever the user and the remote side do
    next, the entries already in the history stay, in order, at its
    front (also across a disconnect). *)
Theorem history_is_append_only s actions :
  exists rest,
    transcripts (session decodeAudioData s actions) = (transcripts s ++ rest)%list.
Proof.
  revert s. induction actions as [|a r IH]; intros s.
  - exists []. rewrite app_nil_r. reflexivity.
  - destruct (act_extendsHistory a s) as (r1 & E1 & _).
    destruct (IH (act decodeAudioData s a)) as (r2 & E2).
    exists (r1 ++ r2)%list.
    change (session decodeAudioData s (a :: r))
      with (session decodeAudioData (act decodeAudioData s a) r).
    rewrite E2. unfold act. rewrite E1, app_assoc. reflexivity.
Qed.

(** X4: every entry of the history of a session is final and carries a
    non-empty text without white space at either end. *)
Theorem history_entries_are_finalized speech actions :
  Forall finalized
    (transcripts (session decodeAudioData (initialState speech) actions)).
Proof.
  apply (session_invariant decodeAudioData (fun s => Forall finalized (transcripts s)));
    [| constructor].
  intros s a H. destruct (act_extendsHistory a s) as (rest & E & F).
  unfold act. rewrite E. apply Forall_app. split; assumption.
Qed.

End History.

(** ** What the user's actions change *)

Lemma log_views_emit e s :
  started [e] = [] -> stopped [e] = [] -> scheduled [e] = [] ->
  let s' := set_effects (effects s ++ [e]) s in
  started (effects s') = started (effects s) /\
  stopped (effects s') = stopped (effects s) /\
  scheduled (effects s') = scheduled (effects s).
Proof.
  intros H1 H2 H3. cbn. unfold started, stopped, scheduled in *.
  rewrite !flat_map_app, H1, H2, H3, !app_nil_r. repeat split.
Qed.

Section UserActions.

Variable decodeAudioData : string -> option Z.

(** An action of the user leaves the history, the remembered client
    language, the allocation counter and the audio commands of the log as
    they are; it can empty the active set and reset the cursor (a
    disconnect), pick a target among [LANGUAGES], and add speak-requests. *)
Lemma user_action_state a s :
  (forall e, a <> Remote e) ->
  let s' := act decodeAudioData s a in
  transcripts s' = transcripts s /\
  lastClientLanguageRef s' = lastClientLanguageRef s /\
  nextNode s' = nextNode s /\
  speechSynthesisInWindow s' = speechSynthesisInWindow s /\
  started (effects s') = started (effects s) /\
  stopped (effects s') = stopped (effects s) /\
  scheduled (effects s') = scheduled (effects s) /\
  (sourcesRef s' = sourcesRef s \/ sourcesRef s' = []) /\
  (nextStartTimeRef s' = nextStartTimeRef s \/ nextStartTimeRef s' = 0) /\
  (targetLanguageRef s' = targetLanguageRef s \/ In (targetLanguageRef s') LANGUAGES).
Proof.
  intros Hui. destruct a as [e | button | | | index | outcome | |]; unfold act, perform.
  - contradiction (Hui e). reflexivity.
  - destruct (nth_error LANGUAGES button) as [code|] eqn:E; cbn.
    + repeat split; auto. right. exact (nth_error_In LANGUAGES button E).
    + repeat split; auto.
  - cbn. repeat split; auto.
  - unfold replayLastOutput, bind, read. cbn.
    destruct (find isModel (rev (transcripts s))) as [m|]; [| cbn; repeat split; auto].
    destruct (speechSynthesisInWindow s) eqn:Hsp; cbn; [| repeat split; auto].
    unfold started, stopped, scheduled. rewrite !flat_map_app. cbn.
    rewrite !app_nil_r. repeat split; auto.
  - unfold bind, read. cbn.
    destruct (nth_error (transcripts s) index) as [item|]; [| cbn; repeat split; auto].
    destruct (hasSpeakButton item); [| cbn; repeat split; auto].
    unfold handleSpeak, bind, read. cbn.
    destruct (speechSynthesisInWindow s) eqn:Hsp; cbn; [| repeat split; auto].
    unfold started, stopped, scheduled. rewrite !flat_map_app. cbn.
    rewrite !app_nil_r. repeat split; auto.
  - unfold bind, read. cbn. destruct (isConnected s).
    + destruct (disconnect_state s)
        as (_ & _ & _ & _ & Hc & Hs & Ht & Hl & _ & Hg & _ & Hp & _ & Hn & He).
      cbv zeta in *. rewrite Ht, Hl, Hn, Hp, He, Hc, Hs, Hg.
      unfold started, stopped, scheduled. rewrite !flat_map_app.
      destruct (useBrowserTTSRef s && speechSynthesisInWindow s); cbn;
        rewrite !app_nil_r; repeat split; auto.
    + pose proof (connectToGemini_frame outcome s) as H. cbv beta in H.
      injection H; intros. repeat split; auto.
  - cbn. repeat split; auto.
  - cbn. repeat split; auto.
Qed.

End UserActions.

(** ** The remembered client language and the target *)

Lemma french_locale_has_base_fr tag :
  mapLanguageCodeToLocale tag = Some "fr-FR" -> isHostTag tag = true.
Proof.
  intros H. apply mapLanguageCodeToLocale_cases in H. unfold isHostTag.
  apply String.eqb_eq. cbn in H.
  repeat (destruct H as [H | H];
          [injection H; intros; try discriminate; congruence |]).
  contradiction.
Qed.

Section ClientLanguage.

Variable decodeAudioData : string -> option Z.

Lemma act_lastClient_not_french s a :
  Js.startsWith "fr" (Js.toLowerCase (lastClientLanguageRef s)) = false ->
  Js.startsWith "fr" (Js.toLowerCase (lastClientLanguageRef (act decodeAudioData s a))) = false.
Proof.
  intros H. destruct a as [e | | | | | | |].
  - unfold act, perform. change (snd (dispatch decodeAudioData e s))
      with (step decodeAudioData s e).
    rewrite step_lastClient. unfold rememberClient.
    destruct (observedTag e) as [[c|]|]; try exact H.
    destruct (Js.startsWith "fr" (Js.toLowerCase c)) eqn:E; [exact H | exact E].
  - destruct (user_action_state decodeAudioData (SelectLanguage button) s) as (_ & -> & _);
      [discriminate | exact H].
  - destruct (user_action_state decodeAudioData SwitchTTS s) as (_ & -> & _);
      [discriminate | exact H].
  - destruct (user_action_state decodeAudioData Replay s) as (_ & -> & _);
      [discriminate | exact H].
  - destruct (user_action_state decodeAudioData (SpeakItem index) s) as (_ & -> & _);
      [discriminate | exact H].
  - destruct (user_action_state decodeAudioData (ClickConnect outcome) s) as (_ & -> & _);
      [discriminate | exact H].
  - exact H.
  - exact H.
Qed.

(** X5: in a session the remembered client language never passes the
    French test, so [mapLanguageCodeToLocale] never gives [fr-FR] for it and
    in Auto mode a speak-request routed to the client language never
    carries [fr-FR]. *)
Theorem client_language_is_never_french speech actions :
  let s := session decodeAudioData (initialState speech) actions in
  Js.startsWith "fr" (Js.toLowerCase (lastClientLanguageRef s)) = false /\
  mapLanguageCodeToLocale (lastClientLanguageRef s) <> Some "fr-FR" /\
  utteranceLang false "Auto" (lastClientLanguageRef s) <> "fr-FR".
Proof.
  cbv zeta.
  assert (H : Js.startsWith "fr"
                (Js.toLowerCase
                   (lastClientLanguageRef
                      (session decodeAudioData (initialState speech) actions))) = false).
  { apply (session_invariant decodeAudioData
             (fun s => Js.startsWith "fr" (Js.toLowerCase (lastClientLanguageRef s)) = false));
      [apply act_lastClient_not_french | reflexivity]. }
  assert (Hmap : mapLanguageCodeToLocale
                   (lastClientLanguageRef
                      (session decodeAudioData (initialState speech) actions))
                 <> Some "fr-FR").
  { intros Hm. apply french_locale_has_base_fr, host_tag_starts_with_fr in Hm. congruence. }
  split; [exact H |]. split; [exact Hmap |].
  unfold utteranceLang. cbn [negb String.eqb Ascii.eqb Bool.eqb].
  destruct (mapLanguageCodeToLocale
              (lastClientLanguageRef
                 (session decodeAudioData (initialState speech) actions)))
    as [l|]; [| discriminate].
  intros ->. apply Hmap. reflexivity.
Qed.

Lemma act_target s a :
  In (targetLanguageRef s) LANGUAGES ->
  In (targetLanguageRef (act decodeAudioData s a)) LANGUAGES.
Proof.
  intros H. destruct a as [e | | | | | | |].
  - unfold act, perform. change (snd (dispatch decodeAudioData e s))
      with (step decodeAudioData s e).
    pose proof (step_settings decodeAudioData s e) as Hs. unfold settingsView in Hs.
    injection Hs as _ -> _ _ _ _. exact H.
  - destruct (user_action_state decodeAudioData (SelectLanguage button) s)
      as (_ & _ & _ & _ & _ & _ & _ & _ & _ & [-> | Ht]); [discriminate | exact H | exact Ht].
  - destruct (user_action_state decodeAudioData SwitchTTS s)
      as (_ & _ & _ & _ & _ & _ & _ & _ & _ & [-> | Ht]); [discriminate | exact H | exact Ht].
  - destruct (user_action_state decodeAudioData Replay s)
      as (_ & _ & _ & _ & _ & _ & _ & _ & _ & [-> | Ht]); [discriminate | exact H | exact Ht].
  - destruct (user_action_state decodeAudioData (SpeakItem index) s)
      as (_ & _ & _ & _ & _ & _ & _ & _ & _ & [-> | Ht]); [discriminate | exact H | exact Ht].
  - destruct (user_action_state decodeAudioData (ClickConnect outcome) s)
      as (_ & _ & _ & _ & _ & _ & _ & _ & _ & [-> | Ht]); [discriminate | exact H | exact Ht].
  - exact H.
  - exact H.
Qed.

(** X6: in a session the target is always one of the codes of the settings
    panel; unless it is [Auto] it has a locale in [LANGUAGE_LOCALES], and a
    speak-request routed to the client language carries that locale
    whatever client language was detected. *)
Theorem explicit_target_decides_client_locale speech actions :
  let s := session decodeAudioData (initialState speech) actions in
  In (targetLanguageRef s) LANGUAGES /\
  (targetLanguageRef s = "Auto" \/
   exists locale,
     lookup (targetLanguageRef s) LANGUAGE_LOCALES = Some locale /\
     forall lastClient, utteranceLang false (targetLanguageRef s) lastClient = locale).
Proof.
  cbv zeta.
  assert (H : In (targetLanguageRef
                    (session decodeAudioData (initialState speech) actions)) LANGUAGES).
  { apply (session_invariant decodeAudioData (fun s => In (targetLanguageRef s) LANGUAGES));
      [apply act_target | left; reflexivity]. }
  split; [exact H |].
  generalize dependent (targetLanguageRef
                          (session decodeAudioData (initialState speech) actions)).
  intros target H. cbn in H.
  repeat (destruct H as [<- | H]; [first [left; reflexivity
    | right; eexists; split; [reflexivity | intros lastClient; reflexivity]] |]).
  contradiction.
Qed.

End ClientLanguage.

(** ** Playback and fallback speech exclude each other *)

Lemma lookup_In k table v : lookup k table = Some v -> In v (map snd table).
Proof.
  induction table as [|[k' v'] r IH]; [discriminate |].
  simpl. destruct (String.eqb k k'); [intros H; injection H as ->; left; reflexivity |].
  intros H. right. apply IH, H.
Qed.

(** Whatever its arguments, [utteranceLang] gives one of the eleven
    locales. *)
Lemma utteranceLang_locale isFrenchOutput currentTarget lastClient :
  In (utteranceLang isFrenchOutput currentTarget lastClient) locales.
Proof.
  unfold utteranceLang. destruct isFrenchOutput; [cbn; tauto |].
  destruct (if negb (String.eqb currentTarget "Auto")
            then lookup currentTarget LANGUAGE_LOCALES else None) as [locale|] eqn:E.
  - destruct (negb (String.eqb currentTarget "Auto")); [| discriminate].
    apply (lookup_In _ _ _ E).
  - destruct (mapLanguageCodeToLocale lastClient) as [d|] eqn:M; [| cbn; tauto].
    apply mapLanguageCodeToLocale_cases in M. cbn in M. cbn.
    repeat (destruct M as [M | M]; [injection M as _ <-; tauto |]).
    contradiction.
Qed.

(** The speak-requests of the transcription block of one message: at most
    one, only at a turn-complete with fallback speech on, for a non-empty
    text and one of the eleven locales. *)
Lemma transcriptionBlock_spoken clk message s :
  exists extra,
    spoken (effects (snd (transcriptionBlock clk message s))) =
      (spoken (effects s) ++ extra)%list /\
    (List.length extra <= 1)%nat /\
    (forall u l, In (u, l) extra ->
       turnComplete message = true /\ useBrowserTTSRef s = true /\
       speechSynthesisInWindow s = true /\ Js.truthy u = true /\ In l locales).
Proof.
  assert (Hnone : forall sp, sp = spoken (effects s) ->
            exists extra, sp = (spoken (effects s) ++ extra)%list /\
              (List.length extra <= 1)%nat /\
              (forall u l, In (u, l) extra ->
                 turnComplete message = true /\ useBrowserTTSRef s = true /\
                 speechSynthesisInWindow s = true /\ Js.truthy u = true /\ In l locales)).
  { intros sp H. exists []. rewrite app_nil_r. split; [exact H |].
    split; [cbn; lia | intros u l []]. }
  assert (Hcatch : forall s1,
            spoken (effects (set_effects
               (effects s1 ++ [ConsoleError "Error processing transcription message:"]) s1))
            = spoken (effects s1)).
  { intros s1. cbn. rewrite spoken_app. cbn. apply app_nil_r. }
  unfold transcriptionBlock, tryCatch, handleTranscription, bind.
  pose proof (inputTranscriptionBlock_keeps settingsView settingsView_transcriptionFrame
                (inputTranscription message) s) as K1.
  destruct (inputTranscriptionBlock_state (inputTranscription message) s)
    as (_ & _ & _ & _ & _ & E1). cbv zeta in E1.
  destruct (inputTranscriptionBlock (inputTranscription message) s) as [[[]|e1] s1];
    cbn [fst snd] in *.
  2:{ apply Hnone. unfold emit, modify. cbn [snd]. rewrite Hcatch, E1. reflexivity. }
  pose proof (outputTranscriptionBlock_keeps settingsView settingsView_transcriptionFrame
                (outputTranscription message) s1) as K2.
  destruct (outputTranscriptionBlock_state (outputTranscription message) s1)
    as (Hn & _ & _ & _ & _ & _ & E2). cbv zeta in E2.
  destruct (outputTranscriptionBlock (outputTranscription message) s1) as [c2 s2].
  cbn [fst snd] in *. subst c2.
  destruct (turnComplete message) eqn:Htc; cbn [when].
  2:{ apply Hnone. cbn. congruence. }
  destruct (orEmpty (currentInputLanguageRef s2)) as [c|] eqn:Hor.
  - destruct (turnCompleteBlock_state clk s2 c Hor) as (G1 & _ & _ & _ & _ & _ & G7).
    cbv zeta in G7.
    destruct (turnCompleteBlock clk s2) as [c3 s3]. cbn [fst snd] in *. subst c3.
    cbn [snd]. rewrite G7, spoken_app, E2, E1.
    unfold settingsView in K1, K2. injection K1 as T1 _ _ _ P1 _.
    injection K2 as T2 _ _ _ P2 _.
    rewrite T2, T1, P2, P1.
    destruct (Js.truthy (Js.trim (currentOutputTransRef s2))) eqn:Hout; cbn [andb];
      [| apply Hnone; cbn; rewrite app_nil_r; reflexivity].
    destruct (useBrowserTTSRef s) eqn:Htts; cbn [andb];
      [| apply Hnone; cbn; rewrite app_nil_r; reflexivity].
    destruct (speechSynthesisInWindow s) eqn:Hsp;
      [| apply Hnone; cbn; rewrite app_nil_r; reflexivity].
    eexists. split; [reflexivity |]. split; [cbn; lia |].
    intros u l [H | []]. injection H as <- <-.
    repeat split; try assumption. apply utteranceLang_locale.
  - rewrite (turnCompleteBlock_throws clk s2 Hor). apply Hnone.
    unfold emit, modify. cbn [snd]. rewrite Hcatch. congruence.
Qed.

Lemma spoken_playbackFrame : playbackFrame (fun s => spoken (effects s)).
Proof.
  split; try reflexivity. intros e s H. cbn. rewrite spoken_app, H. apply app_nil_r.
Qed.

Section Exclusion.

Variable decodeAudioData : string -> option Z.

Lemma step_spoken s e :
  exists extra,
    spoken (effects (step decodeAudioData s e)) = (spoken (effects s) ++ extra)%list /\
    (List.length extra <= 1)%nat /\
    (forall u l, In (u, l) extra ->
       useBrowserTTSRef s = true /\ speechSynthesisInWindow s = true /\
       Js.truthy u = true /\ In l locales).
Proof.
  destruct e as [clk message | source | err].
  - destruct (transcriptionBlock_spoken clk message s) as (extra & E & L & H).
    exists extra.
    rewrite (step_message_keeps (fun s => spoken (effects s)) spoken_playbackFrame).
    split; [exact E |]. split; [exact L |].
    intros u l Hin. destruct (H u l Hin) as (_ & H2). exact H2.
  - exists []. rewrite app_nil_r. split; [reflexivity |]. split; [cbn; lia | intros u l []].
  - exists []. rewrite app_nil_r. split; [| split; [cbn; lia | intros u l []]].
    unfold step, dispatch, onerror, bind, emit, modify. cbn.
    destruct err as [message|]; cbn; [| rewrite spoken_app; cbn; apply app_nil_r].
    destruct (Js.includes "Invalid argument" message); cbn;
      [rewrite spoken_app; cbn; apply app_nil_r |].
    destruct (Js.includes "Internal error" message); cbn;
      rewrite !spoken_app; cbn; rewrite ?app_nil_r; reflexivity.
Qed.

Lemma step_playback_off s e :
  ~ playbackOn s ->
  scheduled (effects (step decodeAudioData s e)) = scheduled (effects s) /\
  (forall node, In node (sourcesRef (step decodeAudioData s e)) -> In node (sourcesRef s)).
Proof.
  intros Hoff. destruct e as [clk message | source | err].
  - unfold step, dispatch. rewrite onmessage_blocks.
    pose proof (transcriptionBlock_keeps schedulerView schedulerView_frame clk message s) as Hv.
    set (s1 := snd (transcriptionBlock clk message s)) in *.
    assert (Hg : negb (useBrowserTTSRef s1) && optTruthy (inlineData message)
                 && audioContextRef s1 && outputAnalyserRef s1 = false).
    { destruct (negb (useBrowserTTSRef s1) && optTruthy (inlineData message)
                && audioContextRef s1 && outputAnalyserRef s1) eqn:G; [| reflexivity].
      destruct (audioBlock_guard _ _ G) as [Hon _].
      contradiction Hoff. apply (playbackOn_view s1 s); [| exact Hon].
      symmetry. exact Hv. }
    rewrite (audioBlock_skip decodeAudioData clk message s1 Hg). cbn [snd].
    rewrite interruptedBlock_scheduled.
    unfold schedulerView in Hv. injection Hv as _ Hsrc _ _ _ _ _ Hb.
    split; [exact Hb |].
    intros node. destruct (interrupted message) eqn:Hint.
    + destruct (interruptedBlock_flush message s1 Hint) as (_ & -> & _). intros [].
    + rewrite (interruptedBlock_skip _ _ Hint). cbn [snd]. rewrite Hsrc. auto.
  - split; [reflexivity |]. intros node. cbn. unfold setDelete.
    rewrite filter_In. tauto.
  - destruct (onerror_view decodeAudioData err s) as (_ & He & _). cbv zeta in He.
    split; [exact He |].
    unfold step, dispatch, onerror, bind, emit, modify. cbn.
    destruct err as [message|]; cbn; [| auto].
    destruct (Js.includes "Invalid argument" message); cbn; [auto |].
    destruct (Js.includes "Internal error" message); cbn; auto.
Qed.

Lemma playbackOn_settings s s' : settingsView s' = settingsView s -> playbackOn s' -> playbackOn s.
Proof.
  unfold settingsView, playbackOn. intros H. injection H as -> _ -> -> _ _. auto.
Qed.

Lemma run_exclusion events : forall s,
  (~ playbackOn s ->
   scheduled (effects (run decodeAudioData s events)) = scheduled (effects s) /\
   forall node, In node (sourcesRef (run decodeAudioData s events)) ->
                In node (sourcesRef s)) /\
  (useBrowserTTSRef s = false ->
   spoken (effects (run decodeAudioData s events)) = spoken (effects s)).
Proof.
  induction events as [|e r IH]; intros s; [split; intros; [split |]; auto |].
  change (run decodeAudioData s (e :: r))
    with (run decodeAudioData (step decodeAudioData s e) r).
  pose proof (step_settings decodeAudioData s e) as Hset.
  destruct (IH (step decodeAudioData s e)) as [IH1 IH2]. split.
  - intros Hoff. destruct (step_playback_off s e Hoff) as [H1 H2].
    destruct IH1 as [I1 I2].
    { intros Hon. apply Hoff. eapply playbackOn_settings; eassumption. }
    split; [congruence | auto].
  - intros Htts. rewrite IH2.
    + destruct (step_spoken s e) as (extra & E & _ & H).
      destruct extra as [|[u l] x]; [rewrite app_nil_r in E; exact E |].
      destruct (H u l (or_introl eq_refl)) as (Hc & _). congruence.
    + unfold settingsView in Hset. injection Hset as -> _ _ _ _ _. exact Htts.
Qed.

(** X7: while fallback speech is on, or the audio context or the analyser
    is missing, no message, however many arrive, hands a buffer to the
    device or adds a source to the active set; while fallback speech is
    off, no message issues a speak-request. *)
Theorem playback_and_fallback_speech_exclude_each_other s events :
  (~ playbackOn s ->
   scheduled (effects (run decodeAudioData s events)) = scheduled (effects s) /\
   forall node, In node (sourcesRef (run decodeAudioData s events)) ->
                In node (sourcesRef s)) /\
  (useBrowserTTSRef s = false ->
   spoken (effects (run decodeAudioData s events)) = spoken (effects s)).
Proof. apply run_exclusion. Qed.

End Exclusion.

(** ** More on [onmessage] and [disconnect] *)

Section MoreOnMessages.

Variable decodeAudioData : string -> option Z.

(** X8: every speak-request that messages add to the log carries a
    non-empty text and one of the eleven locales of [LANGUAGE_LOCALES],
    when the target is one of the codes of the settings panel and neither
    the remembered client tag nor a tag delivered in the run has a base
    code that an object inherits from [Object.prototype] (for those the
    code reads a value that is not a string where [lookup] finds
    nothing). *)
Theorem fallback_requests_carry_a_locale events : forall s u l,
  In (targetLanguageRef s) LANGUAGES ->
  plainTag (lastClientLanguageRef s) ->
  Forall plainTagged events ->
  In (u, l) (spoken (effects (run decodeAudioData s events))) ->
  In (u, l) (spoken (effects s)) \/ (Js.truthy u = true /\ In l locales).
Proof.
  induction events as [|e r IH]; intros s u l Htarget Hlast Hall H; [left; exact H |].
  inversion Hall as [|? ? He Hr]; subst.
  change (run decodeAudioData s (e :: r))
    with (run decodeAudioData (step decodeAudioData s e) r) in H.
  assert (Htarget1 : In (targetLanguageRef (step decodeAudioData s e)) LANGUAGES).
  { pose proof (step_settings decodeAudioData s e) as Hs. unfold settingsView in Hs.
    injection Hs as _ -> _ _ _ _. exact Htarget. }
  assert (Hlast1 : plainTag (lastClientLanguageRef (step decodeAudioData s e))).
  { rewrite step_lastClient. unfold rememberClient.
    destruct (observedTag e) as [[c|]|] eqn:Hobs; try exact Hlast.
    destruct (Js.startsWith "fr" (Js.toLowerCase c)); [exact Hlast | exact (He c Hobs)]. }
  destruct (IH _ _ _ Htarget1 Hlast1 Hr H) as [Hin | Hnew]; [| right; exact Hnew].
  destruct (step_spoken decodeAudioData s e) as (extra & E & _ & Hex).
  rewrite E in Hin. apply in_app_or in Hin as [Hin | Hin]; [left; exact Hin |].
  right. destruct (Hex u l Hin) as (_ & _ & Hu & Hl). split; assumption.
Qed.

Lemma message_settings clk message s :
  let s2 := snd (audioBlock decodeAudioData clk message
                   (snd (transcriptionBlock clk message s))) in
  settingsView s2 = settingsView s.
Proof.
  cbv zeta. rewrite (audioBlock_keeps settingsView settingsView_playbackFrame).
  apply (transcriptionBlock_keeps settingsView settingsView_transcriptionFrame).
Qed.

(** X9: [onmessage] lets an exception out in one case only: the message is
    an interruption, fallback speech is on and [window] has no
    [speechSynthesis]; the exception is then the [TypeError] of the unguarded
    [speechSynthesis.cancel()]. *)
Theorem onmessage_throws_only_on_unguarded_cancel clk message s :
  fst (onmessage decodeAudioData clk message s) =
  if interrupted message && useBrowserTTSRef s && negb (speechSynthesisInWindow s)
  then Thrown (TypeError "window.speechSynthesis is undefined")
  else Normal tt.
Proof.
  rewrite onmessage_blocks.
  pose proof (message_settings clk message s) as Hset. cbv zeta in Hset.
  set (s2 := snd (audioBlock decodeAudioData clk message
                    (snd (transcriptionBlock clk message s)))) in *.
  unfold settingsView in Hset. injection Hset as Htts _ _ _ Hsp _.
  rewrite <- Htts, <- Hsp.
  destruct (interrupted message) eqn:Hint; cbn [andb].
  - rewrite (interruptedBlock_eq _ _ Hint).
    destruct (useBrowserTTSRef s2); cbn [andb when]; [| reflexivity].
    unfold speechSynthesisCancel, bind, read. cbn.
    destruct (speechSynthesisInWindow s2); reflexivity.
  - rewrite (interruptedBlock_skip _ _ Hint). reflexivity.
Qed.

Lemma transcriptionBlock_fields clk message message' s :
  inputTranscription message = inputTranscription message' ->
  outputTranscription message = outputTranscription message' ->
  turnComplete message = turnComplete message' ->
  transcriptionBlock clk message s = transcriptionBlock clk message' s.
Proof.
  intros H1 H2 H3. unfold transcriptionBlock, handleTranscription.
  rewrite H1, H2, H3. reflexivity.
Qed.

Lemma audioBlock_schedulerView clk message s s' :
  schedulerView s' = schedulerView s ->
  schedulerView (snd (audioBlock decodeAudioData clk message s')) =
  schedulerView (snd (audioBlock decodeAudioData clk message s)).
Proof.
  intros Hv. pose proof Hv as Hv'. unfold schedulerView in Hv'.
  injection Hv' as Hc Ha Hf Ht Hx Hn Hp Hb.
  destruct (negb (useBrowserTTSRef s) && optTruthy (inlineData message)
            && audioContextRef s && outputAnalyserRef s) eqn:Hg.
  - assert (Hg' : negb (useBrowserTTSRef s') && optTruthy (inlineData message)
                  && audioContextRef s' && outputAnalyserRef s' = true)
      by (rewrite Ht, Hx, Hn; exact Hg).
    destruct (audioBlock_guard _ _ Hg) as (Hon & data & Hdata & Htruthy).
    destruct (audioBlock_guard _ _ Hg') as (Hon' & _).
    destruct (decodeAudioData data) as [d|] eqn:Hdec.
    + destruct (audioBlock_enqueue decodeAudioData clk message s data d Hon Hdata Htruthy Hdec)
        as (_ & A1 & A2 & A3 & A4 & A5 & A6 & A7 & A8).
      destruct (audioBlock_enqueue decodeAudioData clk message s' data d Hon' Hdata Htruthy Hdec)
        as (_ & B1 & B2 & B3 & B4 & B5 & B6 & B7 & B8).
      cbv zeta in *. unfold schedulerView.
      rewrite A1, A2, A3, A4, A5, A6, A7, A8, B1, B2, B3, B4, B5, B6, B7, B8.
      rewrite !scheduled_app. cbn. congruence.
    + destruct (audioBlock_decode_fails decodeAudioData clk message s data Hon Hdata Htruthy Hdec)
        as (_ & A1 & A2 & A3 & A4 & A5 & A6 & A7 & A8).
      destruct (audioBlock_decode_fails decodeAudioData clk message s' data Hon' Hdata Htruthy Hdec)
        as (_ & B1 & B2 & B3 & B4 & B5 & B6 & B7 & B8).
      cbv zeta in *. unfold schedulerView.
      rewrite A1, A2, A3, A4, A5, A6, A7, A8, B1, B2, B3, B4, B5, B6, B7, B8.
      rewrite !scheduled_app. cbn. congruence.
  - assert (Hg' : negb (useBrowserTTSRef s') && optTruthy (inlineData message)
                  && audioContextRef s' && outputAnalyserRef s' = false)
      by (rewrite Ht, Hx, Hn; exact Hg).
    rewrite (audioBlock_skip decodeAudioData clk _ _ Hg),
            (audioBlock_skip decodeAudioData clk _ _ Hg').
    exact Hv.
Qed.

Lemma interruptedBlock_schedulerView message s s' :
  schedulerView s' = schedulerView s ->
  schedulerView (snd (interruptedBlock message s')) =
  schedulerView (snd (interruptedBlock message s)).
Proof.
  intros Hv. destruct (interrupted message) eqn:Hint.
  - pose proof (interruptedBlock_scheduled message s) as S1.
    pose proof (interruptedBlock_scheduled message s') as S2.
    destruct (interruptedBlock_flush message s Hint)
      as (A1 & A2 & _ & A4 & A5 & A6 & A7 & A8).
    destruct (interruptedBlock_flush message s' Hint)
      as (B1 & B2 & _ & B4 & B5 & B6 & B7 & B8).
    cbv zeta in *. unfold schedulerView in *.
    rewrite A1, A2, A4, A5, A6, A7, A8, B1, B2, B4, B5, B6, B7, B8, S1, S2.
    injection Hv as _ _ -> -> -> -> -> ->. reflexivity.
  - rewrite !(interruptedBlock_skip _ _ Hint). exact Hv.
Qed.

(** X10: the two halves of [onmessage] do not interfere.  The history, the
    buffers, the streaming texts, the detected and remembered languages,
    the settings and the speak-requests
    after a message depend only on its transcriptions and its turn-complete
    flag, not on its audio or its interruption flag; the cursor, the active
    set and the buffers handed to the device depend only on its audio and
    its interruption flag. *)
Theorem transcript_and_playback_are_independent clk message message' s :
  (inputTranscription message = inputTranscription message' ->
   outputTranscription message = outputTranscription message' ->
   turnComplete message = turnComplete message' ->
   transcriptView (step decodeAudioData s (Message clk message)) =
   transcriptView (step decodeAudioData s (Message clk message')) /\
   bufferView (step decodeAudioData s (Message clk message)) =
   bufferView (step decodeAudioData s (Message clk message'))) /\
  (inlineData message = inlineData message' ->
   interrupted message = interrupted message' ->
   schedulerView (step decodeAudioData s (Message clk message)) =
   schedulerView (step decodeAudioData s (Message clk message'))).
Proof.
  split.
  - intros H1 H2 H3. rewrite !step_transcriptView.
    rewrite !(step_message_keeps bufferView bufferView_playbackFrame).
    rewrite (transcriptionBlock_fields clk message message' s H1 H2 H3).
    split; reflexivity.
  - intros H1 H2. unfold step, dispatch. rewrite !onmessage_blocks.
    pose proof (transcriptionBlock_keeps schedulerView schedulerView_frame clk message s) as V1.
    pose proof (transcriptionBlock_keeps schedulerView schedulerView_frame clk message' s) as V2.
    set (s1 := snd (transcriptionBlock clk message s)) in *.
    set (s1' := snd (transcriptionBlock clk message' s)) in *.
    assert (Hv : schedulerView s1' = schedulerView s1) by congruence.
    assert (Ha : audioBlock decodeAudioData clk message' = audioBlock decodeAudioData clk message)
      by (unfold audioBlock; rewrite H1; reflexivity).
    assert (Hi : interruptedBlock message' = interruptedBlock message)
      by (unfold interruptedBlock; rewrite H2; reflexivity).
    rewrite Ha, Hi. symmetry.
    apply interruptedBlock_schedulerView, audioBlock_schedulerView, Hv.
Qed.

End MoreOnMessages.

(** ** Partial texts *)

Lemma append_assoc (a b c : string) : (a ++ b) ++ c = a ++ (b ++ c).
Proof. induction a as [|x r IH]; [reflexivity | simpl; rewrite IH; reflexivity]. Qed.

Lemma handleTranscription_partial clk message s :
  turnComplete message = false ->
  tagOf (inputTranscription message) <> Some NotAString ->
  let s' := snd (handleTranscription clk message s) in
  fst (handleTranscription clk message s) = Normal tt /\
  currentInputTransRef s' = userBuffer message s /\
  currentOutputTransRef s' = modelBuffer message s /\
  transcripts s' = transcripts s /\
  effects s' = effects s.
Proof.
  intros Htc Htag. cbv zeta. unfold handleTranscription, bind, userBuffer, modelBuffer.
  destruct (inputTranscriptionBlock_state (inputTranscription message) s)
    as (Hin & _ & _ & Hout & Htr & Heff). cbv zeta in *.
  pose proof (inputTranscriptionBlock_completion (inputTranscription message) s) as Hc1.
  destruct (inputTranscriptionBlock (inputTranscription message) s) as [c1 s1].
  cbn [fst snd] in *.
  assert (c1 = Normal tt) as ->.
  { rewrite Hc1. destruct (tagOf (inputTranscription message)) as [[?|]|]; try reflexivity.
    contradiction Htag; reflexivity. }
  destruct (outputTranscriptionBlock_state (outputTranscription message) s1)
    as (Hn & Hout2 & Hin2 & _ & _ & Htr2 & Heff2). cbv zeta in *.
  destruct (outputTranscriptionBlock (outputTranscription message) s1) as [c2 s2].
  cbn [fst snd] in *. subst c2. rewrite Htc. cbn.
  repeat split; congruence.
Qed.

Section Partials.

Variable decodeAudioData : string -> option Z.

Lemma step_partial s e :
  isPartial e ->
  let s' := step decodeAudioData s e in
  currentInputTransRef s' = currentInputTransRef s ++ partialTexts inputTranscription [e] /\
  currentOutputTransRef s' = currentOutputTransRef s ++ partialTexts outputTranscription [e] /\
  transcripts s' = transcripts s /\
  spoken (effects s') = spoken (effects s).
Proof.
  intros Hp. destruct e as [clk message | source | err].
  - destruct Hp as [Htc Htag].
    destruct (handleTranscription_partial clk message s Htc Htag)
      as (Hn & H1 & H2 & H3 & H4). cbv zeta in *.
    pose proof (step_transcriptView decodeAudioData clk message s) as Hv.
    rewrite (transcriptionBlock_returns _ _ _ Hn) in Hv.
    unfold transcriptView in Hv. injection Hv as V1 V2 V3 _ _ V6 _ _ _ _ _.
    rewrite V1, V2, V3, V6, H1, H2, H3, H4. cbn [partialTexts].
    rewrite !append_empty_r. repeat split.
  - cbn. rewrite !append_empty_r. repeat split.
  - destruct (step_spoken decodeAudioData s (ChannelError err)) as (extra & E & _ & Hex).
    assert (extra = []) as ->.
    { destruct extra as [|[u l] x]; [reflexivity |]. exfalso.
      revert E. unfold step, dispatch, onerror, bind, emit, modify. cbn.
      destruct err as [message|]; cbn;
        [destruct (Js.includes "Invalid argument" message); cbn;
         [| destruct (Js.includes "Internal error" message); cbn] |];
        rewrite !spoken_app; cbn; rewrite ?app_nil_r;
        intros E; apply (f_equal (@List.length _)) in E;
        rewrite length_app in E; cbn in E; lia. }
    rewrite app_nil_r in E. cbv zeta. rewrite E. cbn [partialTexts].
    rewrite !append_empty_r.
    unfold step, dispatch, onerror, bind, emit, modify. cbn.
    destruct err as [message|]; cbn; [| repeat split].
    destruct (Js.includes "Invalid argument" message); cbn; [repeat split |].
    destruct (Js.includes "Internal error" message); cbn; repeat split.
Qed.

(** X11: partial texts accumulate in arrival order.  Through any run of
    events without turn-complete (and without ill-typed language tags), each
    buffer ends as its old content followed by the texts of the messages
    in the order they arrived, while the history and the speak-requests do
    not change. *)
Theorem partial_texts_accumulate_in_order events : forall s,
  Forall isPartial events ->
  let s' := run decodeAudioData s events in
  currentInputTransRef s' =
    currentInputTransRef s ++ partialTexts inputTranscription events /\
  currentOutputTransRef s' =
    currentOutputTransRef s ++ partialTexts outputTranscription events /\
  transcripts s' = transcripts s /\
  spoken (effects s') = spoken (effects s).
Proof.
  induction events as [|e r IH]; intros s Hall.
  - cbn. rewrite !append_empty_r. repeat split.
  - inversion Hall as [|? ? He Hr]; subst.
    destruct (step_partial s e He) as (A1 & A2 & A3 & A4).
    destruct (IH (step decodeAudioData s e) Hr) as (B1 & B2 & B3 & B4).
    cbv zeta in *.
    change (run decodeAudioData s (e :: r))
      with (run decodeAudioData (step decodeAudioData s e) r).
    rewrite B1, B2, B3, B4, A1, A2, A3, A4, !append_assoc.
    destruct e; cbn [partialTexts]; rewrite ?append_empty_r; repeat split.
Qed.

End Partials.

(** ** [disconnect] and [replayLastOutput] *)

Lemma find_app {A} (p : A -> bool) l1 l2 :
  find p (l1 ++ l2) = match find p l1 with Some x => Some x | None => find p l2 end.
Proof.
  induction l1 as [|x r IH]; [reflexivity |]. simpl. destruct (p x); [reflexivity | exact IH].
Qed.

Lemma find_all_false {A} (p : A -> bool) l :
  Forall (fun x => p x = false) l -> find p l = None.
Proof.
  induction 1 as [|x r Hx _ IH]; [reflexivity |]. simpl. rewrite Hx. exact IH.
Qed.

(** The last entry that satisfies [p], found from the end. *)
Lemma find_rev_last {A} (p : A -> bool) before m after :
  p m = true -> Forall (fun x => p x = false) after ->
  find p (rev (before ++ m :: after)) = Some m.
Proof.
  intros Hm Hafter. rewrite rev_app_distr. simpl. rewrite <- app_assoc, find_app.
  rewrite find_all_false; [simpl; rewrite Hm; reflexivity |].
  apply Forall_rev, Hafter.
Qed.

Section DisconnectAndReplay.

Variable decodeAudioData : string -> option Z.

(** A turn-complete that finds the buffers empty finalizes the fragments of
    its own message. *)
Lemma turnComplete_on_empty_buffers s clk message :
  bufferView s = (EmptyString, EmptyString, EmptyString, EmptyString) ->
  currentInputLanguageRef s = None ->
  turnComplete message = true ->
  tagOf (inputTranscription message) <> Some NotAString ->
  transcripts (step decodeAudioData s (Message clk message)) =
  (transcripts s
   ++ (if Js.truthy (Js.trim (textOf (inputTranscription message)))
       then [userItem clk (Js.trim (textOf (inputTranscription message)))
               (detectedLanguage message s)]
       else [])
   ++ (if Js.truthy (Js.trim (textOf (outputTranscription message)))
       then [modelItem clk (Js.trim (textOf (outputTranscription message)))]
       else []))%list.
Proof.
  intros Hbuf Hlang Htc Htag.
  assert (Hns : detectedLanguage message s <> Some NotAString).
  { unfold detectedLanguage. rewrite Hlang.
    destruct (tagOf (inputTranscription message)) as [[c|]|]; try discriminate.
    contradiction Htag. reflexivity. }
  destruct (step_turnComplete decodeAudioData clk message s Htc Hns) as (c & _ & H1 & _).
  cbv zeta in H1. unfold bufferView in Hbuf. injection Hbuf as _ Hin _ Hout.
  assert (Hu : userBuffer message s = textOf (inputTranscription message))
    by (unfold userBuffer; rewrite Hin; reflexivity).
  assert (Hm : modelBuffer message s = textOf (outputTranscription message))
    by (unfold modelBuffer; rewrite Hout; reflexivity).
  rewrite Hu, Hm in H1. exact H1.
Qed.

(** X12: [disconnect] keeps the history, the remembered client language and
    the settings, empties the buffers and the streaming texts, forgets the
    detected language, and resets the cursor and the active set.  It does
    not stop the callbacks: a message that arrives afterwards never
    schedules audio (the audio context is gone), but it is still
    transcribed, and a turn-complete still adds its entries to the
    history. *)
Theorem disconnect_stops_playback_not_transcription s :
  let s' := snd (disconnect s) in
  (transcripts s' = transcripts s /\
   lastClientLanguageRef s' = lastClientLanguageRef s /\
   targetLanguageRef s' = targetLanguageRef s /\
   useBrowserTTSRef s' = useBrowserTTSRef s) /\
  (isConnected s' = false /\
   bufferView s' = (EmptyString, EmptyString, EmptyString, EmptyString) /\
   currentInputLanguageRef s' = None /\
   nextStartTimeRef s' = 0 /\ sourcesRef s' = []) /\
  (forall events,
     scheduled (effects (run decodeAudioData s' events)) = scheduled (effects s) /\
     sourcesRef (run decodeAudioData s' events) = []) /\
  (forall clk message,
     turnComplete message = true ->
     tagOf (inputTranscription message) <> Some NotAString ->
     let userInput := Js.trim (textOf (inputTranscription message)) in
     let modelOutput := Js.trim (textOf (outputTranscription message)) in
     exists lang,
       transcripts (step decodeAudioData s' (Message clk message)) =
       (transcripts s
        ++ (if Js.truthy userInput then [userItem clk userInput lang] else [])
        ++ (if Js.truthy modelOutput then [modelItem clk modelOutput] else []))%list).
Proof.
  destruct (disconnect_state s)
    as (Hctx & Hcon & Hbuf & Hlang & Hcur & Hsrc & Htr & Hlast & Htts & Htgt & _ & _ & _ &
        _ & Heff).
  cbv zeta in *. set (s' := snd (disconnect s)) in *. clearbody s'.
  split; [repeat split; assumption |]. split; [repeat split; assumption |]. split.
  - intros events.
    assert (Hoff : ~ playbackOn s') by (intros (_ & H & _); congruence).
    destruct (run_exclusion decodeAudioData events s') as [H _].
    destruct (H Hoff) as [H1 H2]. split.
    + rewrite H1, Heff, scheduled_app.
      destruct (useBrowserTTSRef s && speechSynthesisInWindow s); cbn; apply app_nil_r.
    + destruct (sourcesRef (run decodeAudioData s' events)) as [|node r]; [reflexivity |].
      exfalso. specialize (H2 node (or_introl eq_refl)). rewrite Hsrc in H2. exact H2.
  - intros clk message Htc Htag. exists (detectedLanguage message s'). rewrite <- Htr.
    apply turnComplete_on_empty_buffers; assumption.
Qed.

(** X13: [replayLastOutput] reads aloud the most recent model entry of the
    history, after cancelling pending speech, whether fallback speech is on
    or not; the utterance carries the locale of an explicit target and no
    language in Auto mode.  Without a model entry, or where [window] has no
    [speechSynthesis], it does nothing. *)
Theorem replay_speaks_last_model_entry s :
  (forall before m after,
     transcripts s = (before ++ m :: after)%list ->
     isModel m = true -> Forall (fun item => isModel item = false) after ->
     speechSynthesisInWindow s = true ->
     exists lang,
       replayLastOutput s =
         (Normal tt,
          set_effects (effects s ++ [SpeechCancel; Speak (Item.text m) lang]) s) /\
       (targetLanguageRef s = "Auto" -> lang = EmptyString) /\
       (forall locale,
          targetLanguageRef s <> "Auto" ->
          lookup (targetLanguageRef s) LANGUAGE_LOCALES = Some locale -> lang = locale)) /\
  (Forall (fun item => isModel item = false) (transcripts s) ->
   replayLastOutput s = (Normal tt, s)) /\
  (speechSynthesisInWindow s = false -> replayLastOutput s = (Normal tt, s)).
Proof.
  split; [| split].
  - intros before m after Htr Hm Hafter Hsp.
    exists match (if negb (String.eqb (targetLanguageRef s) "Auto")
                  then lookup (targetLanguageRef s) LANGUAGE_LOCALES else None) with
           | Some locale => locale
           | None => EmptyString
           end.
    split.
    + unfold replayLastOutput, bind, read. cbn -[lookup LANGUAGE_LOCALES String.eqb].
      rewrite Htr, (find_rev_last isModel before m after Hm Hafter), Hsp.
      cbn -[lookup LANGUAGE_LOCALES String.eqb]. unfold emit, modify.
      cbn -[lookup LANGUAGE_LOCALES String.eqb].
      rewrite <- app_assoc. reflexivity.
    + split.
      * intros ->. reflexivity.
      * intros locale Hne Hl. apply String.eqb_neq in Hne. rewrite Hne, Hl. reflexivity.
  - intros Hnone. unfold replayLastOutput, bind, read. cbn.
    rewrite find_all_false; [reflexivity | apply Forall_rev, Hnone].
  - intros Hsp. unfold replayLastOutput, bind, read. cbn. rewrite Hsp.
    destruct (find isModel (rev (transcripts s))); reflexivity.
Qed.

(** X14: a replay does not know the direction of the turn.  After a turn
    whose input was not French (so that its fallback speak-request carried
    [fr-FR]), with an explicit target, the replay of the same text carries
    the locale of the target. *)
Theorem replay_ignores_direction clk message s c locale :
  turnComplete message = true ->
  detectedLanguage message s = Some (Tag c) ->
  Js.startsWith "fr" (Js.toLowerCase c) = false ->
  useBrowserTTSRef s = true -> speechSynthesisInWindow s = true ->
  Js.truthy (Js.trim (modelBuffer message s)) = true ->
  targetLanguageRef s <> "Auto" ->
  lookup (targetLanguageRef s) LANGUAGE_LOCALES = Some locale ->
  let s1 := step decodeAudioData s (Message clk message) in
  spoken (effects (act decodeAudioData s1 Replay)) =
  (spoken (effects s)
   ++ [(Js.trim (modelBuffer message s), "fr-FR");
       (Js.trim (modelBuffer message s), locale)])%list.
Proof.
  intros Htc Hlang Hfr Htts Hsp Hout Hne Hl. cbv zeta.
  assert (Hns : detectedLanguage message s <> Some NotAString) by (rewrite Hlang; discriminate).
  destruct (step_turnComplete decodeAudioData clk message s Htc Hns)
    as (c' & Hc & H1 & _ & _ & _ & H5).
  cbv zeta in H1, H5. rewrite Hlang, orEmpty_tag in Hc. injection Hc as <-.
  rewrite Hout, Htts, Hsp, Hfr in H5. cbn [andb negb utteranceLang] in H5.
  rewrite Hout in H1.
  pose proof (step_settings decodeAudioData s (Message clk message)) as Hset.
  unfold settingsView in Hset. injection Hset as _ Htgt _ _ Hsp1 _.
  set (s1 := step decodeAudioData s (Message clk message)) in *.
  unfold act, perform, replayLastOutput, bind, read.
  cbn -[lookup LANGUAGE_LOCALES String.eqb spoken].
  rewrite H1, app_assoc.
  rewrite (find_rev_last isModel _ (modelItem clk (Js.trim (modelBuffer message s))) []
             eq_refl (Forall_nil _)).
  rewrite Hsp1, Hsp. cbn -[lookup LANGUAGE_LOCALES String.eqb spoken]. rewrite Htgt.
  apply String.eqb_neq in Hne. rewrite Hne. cbn -[lookup LANGUAGE_LOCALES String.eqb spoken].
  rewrite Hl.
  rewrite !spoken_app, H5. cbn. rewrite <- !app_assoc. reflexivity.
Qed.

End DisconnectAndReplay.

(** ** The active set *)

Lemma started_app l1 l2 : started (l1 ++ l2) = (started l1 ++ started l2)%list.
Proof. unfold started. apply flat_map_app. Qed.

Lemma stopped_app l1 l2 : stopped (l1 ++ l2) = (stopped l1 ++ stopped l2)%list.
Proof. unfold stopped. apply flat_map_app. Qed.

Lemma stopped_stops l : stopped (map SourceStop l) = l /\ started (map SourceStop l) = [].
Proof.
  induction l as [|x r [IH1 IH2]]; [split; reflexivity |]. cbn. split.
  - f_equal. exact IH1.
  - exact IH2.
Qed.

(** The invariant reads four things of the state. *)
Lemma activeSetSound_view s s' :
  (sourcesRef s', nextNode s', started (effects s'), stopped (effects s')) =
  (sourcesRef s, nextNode s, started (effects s), stopped (effects s)) ->
  activeSetSound s -> activeSetSound s'.
Proof.
  intros H. injection H as H1 H2 H3 H4. unfold activeSetSound.
  rewrite H1, H2, H3, H4. exact (fun x => x).
Qed.

Lemma audioView_transcriptionFrame :
  transcriptionFrame
    (fun s => (sourcesRef s, nextNode s, started (effects s), stopped (effects s))).
Proof.
  split; intros; cbn; rewrite ?started_app, ?stopped_app; cbn; rewrite ?app_nil_r;
    reflexivity.
Qed.

Lemma NoDup_snoc {A} (l : list A) x : NoDup l -> ~ In x l -> NoDup (l ++ [x]).
Proof.
  intros Hl Hx. induction Hl as [|y r Hy Hr IH]; cbn.
  - constructor; [intros [] | constructor].
  - constructor.
    + rewrite in_app_iff. intros [H | [H | []]]; [exact (Hy H) |].
      apply Hx. left. symmetry. exact H.
    + apply IH. intros H. apply Hx. right. exact H.
Qed.

Lemma NoDup_append {A} (l1 l2 : list A) :
  NoDup l1 -> NoDup l2 -> (forall x, In x l2 -> ~ In x l1) -> NoDup (l1 ++ l2).
Proof.
  intros H1 H2. revert l1 H1. induction H2 as [|y r Hy Hr IH]; intros l1 H1 Hd.
  - rewrite app_nil_r. exact H1.
  - change (y :: r) with ([y] ++ r)%list. rewrite app_assoc. apply IH.
    + apply NoDup_snoc; [exact H1 | apply Hd; left; reflexivity].
    + intros x Hx. rewrite in_app_iff. intros [H | [H | []]].
      * exact (Hd x (or_intror Hx) H).
      * subst x. exact (Hy Hx).
Qed.

Section ActiveSet.

Variable decodeAudioData : string -> option Z.

Lemma audioBlock_activeSetSound clk message :
  preserves activeSetSound (audioBlock decodeAudioData clk message).
Proof.
  intros s (Hnd & Hact & Hfresh & Hincl & Hst & Hsp).
  destruct (negb (useBrowserTTSRef s) && optTruthy (inlineData message)
            && audioContextRef s && outputAnalyserRef s) eqn:G.
  - destruct (audioBlock_guard _ _ G) as (Hon & data & Hdata & Htruthy).
    destruct (decodeAudioData data) as [duration|] eqn:Hdec.
    + destruct (audioBlock_enqueue decodeAudioData clk message s data duration
                  Hon Hdata Htruthy Hdec) as (_ & _ & He & Hs & Hn & _).
      cbv zeta in *. unfold activeSetSound. rewrite He, Hs, Hn, started_app, stopped_app.
      cbn. rewrite app_nil_r.
      assert (Hnew : ~ In (nextNode s) (started (effects s)))
        by (intros H; apply Hfresh in H; lia).
      assert (Hout : ~ In (nextNode s) (sourcesRef s))
        by (intros H; apply Hnew, Hact, H).
      assert (Hadd : setAdd (nextNode s) (sourcesRef s) = (sourcesRef s ++ [nextNode s])%list).
      { unfold setAdd. destruct (existsb (Nat.eqb (nextNode s)) (sourcesRef s)) eqn:E;
          [| reflexivity].
        apply existsb_exists in E as (y & Hy & Heq). apply Nat.eqb_eq in Heq. subst y.
        contradiction. }
      rewrite Hadd. split; [apply NoDup_snoc; assumption |]. split; [| split; [| split; [| split]]].
      * intros node Hin. rewrite in_app_iff in *. destruct Hin as [Hin | [<- | []]].
        -- destruct (Hact node Hin) as [H1 H2]. split; [left; exact H1 | exact H2].
        -- split; [right; left; reflexivity |]. intros H. apply Hnew, Hincl, H.
      * intros node Hin. rewrite in_app_iff in Hin. destruct Hin as [Hin | [<- | []]].
        -- apply Hfresh in Hin. lia.
        -- lia.
      * intros node Hin. rewrite in_app_iff. left. apply Hincl, Hin.
      * apply NoDup_snoc; assumption.
      * exact Hsp.
    + destruct (audioBlock_decode_fails decodeAudioData clk message s data
                  Hon Hdata Htruthy Hdec) as (_ & _ & He & Hs & Hn & _).
      cbv zeta in *. unfold activeSetSound. rewrite He, Hs, Hn, started_app, stopped_app.
      cbn. rewrite !app_nil_r. repeat split; assumption || apply Hact; assumption.
  - rewrite (audioBlock_skip decodeAudioData clk message s G). cbn.
    repeat split; assumption || apply Hact; assumption.
Qed.

Lemma cancel_when_log b s :
  exists tail, (tail = [] \/ tail = [SpeechCancel]) /\
    snd (when b speechSynthesisCancel s) = set_effects (effects s ++ tail) s.
Proof.
  destruct b; cbn [when].
  - unfold speechSynthesisCancel, bind, read.
    destruct (speechSynthesisInWindow s) eqn:Hsp.
    + exists [SpeechCancel]. split; [right; reflexivity | reflexivity].
    + exists []. split; [left; reflexivity |]. rewrite app_nil_r. destruct s; reflexivity.
  - exists []. split; [left; reflexivity |]. rewrite app_nil_r. destruct s; reflexivity.
Qed.

Lemma interruptedBlock_activeSetSound message :
  preserves activeSetSound (interruptedBlock message).
Proof.
  intros s Hinv. destruct (interrupted message) eqn:Hint.
  - rewrite (interruptedBlock_eq _ _ Hint).
    match goal with
    | |- context [snd (when ?b speechSynthesisCancel ?s1)] =>
        destruct (cancel_when_log b s1) as (tail & Htail & ->)
    end.
    destruct Hinv as (Hnd & Hact & Hfresh & Hincl & Hst & Hsp).
    destruct (stopped_stops (sourcesRef s)) as [S1 S2].
    assert (T1 : started tail = [] /\ stopped tail = [])
      by (destruct Htail as [-> | ->]; split; reflexivity).
    destruct T1 as [T1 T2].
    unfold activeSetSound. cbn.
    rewrite !started_app, !stopped_app, S1, S2, T1, T2. cbn. rewrite !app_nil_r.
    split; [constructor |]. split; [intros node [] |]. split; [exact Hfresh |].
    split; [| split; [exact Hst |]].
    + intros node Hin. rewrite in_app_iff in Hin. destruct Hin as [Hin | Hin].
      * apply Hincl, Hin.
      * apply Hact, Hin.
    + apply NoDup_append; [exact Hsp | exact Hnd |]. intros x Hx. apply Hact, Hx.
  - rewrite (interruptedBlock_skip _ _ Hint). exact Hinv.
Qed.

Lemma step_activeSetSound e s :
  activeSetSound s -> activeSetSound (step decodeAudioData s e).
Proof.
  intros Hinv. destruct e as [clk message | source | err]; unfold step, dispatch.
  - rewrite onmessage_blocks.
    apply interruptedBlock_activeSetSound, audioBlock_activeSetSound.
    apply (activeSetSound_view s); [| exact Hinv].
    apply (transcriptionBlock_keeps _ audioView_transcriptionFrame).
  - destruct Hinv as (Hnd & Hact & Hfresh & Hincl & Hst & Hsp).
    unfold onended, modify, activeSetSound. cbn. unfold setDelete.
    split; [apply NoDup_filter, Hnd |]. split; [| repeat split; assumption].
    intros node Hin. apply filter_In in Hin as [Hin _]. apply Hact, Hin.
  - apply (activeSetSound_view s); [| exact Hinv].
    unfold onerror, bind, emit, modify. cbn.
    destruct err as [message|]; cbn.
    + destruct (Js.includes "Invalid argument" message); cbn;
        [| destruct (Js.includes "Internal error" message); cbn];
        rewrite ?started_app, ?stopped_app; cbn; rewrite ?app_nil_r; reflexivity.
    + rewrite ?started_app, ?stopped_app; cbn; rewrite ?app_nil_r; reflexivity.
Qed.

Lemma act_activeSetSound a s :
  activeSetSound s -> activeSetSound (act decodeAudioData s a).
Proof.
  intros Hinv.
  assert (Hremote : (exists e, a = Remote e) \/ (forall e, a <> Remote e))
    by (destruct a; [left; eexists; reflexivity | right; discriminate ..]).
  destruct Hremote as [[e ->] | Hui]; [apply step_activeSetSound, Hinv |].
  destruct (user_action_state decodeAudioData a s Hui)
    as (_ & _ & Hn & _ & H1 & H2 & _ & Hs & _).
  cbv zeta in *. destruct Hinv as (Hnd & Hact & Hfresh & Hincl & Hst & Hsp).
  unfold activeSetSound. rewrite Hn, H1, H2. destruct Hs as [-> | ->].
  - repeat split; assumption || apply Hact; assumption.
  - split; [constructor |]. split; [intros node [] |]. repeat split; assumption.
Qed.

Lemma session_activeSetSound actions s :
  activeSetSound s -> activeSetSound (session decodeAudioData s actions).
Proof.
  revert s. induction actions as [|a r IH]; intros s Hinv; [exact Hinv |].
  change (session decodeAudioData s (a :: r))
    with (session decodeAudioData (act decodeAudioData s a) r).
  apply IH, act_activeSetSound, Hinv.
Qed.

End ActiveSet.

Section ActiveSetTheorems.

Variable decodeAudioData : string -> option Z.

(** X15: in every state a session reaches from the initial state, the active
    set holds no source twice, every source in it was started and has not
    been stopped, no source is started twice or stopped twice, and only
    started sources are stopped. *)
Theorem active_set_is_sound speech actions :
  activeSetSound (session decodeAudioData (initialState speech) actions).
Proof.
  apply session_activeSetSound. unfold activeSetSound. cbn.
  split; [constructor |]. split; [intros node [] |]. split; [intros node [] |].
  split; [intros node [] |]. split; constructor.
Qed.

Lemma setDelete_snoc x l : ~ In x l -> setDelete x (l ++ [x]) = l.
Proof.
  intros H. unfold setDelete. rewrite filter_app. cbn. rewrite Nat.eqb_refl. cbn.
  rewrite app_nil_r. induction l as [|y r IH]; [reflexivity |]. cbn.
  destruct (Nat.eqb x y) eqn:E.
  - apply Nat.eqb_eq in E. subst y. contradiction H. left. reflexivity.
  - cbn. f_equal. apply IH. intros Hin. apply H. right. exact Hin.
Qed.

(** X16: a buffer that is enqueued joins the active set at its end, and its
    [ended] event takes exactly that source out again: the set is back to
    what it was before the message. *)
Theorem ended_undoes_enqueue clk message s data duration :
  activeSetSound s -> playbackOn s ->
  inlineData message = Some data -> Js.truthy data = true ->
  decodeAudioData data = Some duration ->
  interrupted message = false ->
  let s1 := step decodeAudioData s (Message clk message) in
  sourcesRef s1 = (sourcesRef s ++ [nextNode s])%list /\
  sourcesRef (step decodeAudioData s1 (Ended (nextNode s))) = sourcesRef s.
Proof.
  intros (Hnd & Hact & Hfresh & _) Hon Hdata Htruthy Hdec Hint. cbv zeta.
  assert (Hout : ~ In (nextNode s) (sourcesRef s)).
  { intros H. apply Hact in H as [H _]. apply Hfresh in H. lia. }
  assert (Hadd : sourcesRef (step decodeAudioData s (Message clk message)) =
                 (sourcesRef s ++ [nextNode s])%list).
  { pose proof (transcriptionBlock_keeps schedulerView schedulerView_frame clk message s)
      as Hv.
    unfold step, dispatch. rewrite onmessage_blocks.
    set (s0 := snd (transcriptionBlock clk message s)) in *.
    assert (Hon0 : playbackOn s0) by (eapply playbackOn_view; eassumption).
    unfold schedulerView in Hv. injection Hv as _ Hsrc Hnode _ _ _ _ _.
    destruct (audioBlock_enqueue decodeAudioData clk message s0 data duration
                Hon0 Hdata Htruthy Hdec) as (_ & _ & _ & Hs & _).
    cbv zeta in Hs. rewrite (interruptedBlock_skip _ _ Hint). cbn [snd].
    rewrite Hs, Hsrc, Hnode. unfold setAdd.
    destruct (existsb (Nat.eqb (nextNode s)) (sourcesRef s)) eqn:E; [| reflexivity].
    apply existsb_exists in E as (y & Hy & Heq). apply Nat.eqb_eq in Heq. subst y.
    contradiction. }
  split; [exact Hadd |].
  set (s1 := step decodeAudioData s (Message clk message)) in *.
  change (setDelete (nextNode s) (sourcesRef s1) = sourcesRef s).
  rewrite Hadd. apply setDelete_snoc, Hout.
Qed.

End ActiveSetTheorems.

Lemma ended_undoes_enqueue_witness :
  let s := run pcm16Duration (connected (initialState true))
             [Message (at_ 0) (audioMessage "AAAA")] in
  let s1 := step pcm16Duration s (Message (at_ 1) (audioMessage "BBBBBB")) in
  sourcesRef s = [0%nat] /\ sourcesRef s1 = [0%nat; 1%nat] /\
  sourcesRef (step pcm16Duration s1 (Ended 1%nat)) = [0%nat].
Proof.
  intros s s1. split; [reflexivity |].
  apply (ended_undoes_enqueue pcm16Duration (at_ 1) (audioMessage "BBBBBB") s "BBBBBB" 3).
  - unfold activeSetSound. cbn.
    split; [repeat constructor; intros [] |].
    split; [intros node [<- | []]; split; [left; reflexivity | intros []] |].
    split; [intros node [<- | []]; lia |].
    split; [intros node [] |].
    split; [repeat constructor; intros [] | constructor].
  - repeat split.
  - reflexivity.
  - reflexivity.
  - reflexivity.
  - reflexivity.
Defined.


(** ** The stored language tag *)

(** What [handleTranscription] leaves in [currentInputLanguageRef],
    [transcripts] and the log when the tag it finds at the turn-complete
    test is not a string: the tag stays stored and nothing is finalized or
    spoken. *)
Lemma handleTranscription_non_string clk message s :
  detectedLanguage message s = Some NotAString ->
  let s' := snd (handleTranscription clk message s) in
  currentInputLanguageRef s' = Some NotAString /\
  transcripts s' = transcripts s /\
  effects s' = effects s /\
  currentInputTransRef s' = userBuffer message s /\
  (tagOf (inputTranscription message) = Some NotAString \/ turnComplete message = true ->
   fst (handleTranscription clk message s)
   = Thrown (TypeError "toLowerCase is not a function")).
Proof.
  intros Hlang. cbv zeta. unfold handleTranscription, bind, userBuffer, detectedLanguage in *.
  destruct (inputTranscriptionBlock_state (inputTranscription message) s)
    as (Hin & Hlg & _ & _ & Htr & Heff). cbv zeta in *.
  pose proof (inputTranscriptionBlock_completion (inputTranscription message) s) as Hc1.
  destruct (inputTranscriptionBlock (inputTranscription message) s) as [c1 s1].
  cbn [fst snd] in *.
  destruct (tagOf (inputTranscription message)) as [[c|]|] eqn:Htag.
  - discriminate Hlang.
  - subst c1. cbn [fst snd]. repeat split; try assumption. 
  - subst c1.
    destruct (outputTranscriptionBlock_state (outputTranscription message) s1)
      as (Hn & _ & Hin2 & Hlg2 & _ & Htr2 & Heff2). cbv zeta in *.
    destruct (outputTranscriptionBlock (outputTranscription message) s1) as [c2 s2].
    cbn [fst snd] in *. subst c2.
    assert (Hor : orEmpty (currentInputLanguageRef s2) = NotAString)
      by (rewrite Hlg2, Hlg, Hlang; reflexivity).
    destruct (turnComplete message); cbn [when].
    + rewrite (turnCompleteBlock_throws clk s2 Hor). cbn [fst snd].
      repeat split; congruence.
    + cbn. repeat split; try congruence. intros [H | H]; discriminate H.
Qed.

(** A message that is not a turn-complete and carries no ill-typed tag
    leaves in [currentInputLanguageRef] the tag it carries, or the one
    that was stored. *)
Lemma handleTranscription_language clk message s :
  turnComplete message = false ->
  tagOf (inputTranscription message) <> Some NotAString ->
  currentInputLanguageRef (snd (handleTranscription clk message s)) =
  detectedLanguage message s.
Proof.
  intros Htc Htag. unfold handleTranscription, bind, detectedLanguage.
  destruct (inputTranscriptionBlock_state (inputTranscription message) s)
    as (_ & Hlg & _). cbv zeta in *.
  pose proof (inputTranscriptionBlock_completion (inputTranscription message) s) as Hc1.
  destruct (inputTranscriptionBlock (inputTranscription message) s) as [c1 s1].
  cbn [fst snd] in *.
  assert (c1 = Normal tt) as ->.
  { rewrite Hc1. destruct (tagOf (inputTranscription message)) as [[?|]|]; try reflexivity.
    contradiction Htag; reflexivity. }
  destruct (outputTranscriptionBlock_state (outputTranscription message) s1)
    as (Hn & _ & _ & Hlg2 & _). cbv zeta in *.
  destruct (outputTranscriptionBlock (outputTranscription message) s1) as [c2 s2].
  cbn [fst snd] in *. subst c2. rewrite Htc. cbn. congruence.
Qed.

Section StoredTag.

Variable decodeAudioData : string -> option Z.

Lemma step_language_partial clk message s :
  turnComplete message = false ->
  tagOf (inputTranscription message) <> Some NotAString ->
  currentInputLanguageRef (step decodeAudioData s (Message clk message)) =
  detectedLanguage message s.
Proof.
  intros Htc Htag.
  destruct (handleTranscription_partial clk message s Htc Htag) as (Hn & _).
  pose proof (step_transcriptView decodeAudioData clk message s) as Hv.
  rewrite (transcriptionBlock_returns _ _ _ Hn) in Hv.
  apply (f_equal inputLanguage) in Hv. cbn in Hv. rewrite Hv.
  apply handleTranscription_language; assumption.
Qed.

(** A message that finds a tag that is not a string: whatever else it
    carries, the tag stays stored, nothing is finalized and nothing is
    spoken. *)
Lemma step_non_string clk message s :
  detectedLanguage message s = Some NotAString ->
  let s' := step decodeAudioData s (Message clk message) in
  currentInputLanguageRef s' = Some NotAString /\
  transcripts s' = transcripts s /\
  spoken (effects s') = spoken (effects s) /\
  currentInputTransRef s' = userBuffer message s.
Proof.
  intros Hlang. cbv zeta.
  destruct (handleTranscription_non_string clk message s Hlang) as (H1 & H2 & H3 & H4 & _).
  cbv zeta in *.
  pose proof (step_transcriptView decodeAudioData clk message s) as Hv.
  unfold transcriptView in Hv. injection Hv as V1 V2 _ V4 _ V6 _ _ _ _ _.
  rewrite V1, V2, V4, V6. unfold transcriptionBlock, tryCatch.
  destruct (handleTranscription clk message s) as [[[]|e] s']; cbn [fst snd] in *.
  - rewrite H3. repeat split; assumption.
  - unfold emit, modify. cbn. rewrite spoken_app, H3. cbn. rewrite app_nil_r.
    repeat split; assumption.
Qed.

(** Once a tag that is not a string is stored, no turn is finalized and
    nothing is spoken until a message delivers a string tag: every
    turn-complete throws at [detectedInputLang.toLowerCase()]. *)
Lemma stored_non_string_tag_blocks_turns events : forall s,
  currentInputLanguageRef s = Some NotAString ->
  Forall noStringTag events ->
  let s' := run decodeAudioData s events in
  currentInputLanguageRef s' = Some NotAString /\
  transcripts s' = transcripts s /\
  spoken (effects s') = spoken (effects s).
Proof.
  induction events as [|e r IH]; intros s Href Hall; [repeat split; assumption |].
  inversion Hall as [|? ? He Hr]; subst.
  change (run decodeAudioData s (e :: r))
    with (run decodeAudioData (step decodeAudioData s e) r).
  assert (H : currentInputLanguageRef (step decodeAudioData s e) = Some NotAString /\
              transcripts (step decodeAudioData s e) = transcripts s /\
              spoken (effects (step decodeAudioData s e)) = spoken (effects s)).
  { destruct e as [clk message | source | err].
    - assert (Hlang : detectedLanguage message s = Some NotAString).
      { unfold detectedLanguage. unfold noStringTag in He. cbn in He.
        destruct (tagOf (inputTranscription message)) as [[c|]|];
          [contradiction (He c); reflexivity | reflexivity | exact Href]. }
      destruct (step_non_string clk message s Hlang) as (H1 & H2 & H3 & _).
      repeat split; assumption.
    - repeat split; assumption.
    - unfold step, dispatch, onerror, bind, emit, modify. cbn.
      destruct err as [message|]; cbn;
        [destruct (Js.includes "Invalid argument" message); cbn;
         [| destruct (Js.includes "Internal error" message); cbn] |];
        rewrite !spoken_app; cbn; rewrite ?app_nil_r; repeat split; assumption. }
  destruct H as (H1 & H2 & H3).
  destruct (IH _ H1 Hr) as (G1 & G2 & G3). cbv zeta in *.
  repeat split; congruence.
Qed.

End StoredTag.

(** ** What [Transcript] shows *)

Lemma filter_final_model history :
  Forall finalized history -> filter hasSpeakButton history = filter isModel history.
Proof.
  induction 1 as [|item r (Hfinal & _) _ IH]; [reflexivity |]. cbn.
  unfold hasSpeakButton at 1. rewrite Hfinal, andb_true_r, IH. reflexivity.
Qed.

Section Rendering.

Variable decodeAudioData : string -> option Z.

(** While every tag delivered is a string, the stored tag and the tags of
    the history entries are strings or absent: every badge renders. *)
Lemma act_string_tags a s :
  stringTagged a ->
  currentInputLanguageRef s <> Some NotAString /\
  Forall (fun item => badgeRenders item = true) (transcripts s) ->
  currentInputLanguageRef (act decodeAudioData s a) <> Some NotAString /\
  Forall (fun item => badgeRenders item = true) (transcripts (act decodeAudioData s a)).
Proof.
  intros Ha [Href Hhist].
  destruct a as [e | button | | | index | outcome | |]; unfold act, perform.
  - destruct e as [clk message | source | err].
    + cbn in Ha.
      assert (Hlang : detectedLanguage message s <> Some NotAString).
      { unfold detectedLanguage.
        destruct (tagOf (inputTranscription message)) as [[c|]|];
          [discriminate | contradiction Ha; reflexivity | exact Href]. }
      change (snd (dispatch decodeAudioData (Message clk message) s))
        with (step decodeAudioData s (Message clk message)).
      destruct (turnComplete message) eqn:Htc.
      * destruct (step_turnComplete decodeAudioData clk message s Htc Hlang)
          as (c & _ & H1 & _ & _ & H4 & _). cbv zeta in *.
        rewrite H1, H4. split.
        -- destruct (Js.truthy (Js.trim (userBuffer message s))); [discriminate | exact Hlang].
        -- apply Forall_app. split; [exact Hhist |]. apply Forall_app. split.
           ++ destruct (Js.truthy (Js.trim (userBuffer message s))); constructor;
                [| constructor].
              unfold badgeRenders, userItem. cbn.
              destruct (detectedLanguage message s) as [[?|]|];
                [reflexivity | contradiction Hlang; reflexivity | reflexivity].
           ++ destruct (Js.truthy (Js.trim (modelBuffer message s))); constructor;
                [reflexivity | constructor].
      * rewrite (step_language_partial decodeAudioData clk message s Htc Ha).
        destruct (step_partial decodeAudioData s (Message clk message) (conj Htc Ha))
          as (_ & _ & H3 & _). cbv zeta in H3. rewrite H3. split; assumption.
    + split; assumption.
    + unfold dispatch, onerror, bind, emit, modify. cbn.
      destruct err as [message|]; cbn; [| split; assumption].
      destruct (Js.includes "Invalid argument" message); cbn; [split; assumption |].
      destruct (Js.includes "Internal error" message); cbn; split; assumption.
  - destruct (nth_error LANGUAGES button); split; assumption.
  - split; assumption.
  - unfold replayLastOutput, bind, read. cbn.
    destruct (find isModel (rev (transcripts s))); [| split; assumption].
    destruct (speechSynthesisInWindow s); split; assumption.
  - unfold bind, read. cbn.
    destruct (nth_error (transcripts s) index) as [item|]; [| split; assumption].
    destruct (hasSpeakButton item); [| split; assumption].
    unfold handleSpeak, bind, read. cbn. destruct (speechSynthesisInWindow s); split; assumption.
  - unfold bind, read. cbn. destruct (isConnected s).
    + destruct (disconnect_state s) as (_ & _ & _ & Hl & _ & _ & Ht & _). cbv zeta in *.
      rewrite Hl, Ht. split; [discriminate | exact Hhist].
    + pose proof (connectToGemini_frame outcome s) as Hk. cbv beta in Hk.
      injection Hk; intros. split; congruence.
  - split; assumption.
  - split; assumption.
Qed.

Lemma session_string_tags actions : forall s,
  Forall stringTagged actions ->
  currentInputLanguageRef s <> Some NotAString /\
  Forall (fun item => badgeRenders item = true) (transcripts s) ->
  currentInputLanguageRef (session decodeAudioData s actions) <> Some NotAString /\
  Forall (fun item => badgeRenders item = true)
    (transcripts (session decodeAudioData s actions)).
Proof.
  induction actions as [|a r IH]; intros s Hall H; [exact H |].
  inversion Hall as [|? ? Ha Hr]; subst.
  change (session decodeAudioData s (a :: r))
    with (session decodeAudioData (act decodeAudioData s a) r).
  apply IH; [exact Hr |]. apply act_string_tags; assumption.
Qed.

(** X17: in a session in which every language tag delivered is a string,
    [Transcript] renders: it shows the history followed by one entry per
    non-empty accumulation buffer, the user's first; the entries with a
    read-aloud button are exactly the model entries of the history; the
    placeholder is shown exactly when the history and both buffers are
    empty; and the button of a model entry reads its text with no language
    set, whatever the target language. *)
Theorem read_aloud_buttons_are_the_model_entries speech actions clk :
  Forall stringTagged actions ->
  let s := session decodeAudioData (initialState speech) actions in
  exists streaming,
    rendered clk s = Some (transcripts s ++ streaming)%list /\
    map Item.text streaming =
      ((if Js.truthy (currentInputTransRef s) then [currentInputTransRef s] else [])
       ++ (if Js.truthy (currentOutputTransRef s) then [currentOutputTransRef s] else []))%list /\
    Forall (fun item => Item.isFinal item = false) streaming /\
    filter hasSpeakButton (transcripts s ++ streaming) = filter isModel (transcripts s) /\
    ((transcripts s ++ streaming)%list = [] <->
     transcripts s = [] /\ currentInputTransRef s = EmptyString /\
     currentOutputTransRef s = EmptyString) /\
    (forall index item,
       nth_error (transcripts s) index = Some item ->
       speechSynthesisInWindow s = true ->
       spoken (effects (act decodeAudioData s (SpeakItem index))) =
       (spoken (effects s)
        ++ (if isModel item then [(Item.text item, EmptyString)] else []))%list).
Proof.
  intros Hall. cbv zeta.
  destruct (session_string_tags actions (initialState speech) Hall)
    as [Href Hbadge]; [split; [discriminate | constructor] |].
  set (s := session decodeAudioData (initialState speech) actions) in *.
  assert (Hm : mirrored s).
  { apply (session_invariant decodeAudioData mirrored).
    - intros s0 a. apply act_mirrored.
    - split; reflexivity. }
  assert (Hf : Forall finalized (transcripts s)).
  { apply (session_invariant decodeAudioData (fun s => Forall finalized (transcripts s)));
      [| constructor].
    intros s0 a H. destruct (act_extendsHistory decodeAudioData a s0) as (rest & E & F).
    unfold act. rewrite E. apply Forall_app. split; assumption. }
  clearbody s. destruct Hm as [Hu Ho].
  set (streaming :=
         ((if Js.truthy (currentInputTransRef s)
           then [Item.mk "streaming-user" User (currentInputTransRef s)
                   (currentInputLanguageRef s) false (dateNow clk)]
           else [])
          ++ (if Js.truthy (currentOutputTransRef s)
              then [Item.mk "streaming-model" Model (currentOutputTransRef s) None false
                      (dateNow clk)]
              else []))%list).
  exists streaming.
  assert (Hshown : displayItems clk (transcripts s) (streamingUserText s)
                     (streamingModelText s) (currentInputLanguageRef s)
                   = (transcripts s ++ streaming)%list)
    by (unfold displayItems; rewrite Hu, Ho; reflexivity).
  split; [| split; [| split; [| split; [| split]]]].
  - unfold rendered, Transcript. cbv zeta. rewrite Hshown.
    assert (Hall' : forallb badgeRenders (transcripts s ++ streaming) = true).
    { apply forallb_forall. intros item Hin. apply in_app_or in Hin as [Hin | Hin].
      - rewrite Forall_forall in Hbadge. apply Hbadge, Hin.
      - unfold streaming in Hin. apply in_app_or in Hin as [Hin | Hin].
        + destruct (Js.truthy (currentInputTransRef s)); [| contradiction Hin].
          destruct Hin as [<- | []]. unfold badgeRenders. cbn.
          destruct (currentInputLanguageRef s) as [[?|]|];
            [reflexivity | contradiction Href; reflexivity | reflexivity].
        + destruct (Js.truthy (currentOutputTransRef s)); [| contradiction Hin].
          destruct Hin as [<- | []]. reflexivity. }
    rewrite Hall'. reflexivity.
  - unfold streaming.
    destruct (Js.truthy (currentInputTransRef s)), (Js.truthy (currentOutputTransRef s));
      reflexivity.
  - unfold streaming.
    destruct (Js.truthy (currentInputTransRef s)), (Js.truthy (currentOutputTransRef s));
      repeat constructor.
  - rewrite filter_app, (filter_final_model _ Hf). unfold streaming.
    destruct (Js.truthy (currentInputTransRef s)), (Js.truthy (currentOutputTransRef s));
      cbn; apply app_nil_r.
  - split.
    + intros H. apply app_eq_nil in H as [H1 H2]. unfold streaming in H2.
      apply app_eq_nil in H2 as [H2 H3].
      split; [exact H1 |]. split; apply truthy_false.
      * destruct (Js.truthy (currentInputTransRef s)); [discriminate | reflexivity].
      * destruct (Js.truthy (currentOutputTransRef s)); [discriminate | reflexivity].
    + intros (H1 & H2 & H3). unfold streaming. rewrite H1, H2, H3. reflexivity.
  - intros index item Hnth Hsp. unfold act, perform, bind, read. cbn.
    rewrite Hnth. rewrite Forall_forall in Hf.
    destruct (Hf item (nth_error_In _ _ Hnth)) as (Hfinal & _).
    unfold hasSpeakButton. rewrite Hfinal, andb_true_r.
    destruct (isModel item); cbn.
    + unfold handleSpeak, bind, read. cbn. rewrite Hsp. cbn.
      rewrite !spoken_app. cbn. rewrite app_nil_r. reflexivity.
    + rewrite app_nil_r. reflexivity.
Qed.

End Rendering.

(** ** The detected language across turns *)

Section StaleTag.

Variable decodeAudioData : string -> option Z.


End StaleTag.


(** ** The displayed error *)

Section DisplayedError.

Variable decodeAudioData : string -> option Z.

Lemma error_transcriptionFrame : transcriptionFrame error.
Proof. split; reflexivity. Qed.

Lemma error_playbackFrame : playbackFrame error.
Proof. split; reflexivity. Qed.

(** X19: an error that is displayed stays displayed until the user dismisses
    it or the next attempt to connect gets as far as requesting the
    session: no message, channel error, [ended] or [onclose] event,
    settings change, replay or disconnect clears it, and after an attempt
    to connect that fails an error is still displayed. *)
Theorem error_is_cleared_only_by_dismissal_or_connecting s a :
  error s <> None ->
  error (act decodeAudioData s a) = None ->
  a = DismissError \/
  (isConnected s = false /\ (a = ClickConnect Pending \/ a = ClickConnect Opens)).
Proof.
  intros Herr Hnone. destruct a as [e | button | | | index | outcome | |];
    [| | | | | | | left; reflexivity]; right; unfold act, perform in Hnone.
  - exfalso. apply Herr. destruct e as [clk message | source | err].
    + rewrite <- Hnone. symmetry.
      change (error (step decodeAudioData s (Message clk message)) = error s).
      rewrite (step_message_keeps error error_playbackFrame).
      apply (transcriptionBlock_keeps error error_transcriptionFrame).
    + exact Hnone.
    + revert Hnone. unfold dispatch, onerror, bind, emit, modify. cbn.
      destruct err as [message|]; cbn; [| tauto].
      destruct (Js.includes "Invalid argument" message); cbn; [discriminate |].
      destruct (Js.includes "Internal error" message); cbn; [tauto | discriminate].
  - exfalso. apply Herr. rewrite <- Hnone.
    destruct (nth_error LANGUAGES button); reflexivity.
  - exfalso. apply Herr. rewrite <- Hnone. reflexivity.
  - exfalso. apply Herr. rewrite <- Hnone. unfold replayLastOutput, bind, read. cbn.
    destruct (find isModel (rev (transcripts s))); [| reflexivity].
    destruct (speechSynthesisInWindow s); reflexivity.
  - exfalso. apply Herr. rewrite <- Hnone. unfold bind, read. cbn.
    destruct (nth_error (transcripts s) index) as [item|]; [| reflexivity].
    destruct (hasSpeakButton item); [| reflexivity].
    unfold handleSpeak, bind, read. cbn. destruct (speechSynthesisInWindow s); reflexivity.
  - unfold bind, read in Hnone. cbn in Hnone. destruct (isConnected s) eqn:Hc.
    + exfalso. apply Herr. rewrite <- Hnone.
      destruct (disconnect_state s) as (_ & _ & _ & _ & _ & _ & _ & _ & _ & _ & _ & _ & He & _).
      symmetry. exact He.
    + split; [reflexivity |].
      destruct outcome; try discriminate Hnone; [left | right]; reflexivity.
  - exfalso. apply Herr. exact Hnone.
Qed.

End DisplayedError.

(** A channel error while connected, a click that disconnects and a click
    that connects again. *)
Lemma error_is_cleared_only_by_dismissal_or_connecting_witness :
  let s := step pcm16Duration (connected (initialState true))
             (ChannelError (ErrorObject "socket closed")) in
  let s' := act pcm16Duration s (ClickConnect Opens) in
  error s = Some connectionMessage /\ error s' = Some connectionMessage /\
  error (act pcm16Duration s' (ClickConnect Opens)) = None /\
  isConnected s' = false.
Proof.
  intros s s'.
  assert (H1 : error s' <> None) by discriminate.
  split; [reflexivity |]. split; [reflexivity |]. split; [reflexivity |].
  destruct (error_is_cleared_only_by_dismissal_or_connecting pcm16Duration s'
              (ClickConnect Opens) H1 eq_refl) as [H | [H _]];
    [discriminate H | exact H].
Defined.

(** ** The user's actions and the callbacks *)

(** X20: no action of the user (a language button, the speech toggle, the
    replay button, a read-aloud button, the main button, the button of the
    error toast) and no [onclose] changes the history or the remembered
    client language, hands a buffer to the device, or starts or stops a
    source; the active set and the cursor are left as they are or reset (by
    a disconnect). *)
Theorem user_actions_leave_history_and_audio decodeAudioData a s :
  (forall e, a <> Remote e) ->
  let s' := act decodeAudioData s a in
  transcripts s' = transcripts s /\
  lastClientLanguageRef s' = lastClientLanguageRef s /\
  scheduled (effects s') = scheduled (effects s) /\
  started (effects s') = started (effects s) /\
  stopped (effects s') = stopped (effects s) /\
  (sourcesRef s' = sourcesRef s \/ sourcesRef s' = []) /\
  (nextStartTimeRef s' = nextStartTimeRef s \/ nextStartTimeRef s' = 0).
Proof.
  intros Hui.
  destruct (user_action_state decodeAudioData a s Hui)
    as (H1 & H2 & _ & _ & H5 & H6 & H7 & H8 & H9 & _).
  cbv zeta in *. repeat split; assumption.
Qed.

(** A disconnect while two buffers are queued. *)
Lemma user_actions_leave_history_and_audio_witness :
  let s := run pcm16Duration (connected (initialState true))
             [Message (at_ 0) (audioMessage "AAAA"); Message (at_ 1) (audioMessage "BBBBBB")] in
  let s' := act pcm16Duration s (ClickConnect Opens) in
  sourcesRef s = [0%nat; 1%nat] /\ sourcesRef s' = [] /\
  scheduled (effects s') = [(0, 2); (2, 3)] /\ stopped (effects s') = [].
Proof.
  intros s s'.
  destruct (user_actions_leave_history_and_audio pcm16Duration (ClickConnect Opens) s
              ltac:(intros e; discriminate)) as (_ & _ & H3 & _ & H5 & _).
  split; [reflexivity |]. split; [reflexivity |]. split; [exact H3 | exact H5].
Defined.

(** ** Runs on concrete inputs *)

Lemma mapLanguageCodeToLocale_by_base_code_witness :
  mapLanguageCodeToLocale "ES-mx" = Some "es-ES" /\
  In "es-ES" locales /\ baseCode "es-ES" = baseCode "ES-mx" /\
  mapLanguageCodeToLocale "es-ES" = Some "es-ES".
Proof.
  split; [reflexivity |].
  exact (proj2 (proj2 (mapLanguageCodeToLocale_by_base_code "ES-mx")) "es-ES" eq_refl).
Defined.

(** With fallback speech on, a payload is not scheduled; with fallback
    speech off, a finished turn is not spoken. *)
Lemma playback_and_fallback_speech_exclude_each_other_witness :
  scheduled (effects (run pcm16Duration fallbackSession
                        [Message (at_ 0) (audioMessage "AAAA")])) = [] /\
  spoken (effects (run pcm16Duration (connected (initialState true))
                     [Message (at_ 0) (partialOutput "Bonjour");
                      Message (at_ 1) turnCompleteMessage])) = [].
Proof.
  split.
  - refine (proj1 (proj1 (playback_and_fallback_speech_exclude_each_other pcm16Duration
                            fallbackSession [Message (at_ 0) (audioMessage "AAAA")]) _)).
    intros (H & _). discriminate H.
  - exact (proj2 (playback_and_fallback_speech_exclude_each_other pcm16Duration
                    (connected (initialState true))
                    [Message (at_ 0) (partialOutput "Bonjour");
                     Message (at_ 1) turnCompleteMessage]) eq_refl).
Defined.

Lemma fallback_requests_carry_a_locale_witness :
  spoken (effects (run pcm16Duration fallbackSession
                     [Message (at_ 0) (partialInput "Hola" (Some (Tag "es-MX")));
                      Message (at_ 1) (partialInput "Oui" (Some (Tag "fr-CA")));
                      Message (at_ 2) (partialOutput "Bonjour");
                      Message (at_ 3) turnCompleteMessage])) = [("Bonjour", "es-ES")] /\
  Js.truthy "Bonjour" = true /\ In "es-ES" locales.
Proof.
  assert (Hrun : spoken (effects (run pcm16Duration fallbackSession
                     [Message (at_ 0) (partialInput "Hola" (Some (Tag "es-MX")));
                      Message (at_ 1) (partialInput "Oui" (Some (Tag "fr-CA")));
                      Message (at_ 2) (partialOutput "Bonjour");
                      Message (at_ 3) turnCompleteMessage])) = [("Bonjour", "es-ES")])
    by reflexivity.
  split; [exact Hrun |].
  destruct (fallback_requests_carry_a_locale pcm16Duration
              [Message (at_ 0) (partialInput "Hola" (Some (Tag "es-MX")));
               Message (at_ 1) (partialInput "Oui" (Some (Tag "fr-CA")));
               Message (at_ 2) (partialOutput "Bonjour");
               Message (at_ 3) turnCompleteMessage]
              fallbackSession "Bonjour" "es-ES") as [[] | H].
  - left. reflexivity.
  - reflexivity.
  - repeat constructor; intros c Hc; cbn in Hc; try discriminate Hc;
      injection Hc as <-; reflexivity.
  - rewrite Hrun. left. reflexivity.
  - exact H.
Defined.

(** A message with text and audio, against the same text without audio and
    the same audio without text. *)
Lemma transcript_and_playback_are_independent_witness :
  let s := connected (initialState true) in
  let both := {| inputTranscription := None;
                 outputTranscription := Some {| text := Some "Bon"; languageCode := None |};
                 turnComplete := false; interrupted := false; inlineData := Some "AAAA" |} in
  transcriptView (step pcm16Duration s (Message (at_ 0) both)) =
  transcriptView (step pcm16Duration s (Message (at_ 0) (partialOutput "Bon"))) /\
  bufferView (step pcm16Duration s (Message (at_ 0) both)) =
  bufferView (step pcm16Duration s (Message (at_ 0) (partialOutput "Bon"))) /\
  schedulerView (step pcm16Duration s (Message (at_ 0) both)) =
  schedulerView (step pcm16Duration s (Message (at_ 0) (audioMessage "AAAA"))).
Proof.
  intros s both.
  destruct (transcript_and_playback_are_independent pcm16Duration (at_ 0) both
              (partialOutput "Bon") s) as [H1 _].
  destruct (transcript_and_playback_are_independent pcm16Duration (at_ 0) both
              (audioMessage "AAAA") s) as [_ H2].
  split; [exact (proj1 (H1 eq_refl eq_refl eq_refl)) |].
  split; [exact (proj2 (H1 eq_refl eq_refl eq_refl)) | exact (H2 eq_refl eq_refl)].
Defined.

Lemma partial_texts_accumulate_in_order_witness :
  currentInputTransRef
    (run pcm16Duration (connected (initialState true))
       [Message (at_ 0) (partialInput "Bon" None); Ended 7%nat;
        Message (at_ 1) (partialInput "jour" (Some (Tag "fr-FR")))]) = "Bonjour".
Proof.
  refine (proj1 (partial_texts_accumulate_in_order pcm16Duration
                   [Message (at_ 0) (partialInput "Bon" None); Ended 7%nat;
                    Message (at_ 1) (partialInput "jour" (Some (Tag "fr-FR")))]
                   (connected (initialState true)) _)).
  repeat constructor; discriminate.
Defined.

(** A disconnect in the middle of a turn, then a turn-complete of the
    session that was left open. *)
Lemma disconnect_stops_playback_not_transcription_witness :
  let s := run pcm16Duration (connected (initialState true))
             [Message (at_ 0) (partialOutput "Bon")] in
  let late := {| inputTranscription := None;
                 outputTranscription := Some {| text := Some "soir"; languageCode := None |};
                 turnComplete := true; interrupted := false; inlineData := Some "AAAA" |} in
  let s' := snd (disconnect s) in
  currentOutputTransRef s = "Bon" /\
  bufferView s' = (EmptyString, EmptyString, EmptyString, EmptyString) /\
  scheduled (effects (run pcm16Duration s' [Message (at_ 9) late])) = [] /\
  exists lang : option LangTag,
    transcripts (step pcm16Duration s' (Message (at_ 9) late)) = [modelItem (at_ 9) "soir"].
Proof.
  intros s late s'.
  destruct (disconnect_stops_playback_not_transcription pcm16Duration s)
    as (_ & (_ & Hb & _) & H3 & H4).
  split; [reflexivity |]. split; [exact Hb |].
  split; [exact (proj1 (H3 [Message (at_ 9) late])) |].
  exact (H4 (at_ 9) late eq_refl ltac:(discriminate)).
Defined.

Lemma replay_speaks_last_model_entry_witness :
  let s := run pcm16Duration (connected (initialState true))
             [Message (at_ 0) (partialOutput "Bonjour");
              Message (at_ 1) turnCompleteMessage;
              Message (at_ 2) (partialInput "Merci" None);
              Message (at_ 3) turnCompleteMessage] in
  exists lang,
    replayLastOutput s =
      (Normal tt, set_effects (effects s ++ [SpeechCancel; Speak "Bonjour" lang]) s) /\
    lang = EmptyString.
Proof.
  intros s.
  destruct (proj1 (replay_speaks_last_model_entry s)
              [] (modelItem (at_ 1) "Bonjour") [userItem (at_ 3) "Merci" None]
              eq_refl eq_refl ltac:(repeat constructor) eq_refl)
    as (lang & H1 & H2 & _).
  exists lang. split; [exact H1 | exact (H2 eq_refl)].
Defined.

(** A Spanish turn with Spanish as the target: spoken in French, replayed in
    Spanish. *)
Lemma replay_ignores_direction_witness :
  let s := set_targetLanguageRef "Spanish" fallbackSession in
  let turn := {| inputTranscription :=
                   Some {| text := Some "Hola"; languageCode := Some (Tag "es-ES") |};
                 outputTranscription := Some {| text := Some "Bonjour"; languageCode := None |};
                 turnComplete := true; interrupted := false; inlineData := None |} in
  spoken (effects (act pcm16Duration (step pcm16Duration s (Message (at_ 0) turn)) Replay)) =
  [("Bonjour", "fr-FR"); ("Bonjour", "es-ES")].
Proof.
  intros s turn.
  refine (replay_ignores_direction pcm16Duration (at_ 0) turn s "es-ES" "es-ES"
            eq_refl eq_refl eq_refl eq_refl eq_refl eq_refl _ eq_refl).
  discriminate.
Defined.

Lemma read_aloud_buttons_are_the_model_entries_witness :
  let s := session pcm16Duration (initialState true)
             [Remote (Message (at_ 0) (partialOutput "Bonjour"));
              Remote (Message (at_ 1) turnCompleteMessage);
              Remote (Message (at_ 2) (partialInput "Mer" (Some (Tag "fr-FR"))))] in
  (exists shown, rendered (at_ 3) s = Some shown /\
                 map Item.text shown = ["Bonjour"; "Mer"]) /\
  spoken (effects (act pcm16Duration s (SpeakItem 0))) = [("Bonjour", EmptyString)].
Proof.
  intros s.
  destruct (read_aloud_buttons_are_the_model_entries pcm16Duration true
              [Remote (Message (at_ 0) (partialOutput "Bonjour"));
               Remote (Message (at_ 1) turnCompleteMessage);
               Remote (Message (at_ 2) (partialInput "Mer" (Some (Tag "fr-FR"))))] (at_ 3))
    as (streaming & H1 & H2 & _ & _ & _ & H6).
  - repeat constructor; discriminate.
  - split.
    + eexists. split; [exact H1 |]. rewrite map_app, H2. reflexivity.
    + exact (H6 0%nat (modelItem (at_ 1) "Bonjour") eq_refl eq_refl).
Defined.

(** ** Turns without a language tag *)

Section TaglessTurn.

Variable decodeAudioData : string -> option Z.

Lemma tagless_isPartial e : tagless e -> isPartial e.
Proof.
  destruct e as [clk message | source | err]; [| exact (fun H => H) ..].
  intros [Htc Htag]. split; [exact Htc | rewrite Htag; discriminate].
Qed.

(** Through the partial messages of a turn that deliver no tag, no tag
    gets stored, the model text accumulates and nothing is spoken. *)
Lemma run_tagless partials : forall s,
  currentInputLanguageRef s = None ->
  Forall tagless partials ->
  let s' := run decodeAudioData s partials in
  currentInputLanguageRef s' = None /\
  currentOutputTransRef s' =
    currentOutputTransRef s ++ partialTexts outputTranscription partials /\
  spoken (effects s') = spoken (effects s).
Proof.
  induction partials as [|e r IH]; intros s Href Hall.
  - cbn. rewrite append_empty_r. repeat split. exact Href.
  - inversion Hall as [|? ? He Hr]; subst.
    change (run decodeAudioData s (e :: r))
      with (run decodeAudioData (step decodeAudioData s e) r).
    destruct (step_partial decodeAudioData s e (tagless_isPartial e He))
      as (_ & B2 & _ & B4). cbv zeta in *.
    assert (Href1 : currentInputLanguageRef (step decodeAudioData s e) = None).
    { destruct e as [clk message | source | err].
      - destruct He as [Htc Htag].
        rewrite (step_language_partial decodeAudioData clk message s Htc);
          [| rewrite Htag; discriminate].
        unfold detectedLanguage. rewrite Htag. exact Href.
      - exact Href.
      - unfold step, dispatch, onerror, bind, emit, modify. cbn.
        destruct err as [message|]; cbn; [| exact Href].
        destruct (Js.includes "Invalid argument" message); cbn; [exact Href |].
        destruct (Js.includes "Internal error" message); exact Href. }
    destruct (IH _ Href1 Hr) as (A1 & A2 & A3). cbv zeta in *.
    rewrite A1, A2, A3, B2, B4, append_assoc.
    destruct e; cbn [partialTexts]; rewrite ?append_empty_r; repeat split.
Qed.

(** C9 (amended).  A turn that starts with no tag stored and in which no
    message delivers a tag (partial messages, then the turn-complete) is
    taken as non-French input: with fallback speech on and a non-empty model
    text, the speak-request (issued where [window] has [speechSynthesis])
    carries [fr-FR]. *)
Theorem absent_language_speaks_french partials clk message s :
  currentInputLanguageRef s = None ->
  Forall tagless partials ->
  turnComplete message = true ->
  tagOf (inputTranscription message) = None ->
  useBrowserTTSRef s = true ->
  let modelOutput :=
    Js.trim (currentOutputTransRef s ++ partialTexts outputTranscription partials
             ++ textOf (outputTranscription message)) in
  Js.truthy modelOutput = true ->
  spoken (effects (run decodeAudioData s (partials ++ [Message clk message]))) =
  (spoken (effects s)
   ++ (if speechSynthesisInWindow s then [(modelOutput, "fr-FR")] else []))%list.
Proof.
  intros Href Hall Htc Htag Htts. cbv zeta. intros Hout.
  unfold run. rewrite fold_left_app. cbn [fold_left].
  fold (run decodeAudioData s partials).
  destruct (run_tagless partials s Href Hall) as (A1 & A2 & A3). cbv zeta in *.
  pose proof (run_settings decodeAudioData partials s) as Hset.
  unfold settingsView in Hset. injection Hset as Htts' _ _ _ Hsp' _.
  set (s' := run decodeAudioData s partials) in *.
  assert (Hbuf : modelBuffer message s' =
                 currentOutputTransRef s ++ partialTexts outputTranscription partials
                 ++ textOf (outputTranscription message))
    by (unfold modelBuffer; rewrite A2, append_assoc; reflexivity).
  rewrite (turnComplete_without_language decodeAudioData clk message s' Htc).
  - rewrite A3, Hsp', Hbuf. reflexivity.
  - unfold detectedLanguage. rewrite Htag. exact A1.
  - congruence.
  - rewrite Hbuf. exact Hout.
Qed.

End TaglessTurn.

Lemma absent_language_speaks_french_witness :
  spoken (effects (run pcm16Duration fallbackSession
                     ([Message (at_ 0) (partialOutput "Bon"); Ended 0%nat;
                       Message (at_ 1) (partialOutput "jour ")]
                      ++ [Message (at_ 2) turnCompleteMessage])))
  = [("Bonjour", "fr-FR")].
Proof.
  refine (absent_language_speaks_french pcm16Duration
            [Message (at_ 0) (partialOutput "Bon"); Ended 0%nat;
             Message (at_ 1) (partialOutput "jour ")]
            (at_ 2) turnCompleteMessage fallbackSession
            eq_refl _ eq_refl eq_refl eq_refl eq_refl).
  repeat constructor.
Defined.

(** C9, as stated, fails: the first turn delivers the tag [fr-FR] with a
    blank text, so its turn-complete finalizes no user entry and leaves the
    tag stored; in the second turn no tag is observed, yet its model text
    is spoken with [en-US], not [fr-FR]. *)
Lemma stale_tag_decides_tagless_turn :
  let blank := {| inputTranscription :=
                    Some {| text := Some " "; languageCode := Some (Tag "fr-FR") |};
                  outputTranscription := None;
                  turnComplete := true; interrupted := false; inlineData := None |} in
  let s1 := step pcm16Duration fallbackSession (Message (at_ 0) blank) in
  let partials := [Message (at_ 1) (partialOutput "Good morning")] in
  let s2 := run pcm16Duration s1 (partials ++ [Message (at_ 2) turnCompleteMessage]) in
  transcripts s1 = [] /\ spoken (effects s1) = [] /\
  Forall tagless partials /\ tagOf (inputTranscription turnCompleteMessage) = None /\
  useBrowserTTSRef s1 = true /\ speechSynthesisInWindow s1 = true /\
  spoken (effects s2) = [("Good morning", "en-US")] /\
  spoken (effects s2) <> [("Good morning", "fr-FR")].
Proof.
  cbv zeta. repeat split; try reflexivity.
  - repeat constructor.
  - discriminate.
Qed.

(** ** A language tag that is not a string *)

(** C6.  The code at a message whose [languageCode] is the number 42.  The
    exception of [handleTranscription] is caught and the callback returns
    normally, but line 392 has stored the tag before line 394 throws.  The
    render of [Transcript] then throws on the streaming entry.  A turn
    that is finalized when it is sent to a clean state is not finalized
    when it follows that message: its turn-complete throws again at
    [detectedInputLang.toLowerCase()], the history stays empty and the
    buffers keep their text. *)
Theorem malformed_tag_blocks_later_turns :
  let s0 := connected (initialState true) in
  let turn := [Message (at_ 1) (partialInput "Bonjour" None);
               Message (at_ 2) (partialOutput "Hello")] in
  let s1 := step pcm16Duration s0 (Message (at_ 0) (malformedTagMessage "AAAA")) in
  let s2 := run pcm16Duration s1 turn in
  let s3 := step pcm16Duration s2 (Message (at_ 3) turnCompleteMessage) in
  fst (handleTranscription (at_ 0) (malformedTagMessage "AAAA") s0)
    = Thrown (TypeError "toLowerCase is not a function") /\
  fst (onmessage pcm16Duration (at_ 0) (malformedTagMessage "AAAA") s0) = Normal tt /\
  currentInputLanguageRef s1 = Some NotAString /\
  rendered (at_ 0) s0 = Some [] /\ rendered (at_ 0) s1 = None /\
  map Item.text
    (transcripts (step pcm16Duration (run pcm16Duration s0 turn)
                    (Message (at_ 3) turnCompleteMessage))) = ["Bonjour"; "Hello"] /\
  fst (handleTranscription (at_ 3) turnCompleteMessage s2)
    = Thrown (TypeError "toLowerCase is not a function") /\
  transcripts s3 = [] /\
  currentInputTransRef s3 = "MoinBonjour" /\ currentOutputTransRef s3 = "Hello" /\
  currentInputLanguageRef s3 = Some NotAString.
Proof. cbv zeta. repeat split; reflexivity. Qed.
